(** * arg-jobs-analytics: the LinkedIn scraper

    A shallow embedding of [scraper/linkedin.go] and of the driver that
    accompanies it ([main], [saveJobsToFile], [saveJobsToSQLite]).

    - [Listing]: the paginator [jobListings], run against an arbitrary
      upstream, with the log and the channel made explicit.
    - [FanOut]: the per-search fan-out of [main] and the merge into the
      category tree, parameterised by the order in which goroutines finish.
    - [Flat]: [saveJobsToFile] over a file that may already exist.
    - [SQLite]: [saveJobsToSQLite] over the five tables, inside one
      transaction with fault injection.  *)

From Stdlib Require Import List String Ascii ZArith Lia Bool Arith Permutation.
Import ListNotations.

Local Open Scope string_scope.
Local Open Scope list_scope.

(* ===================================================================== *)
(** ** Go's [int] on x86_64 and the data types shared by the program     *)
(* ===================================================================== *)

Module GoInt.

Definition min_int : Z := - 2 ^ 63.
Definition max_int : Z := 2 ^ 63 - 1.

Definition in_range (z : Z) : Prop := (min_int <= z <= max_int)%Z.

(** Two's complement wrap-around of a mathematical integer. *)
Definition wrap (z : Z) : Z := ((z + 2 ^ 63) mod 2 ^ 64 - 2 ^ 63)%Z.

(** [a + b] on Go [int]. *)
Definition add (a b : Z) : Z := wrap (a + b).

End GoInt.

(** [type JobID = string] *)
Definition JobID := string.

(** [type JobPosting struct] *)
Record JobPosting := mkJobPosting {
  JobID_     : string;   (* JobID       `json:"job_id"` *)
  Company    : string;   (* Company     `json:"company"` *)
  Description: string;   (* Description `json:"description"` *)
  Title      : string    (* Title       `json:"title"` *)
}.

(** [type SearchGroup struct] *)
Record SearchGroup := mkSearchGroup {
  SearchTerm : string;
  Jobs       : list JobPosting
}.

(** [type JobCategoryGroup struct] *)
Record JobCategoryGroup := mkJobCategoryGroup {
  Category : string;
  Searches : list SearchGroup
}.

(** [type JobCategory struct] *)
Record JobCategory := mkJobCategory {
  CategoryName : string;       (* Category *)
  SearchTerms  : list string
}.

Definition getJobCategories : list JobCategory :=
  [ mkJobCategory "Data Science" ["data scientist"; "data science"];
    mkJobCategory "Security" ["security engineer"; "security analyst"] ].

(* ===================================================================== *)
(** ** strings.ReplaceAll with an empty replacement                       *)
(* ===================================================================== *)

Module Strings.

(** [strings.HasPrefix s p] *)
Fixpoint HasPrefix (s p : string) {struct p} : bool :=
  match p, s with
  | EmptyString, _ => true
  | String _ _, EmptyString => false
  | String a p', String b s' => Ascii.eqb a b && HasPrefix s' p'
  end.

(** [strings.ReplaceAll s old ""] for a non-empty [old]: the
    non-overlapping occurrences of [old] are removed, left to right.
    [skip] counts the bytes of a match that remain to be dropped. *)
Fixpoint removeAllFrom (old : string) (skip : nat) (s : string) : string :=
  match s with
  | EmptyString => EmptyString
  | String c s' =>
      match skip with
      | S k => removeAllFrom old k s'
      | O => if HasPrefix s old
             then removeAllFrom old (String.length old - 1) s'
             else String c (removeAllFrom old 0 s')
      end
  end.

Definition RemoveAll (s old : string) : string := removeAllFrom old 0 s.

End Strings.

(* ===================================================================== *)
(** ** The listing paginator: [jobListings]                               *)
(* ===================================================================== *)

Module Listing.

(** [type jobListingsResponse struct]; the two anonymous structs
    [Metadata] and [Paging] are flattened.  An element of
    [JobCardPrefetchQueries] is its [PrefetchJobPostingCardUrns]. *)
Record jobListingsResponse := mkResponse {
  JobCardPrefetchQueries : list (list string);
  Total : Z;
  Start : Z;
  Count : Z
}.

(** The parameters [jobListingsUrl] puts in the URL. *)
Record Request := mkRequest {
  req_search : string;
  req_start  : Z;
  req_count  : Z
}.

(** What [httpClient.Do] followed by the JSON decoder hands back.  The
    body is [None] when [Decode] fails. *)
Inductive DoResult :=
| DoError
| Response (StatusCode : Z) (body : option jobListingsResponse).

(** The world outside the process.  [Do n req] answers the [n]-th request
    of the run (counting from 0); [NewRequestOk] tells whether
    [http.NewRequest] accepts the URL. *)
Record Upstream := mkUpstream {
  NewRequestOk : Request -> bool;
  Do : nat -> Request -> DoResult
}.

(** The four [log.Printf] calls of the loop. *)
Inductive LogEntry :=
| ErrCreatingRequest
| ErrMakingRequest
| ErrNotOK (status : Z)
| ErrDecoding.

(** Everything the goroutine does that another party can observe: the
    values sent on [result], the log lines, and the requests issued. *)
Record Trace := mkTrace {
  sent      : list JobID;
  logged    : list LogEntry;
  requested : list Request
}.

Definition emptyTrace : Trace := mkTrace [] [] [].

Definition send (ids : list JobID) (t : Trace) : Trace :=
  mkTrace (sent t ++ ids) (logged t) (requested t).
Definition log (e : LogEntry) (t : Trace) : Trace :=
  mkTrace (sent t) (logged t ++ [e]) (requested t).
Definition issue (r : Request) (t : Trace) : Trace :=
  mkTrace (sent t) (logged t) (requested t ++ [r]).

(** How the goroutine ends: it returns (the deferred [close(result)]
    runs), or the index expression [JobCardPrefetchQueries[0]] panics. *)
Inductive Ending :=
| Returned
| PanicIndexOutOfRange.

Definition StatusOK : Z := 200.

(** The element sent for one URN (line 82). *)
Definition stripUrn (id : string) : JobID :=
  Strings.RemoveAll (Strings.RemoveAll id "urn:li:fsd_jobPostingCard:(")
                    ",JOB_DETAILS)".

(** [content.Metadata.JobCardPrefetchQueries[0].PrefetchJobPostingCardUrns]:
    [None] is the run-time panic of an index out of range. *)
Definition firstQueryUrns (content : jobListingsResponse)
  : option (list string) :=
  nth_error (JobCardPrefetchQueries content) 0.

(** The [for !done] loop.  [fuel] bounds the number of iterations;
    [None] means the loop is still running when the fuel is spent.
    [n] numbers the requests, [start] is the loop variable. *)
Fixpoint loop (up : Upstream) (search : string) (fuel n : nat)
              (start : Z) (t : Trace) : option (Ending * Trace) :=
  match fuel with
  | O => None
  | S fuel' =>
      let count := 100%Z in
      let req := mkRequest search start count in
      if negb (NewRequestOk up req) then
        Some (Returned, log ErrCreatingRequest t)
      else
        let t := issue req t in
        match Do up n req with
        | DoError => Some (Returned, log ErrMakingRequest t)
        | Response status body =>
            if negb (status =? StatusOK)%Z then
              Some (Returned, log (ErrNotOK status) t)
            else
              match body with
              | None => Some (Returned, log ErrDecoding t)
              | Some content =>
                  match firstQueryUrns content with
                  | None => Some (PanicIndexOutOfRange, t)
                  | Some urns =>
                      let t := send (map stripUrn urns) t in
                      let start :=
                        GoInt.add start (Z.of_nat (List.length urns)) in
                      let done := (start >=? Total content)%Z in
                      if done then Some (Returned, t)
                      else loop up search fuel' (S n) start t
                  end
              end
        end
  end.

(** [jobListings]: the goroutine started with [start := 0]. *)
Definition jobListings (up : Upstream) (search : string) (fuel : nat)
  : option (Ending * Trace) :=
  loop up search fuel 0 0%Z emptyTrace.

(** What the caller of [jobListings] gets: a [<-chan JobID], that is the
    values sent, followed by the close.  Neither the log nor the way the
    goroutine ended travels on the channel. *)
Definition received (r : Ending * Trace) : list JobID := sent (snd r).

End Listing.

(* ===================================================================== *)
(** ** The detail fetcher and the fan-out of [main]                       *)
(* ===================================================================== *)

Module FanOut.

(** [type jobPostingsResponse struct], nested structs flattened. *)
Record jobPostingsResponse := mkDetail {
  Name   : string;   (* CompanyDetails.Company.Result.Name *)
  Text   : string;   (* Description.Text *)
  Title_ : string    (* Title *)
}.

(** What the world answers to one detail request. *)
Inductive DetailResult :=
| DetailNewRequestError
| DetailDoError
| DetailResponse (StatusCode : Z) (body : option jobPostingsResponse).

(** The four [fmt.Errorf] of [jobPostings]. *)
Inductive FetchError :=
| ErrCreatingRequest
| ErrMakingRequest
| ErrNotOK (status : Z)
| ErrDecoding.

(** [jobPostings]: one request, no retry. *)
Definition jobPostings (world : DetailResult) (jid : JobID)
  : JobPosting + FetchError :=
  match world with
  | DetailNewRequestError => inr ErrCreatingRequest
  | DetailDoError => inr ErrMakingRequest
  | DetailResponse status body =>
      if negb (status =? Listing.StatusOK)%Z then inr (ErrNotOK status)
      else match body with
           | None => inr ErrDecoding
           | Some content =>
               inl (mkJobPosting jid (Name content) (Text content)
                                 (Title_ content))
           end
  end.

(** One spawned goroutine of the inner loop: the identifier it was given
    and what its request will meet. *)
Definition Task : Type := JobID * DetailResult.

(** The log line of a failed fetch. *)
Definition LogLine : Type := JobID * FetchError.

(** The state the inner goroutines share: [searchGroup] (under
    [searchMu]) and the log. *)
Definition SearchState : Type := SearchGroup * list LogLine.

(** The body of the inner goroutine, lines 250-265: on error, log and
    return; otherwise append under the mutex.  Each body touches the
    shared state in one atomic step. *)
Definition fetchTask (st : SearchState) (task : Task) : SearchState :=
  let (searchGroup, lines) := st in
  let (jid, world) := task in
  match jobPostings world jid with
  | inr err => (searchGroup, lines ++ [(jid, err)])
  | inl job =>
      (mkSearchGroup (SearchTerm searchGroup) (Jobs searchGroup ++ [job]),
       lines)
  end.

(** One (category, searchTerm) goroutine up to [searchWg.Wait()].
    [finished] lists the spawned tasks in the order in which their
    bodies took effect; the scheduler chooses it. *)
Definition runSearch (searchTerm : string) (finished : list Task)
  : SearchState :=
  fold_left fetchTask finished (mkSearchGroup searchTerm [], []).

(** Lines 219-227. *)
Definition initJobGroups (categories : list JobCategory)
  : list JobCategoryGroup :=
  map (fun cat => mkJobCategoryGroup (CategoryName cat) []) categories.

(** Lines 272-277: append to the first group of that category, [break]. *)
Fixpoint appendSearch (category : string) (searchGroup : SearchGroup)
         (jobGroups : list JobCategoryGroup) : list JobCategoryGroup :=
  match jobGroups with
  | [] => []
  | jobGroup :: rest =>
      if String.eqb (Category jobGroup) category
      then mkJobCategoryGroup (Category jobGroup)
                              (Searches jobGroup ++ [searchGroup]) :: rest
      else jobGroup :: appendSearch category searchGroup rest
  end.

(** Lines 270-279. *)
Definition mergeSearch (category : string) (searchGroup : SearchGroup)
           (jobGroups : list JobCategoryGroup) : list JobCategoryGroup :=
  if (0 <? List.length (Jobs searchGroup))%nat
  then appendSearch category searchGroup jobGroups
  else jobGroups.

(** One (category, searchTerm) goroutine as the scheduler ran it. *)
Record Run := mkRun {
  run_category : string;
  run_term     : string;
  run_finished : list Task
}.

Definition mergeRun (jobGroups : list JobCategoryGroup) (r : Run)
  : list JobCategoryGroup :=
  mergeSearch (run_category r)
              (fst (runSearch (run_term r) (run_finished r))) jobGroups.

(** The tree [main] holds at [wg.Wait()]; [runs] lists the outer
    goroutines in the order in which they took [mu]. *)
Definition collect (categories : list JobCategory) (runs : list Run)
  : list JobCategoryGroup :=
  fold_left mergeRun runs (initJobGroups categories).

(** The postings a list of tasks delivers, in task order. *)
Fixpoint successes (tasks : list Task) : list JobPosting :=
  match tasks with
  | [] => []
  | (jid, world) :: rest =>
      match jobPostings world jid with
      | inl job => job :: successes rest
      | inr _ => successes rest
      end
  end.

(** The log lines a list of tasks leaves, in task order. *)
Fixpoint failures (tasks : list Task) : list LogLine :=
  match tasks with
  | [] => []
  | (jid, world) :: rest =>
      match jobPostings world jid with
      | inl _ => failures rest
      | inr err => (jid, err) :: failures rest
      end
  end.

(** [holds searchGroup jobGroups]: the tree has the group under one of its
    categories. *)
Definition holds (searchGroup : SearchGroup)
           (jobGroups : list JobCategoryGroup) : Prop :=
  exists g, In g jobGroups /\ In searchGroup (Searches g).

End FanOut.

(* ===================================================================== *)
(** ** The flat sink: [saveJobsToFile]                                    *)
(* ===================================================================== *)

Module Flat.

(** The double quote, byte 34. *)
Definition dq : string := String (Ascii.ascii_of_nat 34) EmptyString.
(** The line feed [Encoder.Encode] appends. *)
Definition lf : string := String (Ascii.ascii_of_nat 10) EmptyString.

Fixpoint joinWith (sep : string) (parts : list string) : string :=
  match parts with
  | [] => EmptyString
  | [p] => p
  | p :: rest => p ++ sep ++ joinWith sep rest
  end.

Definition array (items : list string) : string :=
  "[" ++ joinWith "," items ++ "]".

Definition field (key value : string) : string :=
  dq ++ key ++ dq ++ ":" ++ value.

Section Encoding.

(** [encoding/json]'s rendering of a Go string (quotes and escapes). *)
Variable quote : string -> string.

Definition encodeJobPosting (j : JobPosting) : string :=
  "{" ++ joinWith "," [ field "job_id" (quote (JobID_ j));
                        field "company" (quote (Company j));
                        field "description" (quote (Description j));
                        field "title" (quote (Title j)) ] ++ "}".

Definition encodeSearchGroup (g : SearchGroup) : string :=
  "{" ++ joinWith "," [ field "search_term" (quote (SearchTerm g));
                        field "jobs"
                              (array (map encodeJobPosting (Jobs g))) ]
      ++ "}".

Definition encodeJobCategoryGroup (g : JobCategoryGroup) : string :=
  "{" ++ joinWith "," [ field "category" (quote (Category g));
                        field "searches"
                              (array (map encodeSearchGroup (Searches g))) ]
      ++ "}".

(** [json.NewEncoder(f).Encode(jobGroups)] writes this, for the
    non-nil slices [main] builds. *)
Definition encode (jobGroups : list JobCategoryGroup) : string :=
  array (map encodeJobCategoryGroup jobGroups) ++ lf.

End Encoding.

(** The rendering of a string that needs no escape. *)
Definition quotePlain (s : string) : string := dq ++ s ++ dq.

Fixpoint drop (n : nat) (s : string) : string :=
  match n, s with
  | O, _ => s
  | S _, EmptyString => EmptyString
  | S k, String _ s' => drop k s'
  end.

Fixpoint take (n : nat) (s : string) : string :=
  match n, s with
  | O, _ => EmptyString
  | S _, EmptyString => EmptyString
  | S k, String c s' => String c (take k s')
  end.

(** [f.Write(data)] on a file opened at offset 0 without [O_TRUNC] and
    without [O_APPEND]: the bytes under [data] are replaced, the file
    grows if [data] is longer, and what lies beyond [data] stays. *)
Definition writeAt0 (old data : string) : string :=
  data ++ drop (String.length data) old.

(** The file system as [saveJobsToFile] meets it. *)
Record FileSystem := mkFS {
  statFails     : bool;           (* os.Stat(dir) returns an error *)
  mkdirAllFails : bool;
  openFails     : bool;
  writeLimit    : option nat;     (* bytes accepted before a write error *)
  file          : option string   (* the content at jobsFilePath, if any *)
}.

Inductive SaveError :=
| CouldNotCreateDirectory
| CouldNotOpenFile
| CouldNotEncode.

(** [saveJobsToFile]: the content of the file afterwards, and the error
    returned.  [os.OpenFile(path, O_RDWR|O_CREATE, 0600)] creates an
    empty file when there is none and opens an existing one as it is. *)
Definition saveJobsToFile (quote : string -> string) (fs : FileSystem)
           (jobGroups : list JobCategoryGroup)
  : option string * option SaveError :=
  if statFails fs && mkdirAllFails fs then
    (file fs, Some CouldNotCreateDirectory)
  else if openFails fs then
    (file fs, Some CouldNotOpenFile)
  else
    let old := match file fs with
               | Some content => content
               | None => EmptyString
               end in
    let data := encode quote jobGroups in
    match writeLimit fs with
    | None => (Some (writeAt0 old data), None)
    | Some n =>
        if (String.length data <=? n)%nat
        then (Some (writeAt0 old data), None)
        else (Some (writeAt0 old (take n data)), Some CouldNotEncode)
    end.

End Flat.

(* ===================================================================== *)
(** ** The relational sink: [saveJobsToSQLite]                            *)
(* ===================================================================== *)

Module SQLite.

(** *** Rows of the five tables (lines 332-361) *)

Record JobRow := mkJobRow {
  job_id      : string;     (* TEXT PRIMARY KEY *)
  company     : string;
  description : string;
  title       : string
}.

Record CategoryRow := mkCategoryRow {
  category_id   : Z;        (* INTEGER PRIMARY KEY AUTOINCREMENT *)
  category_name : string    (* TEXT NOT NULL UNIQUE *)
}.

Record JobCategoryRow := mkJobCategoryRow {
  jc_job_id      : string;  (* PRIMARY KEY (job_id, category_id) *)
  jc_category_id : Z
}.

Record SearchRow := mkSearchRow {
  search_id   : Z;          (* INTEGER PRIMARY KEY AUTOINCREMENT *)
  search_term : string      (* TEXT NOT NULL UNIQUE *)
}.

Record SearchJobRow := mkSearchJobRow {
  sj_search_id : Z;         (* PRIMARY KEY (search_id, job_id) *)
  sj_job_id    : string;
  first_seen   : string;
  last_seen    : string
}.

(** The row contents of the database file.  The two counters are the
    rows of [sqlite_sequence] that AUTOINCREMENT keeps. *)
Record Store := mkStore {
  jobs            : list JobRow;
  categories      : list CategoryRow;
  jobs_categories : list JobCategoryRow;
  searches        : list SearchRow;
  searches_jobs   : list SearchJobRow;
  seq_categories  : Z;
  seq_searches    : Z
}.

Definition emptyStore : Store := mkStore [] [] [] [] [] 0 0.

(** *** The engine outside the program's control *)

(** Which calls fail, and whether an upsert that meets a conflict still
    consumes a rowid (SQLite allows either). *)
Record Engine := mkEngine {
  open_fails   : bool;
  pragma_fails : bool;
  create_fails : nat -> bool;   (* the i-th CREATE TABLE *)
  begin_fails  : bool;
  stmt_fails   : nat -> bool;   (* the k-th statement of the transaction *)
  commit_fails : bool;
  burns_rowid  : bool
}.

Inductive SaveError :=
| CouldNotOpen
| CouldNotEnableForeignKeys
| CouldNotCreateTable
| CouldNotBegin
| CouldNotInsertCategory (name : string)
| CouldNotInsertSearchTerm (term : string)
| CouldNotInsertJob (jid : string)
| CouldNotInsertJobCategory (jid : string) (categoryID : Z)
| CouldNotInsertSearchJob (searchID : Z) (jid : string)
| CouldNotCommit.

(** *** The five statements, on row contents *)

Definition maxId (ids : list Z) : Z := fold_right Z.max 0%Z ids.

(** The rowid AUTOINCREMENT picks: above every rowid in use and above
    the recorded sequence.  Rowids are taken unbounded (SQLite gives up
    with SQLITE_FULL once 2^63-1 has been used). *)
Definition nextRowid (seq : Z) (ids : list Z) : Z :=
  (Z.max seq (maxId ids) + 1)%Z.

Definition hasJob (jid : string) (s : Store) : bool :=
  existsb (fun r => String.eqb (job_id r) jid) (jobs s).
Definition hasCategoryId (cid : Z) (s : Store) : bool :=
  existsb (fun r => (category_id r =? cid)%Z) (categories s).
Definition hasSearchId (sid : Z) (s : Store) : bool :=
  existsb (fun r => (search_id r =? sid)%Z) (searches s).

Definition jcKey (jid : string) (cid : Z) (r : JobCategoryRow) : bool :=
  String.eqb (jc_job_id r) jid && (jc_category_id r =? cid)%Z.
Definition sjKey (sid : Z) (jid : string) (r : SearchJobRow) : bool :=
  (sj_search_id r =? sid)%Z && String.eqb (sj_job_id r) jid.

(** [INSERT INTO categories (category_name) VALUES (?)
     ON CONFLICT(category_name) DO UPDATE SET category_name=category_name
     RETURNING category_id] *)
Definition upsertCategory (burn : bool) (name : string) (s : Store)
  : option (Z * Store) :=
  let fresh := nextRowid (seq_categories s)
                         (map category_id (categories s)) in
  match find (fun r => String.eqb (category_name r) name) (categories s) with
  | Some r =>
      Some (category_id r,
            mkStore (jobs s) (categories s) (jobs_categories s)
                    (searches s) (searches_jobs s)
                    (if burn then fresh else seq_categories s)
                    (seq_searches s))
  | None =>
      Some (fresh,
            mkStore (jobs s) (categories s ++ [mkCategoryRow fresh name])
                    (jobs_categories s) (searches s) (searches_jobs s)
                    fresh (seq_searches s))
  end.

(** [INSERT INTO searches (search_term) VALUES (?)
     ON CONFLICT(search_term) DO UPDATE SET search_term=search_term
     RETURNING search_id] *)
Definition upsertSearch (burn : bool) (term : string) (s : Store)
  : option (Z * Store) :=
  let fresh := nextRowid (seq_searches s) (map search_id (searches s)) in
  match find (fun r => String.eqb (search_term r) term) (searches s) with
  | Some r =>
      Some (search_id r,
            mkStore (jobs s) (categories s) (jobs_categories s)
                    (searches s) (searches_jobs s) (seq_categories s)
                    (if burn then fresh else seq_searches s))
  | None =>
      Some (fresh,
            mkStore (jobs s) (categories s) (jobs_categories s)
                    (searches s ++ [mkSearchRow fresh term])
                    (searches_jobs s) (seq_categories s) fresh)
  end.

(** [INSERT OR IGNORE INTO jobs (job_id, company, description, title)
     VALUES (?, ?, ?, ?)] *)
Definition insertJob (job : JobPosting) (s : Store)
  : option (unit * Store) :=
  if hasJob (JobID_ job) s then Some (tt, s)
  else Some (tt,
             mkStore (jobs s ++ [mkJobRow (JobID_ job) (Company job)
                                          (Description job) (Title job)])
                     (categories s) (jobs_categories s) (searches s)
                     (searches_jobs s) (seq_categories s) (seq_searches s)).

(** [INSERT OR IGNORE INTO jobs_categories (job_id, category_id)
     VALUES (?, ?)].  A row that is really inserted must satisfy the two
     foreign keys; [None] is the constraint failure. *)
Definition insertJobCategory (jid : string) (categoryID : Z) (s : Store)
  : option (unit * Store) :=
  if existsb (jcKey jid categoryID) (jobs_categories s) then Some (tt, s)
  else if hasJob jid s && hasCategoryId categoryID s then
    Some (tt,
          mkStore (jobs s) (categories s)
                  (jobs_categories s ++ [mkJobCategoryRow jid categoryID])
                  (searches s) (searches_jobs s)
                  (seq_categories s) (seq_searches s))
  else None.

(** [INSERT INTO searches_jobs (search_id, job_id, first_seen, last_seen)
     VALUES (?, ?, ?, ?)
     ON CONFLICT(search_id, job_id) DO UPDATE SET last_seen = ?] with
    the three timestamps bound to the same value. *)
Definition upsertSearchJob (searchID : Z) (jid : string)
           (timestamp : string) (s : Store) : option (unit * Store) :=
  if existsb (sjKey searchID jid) (searches_jobs s) then
    Some (tt,
          mkStore (jobs s) (categories s) (jobs_categories s) (searches s)
                  (map (fun r =>
                          if sjKey searchID jid r
                          then mkSearchJobRow (sj_search_id r) (sj_job_id r)
                                              (first_seen r) timestamp
                          else r)
                       (searches_jobs s))
                  (seq_categories s) (seq_searches s))
  else if hasSearchId searchID s && hasJob jid s then
    Some (tt,
          mkStore (jobs s) (categories s) (jobs_categories s) (searches s)
                  (searches_jobs s ++
                     [mkSearchJobRow searchID jid timestamp timestamp])
                  (seq_categories s) (seq_searches s))
  else None.

(** *** The transaction *)

(** The rows as the open transaction sees them, and the number of
    statements it has run. *)
Record TxState := mkTxState {
  working  : Store;
  executed : nat
}.

Definition Tx (A : Type) : Type := TxState -> SaveError + (A * TxState).

Definition ret {A} (a : A) : Tx A := fun st => inr (a, st).

Definition bind {A B} (m : Tx A) (k : A -> Tx B) : Tx B :=
  fun st => match m st with
            | inl e => inl e
            | inr (a, st') => k a st'
            end.

Declare Scope tx_scope.
Delimit Scope tx_scope with tx.
Notation "x <- m ;; k" := (bind m (fun x => k))
  (at level 100, m at next level, right associativity) : tx_scope.
Notation "m ;;; k" := (bind m (fun _ => k))
  (at level 100, right associativity) : tx_scope.

(** [tx.Exec] / [tx.QueryRow(...).Scan]: the statement fails when the
    engine says so or when a constraint is violated; [err] is the error
    the caller wraps it in before returning. *)
Definition exec {A} (eng : Engine) (err : SaveError)
           (statement : Store -> option (A * Store)) : Tx A :=
  fun st =>
    if stmt_fails eng (executed st) then inl err
    else match statement (working st) with
         | None => inl err
         | Some (a, s') => inr (a, mkTxState s' (S (executed st)))
         end.

Section Loops.

Variable eng : Engine.
Variable timestamp : string.

(** Lines 403-430. *)
Fixpoint saveJobs (categoryID searchID : Z) (jobList : list JobPosting)
  : Tx unit :=
  match jobList with
  | [] => ret tt
  | job :: rest =>
      (exec eng (CouldNotInsertJob (JobID_ job)) (insertJob job) ;;;
       exec eng (CouldNotInsertJobCategory (JobID_ job) categoryID)
            (insertJobCategory (JobID_ job) categoryID) ;;;
       exec eng (CouldNotInsertSearchJob searchID (JobID_ job))
            (upsertSearchJob searchID (JobID_ job) timestamp) ;;;
       saveJobs categoryID searchID rest)%tx
  end.

(** Lines 392-431. *)
Fixpoint saveSearches (categoryID : Z) (groups : list SearchGroup)
  : Tx unit :=
  match groups with
  | [] => ret tt
  | searchGroup :: rest =>
      (searchID <- exec eng (CouldNotInsertSearchTerm
                               (SearchTerm searchGroup))
                        (upsertSearch (burns_rowid eng)
                                      (SearchTerm searchGroup)) ;;
       saveJobs categoryID searchID (Jobs searchGroup) ;;;
       saveSearches categoryID rest)%tx
  end.

(** Lines 381-432. *)
Fixpoint saveGroups (jobGroups : list JobCategoryGroup) : Tx unit :=
  match jobGroups with
  | [] => ret tt
  | jobGroup :: rest =>
      (categoryID <- exec eng (CouldNotInsertCategory (Category jobGroup))
                          (upsertCategory (burns_rowid eng)
                                          (Category jobGroup)) ;;
       saveSearches categoryID (Searches jobGroup) ;;;
       saveGroups rest)%tx
  end.

End Loops.

(** [saveJobsToSQLite]: the rows of the database file once [db.Close()]
    has run, and the error returned.  [timestamp] is
    [time.Now().Format(time.RFC3339)].  The statements before [db.Begin]
    change no row; after it, every return path runs the deferred
    [tx.Rollback()], which discards the working rows unless [tx.Commit()]
    has succeeded. *)
Definition saveJobsToSQLite (eng : Engine) (db : Store)
           (jobGroups : list JobCategoryGroup) (timestamp : string)
  : Store * option SaveError :=
  if open_fails eng then (db, Some CouldNotOpen)
  else if pragma_fails eng then (db, Some CouldNotEnableForeignKeys)
  else if existsb (create_fails eng) (seq 0 5)
  then (db, Some CouldNotCreateTable)
  else if begin_fails eng then (db, Some CouldNotBegin)
  else match saveGroups eng timestamp jobGroups (mkTxState db 0) with
       | inl e => (db, Some e)
       | inr (_, st) =>
           if commit_fails eng then (db, Some CouldNotCommit)
           else (working st, None)
       end.

(** *** Reading the tables *)

Definition countJobs (jid : string) (s : Store) : nat :=
  List.length (filter (fun r => String.eqb (job_id r) jid) (jobs s)).

Definition countSearchJobs (sid : Z) (jid : string) (s : Store) : nat :=
  List.length (filter (sjKey sid jid) (searches_jobs s)).

(** The number of statements a fault-free transaction runs. *)
Definition statementsOfSearch (g : SearchGroup) : nat :=
  1 + 3 * List.length (Jobs g).
Definition statementsOfGroup (g : JobCategoryGroup) : nat :=
  1 + list_sum (map statementsOfSearch (Searches g)).
Definition statementCount (jobGroups : list JobCategoryGroup) : nat :=
  list_sum (map statementsOfGroup jobGroups).

(** An engine on which nothing fails. *)
Definition healthy (eng : Engine) : Prop :=
  open_fails eng = false /\ pragma_fails eng = false /\
  (forall i, create_fails eng i = false) /\ begin_fails eng = false /\
  (forall k, stmt_fails eng k = false) /\ commit_fails eng = false.

Definition reliable (burn : bool) : Engine :=
  mkEngine false false (fun _ => false) false (fun _ => false) false burn.

(** The primary keys and UNIQUE columns of the schema, as they hold of
    the rows of any database it governs. *)
Record WellFormed (s : Store) : Prop := mkWF {
  wf_jobs_key   : NoDup (map job_id (jobs s));
  wf_cat_key    : NoDup (map category_id (categories s));
  wf_cat_name   : NoDup (map category_name (categories s));
  wf_jc_key     : NoDup (map (fun r => (jc_job_id r, jc_category_id r))
                             (jobs_categories s));
  wf_search_key : NoDup (map search_id (searches s));
  wf_search_name: NoDup (map search_term (searches s));
  wf_sj_key     : NoDup (map (fun r => (sj_search_id r, sj_job_id r))
                             (searches_jobs s))
}.

End SQLite.

(* ===================================================================== *)
(** ** The description analyzer: [createBatches], [processBatch], [main]  *)
(* ===================================================================== *)

Module Analyzer.

Definition MAX_TOKENS_PER_REQUEST : Z := 15000.
Definition TOKEN_TO_CHAR_RATIO : Z := 4.
Definition SYSTEM_OVERHEAD_TOKENS : Z := 2500.

(** [type JobInput struct] *)
Record JobInput := mkJobInput {
  InputJobID       : string;   (* JobID       `json:"job_id"` *)
  InputDescription : string    (* Description `json:"description"` *)
}.

(** [type JobAnalysis struct] *)
Record JobAnalysis := mkJobAnalysis {
  AnalysisJobID        : string;
  Seniority            : string;
  MandatorySkills      : list string;
  NiceToHaveSkills     : list string;
  MandatoryExperience  : list string;
  NiceToHaveExperience : list string;
  OnsiteHybridRemote   : string
}.

(** [len(s)] of a Go string, as an [int]. *)
Definition len (s : string) : Z := Z.of_nat (String.length s).

(** The limit [createBatches] computes before its loop. *)
Definition maxInputChars : Z :=
  let maxInputTokens := (MAX_TOKENS_PER_REQUEST - SYSTEM_OVERHEAD_TOKENS)%Z in
  let maxInputChars := (maxInputTokens * TOKEN_TO_CHAR_RATIO)%Z in
  if (maxInputChars <=? 0)%Z then 4000%Z else maxInputChars.

(** The [for _, job := range jobs] loop of [createBatches] and the final
    append, over the three variables [batches], [currentBatch] and
    [currentBatchCharCount]. *)
Fixpoint batchLoop (maxInputChars : Z) (jobs : list JobInput)
         (batches : list (list JobInput)) (currentBatch : list JobInput)
         (currentBatchCharCount : Z) : list (list JobInput) :=
  match jobs with
  | [] =>
      if (0 <? List.length currentBatch)%nat
      then batches ++ [currentBatch]
      else batches
  | job :: rest =>
      let jobCharCount := len (InputDescription job) in
      let '(batches, currentBatch, currentBatchCharCount) :=
        if (GoInt.add currentBatchCharCount jobCharCount >? maxInputChars)%Z
           && (0 <? List.length currentBatch)%nat
        then (batches ++ [currentBatch], [], 0%Z)
        else (batches, currentBatch, currentBatchCharCount) in
      batchLoop maxInputChars rest batches (currentBatch ++ [job])
                (GoInt.add currentBatchCharCount jobCharCount)
  end.

(** [createBatches] for a given limit. *)
Definition createBatchesWith (limit : Z) (jobs : list JobInput)
  : list (list JobInput) :=
  batchLoop limit jobs [] [] 0%Z.

(** [createBatches] *)
Definition createBatches (jobs : list JobInput) : list (list JobInput) :=
  createBatchesWith maxInputChars jobs.

(** *** The prompt *)

Definition promptHeader : string :=
  "Analyze the following job descriptions and provide the analysis for ALL of them. The jobs are separated by '---JOBBREAK---'."
  ++ Flat.lf ++ Flat.lf.

Definition jobBreak : string :=
  Flat.lf ++ "---JOBBREAK---" ++ Flat.lf ++ Flat.lf.

(** [fmt.Sprintf("JobID: %s\nDescription:\n%s\n", job.JobID, job.Description)] *)
Definition jobBlock (job : JobInput) : string :=
  "JobID: " ++ InputJobID job ++ Flat.lf ++ "Description:" ++ Flat.lf
  ++ InputDescription job ++ Flat.lf.

(** The [for i, job := range batchJobs] loop; [n] is [len(batchJobs)]. *)
Fixpoint writeJobs (i n : Z) (batchJobs : list JobInput) : string :=
  match batchJobs with
  | [] => EmptyString
  | job :: rest =>
      jobBlock job
      ++ (if (i <? n - 1)%Z then jobBreak else EmptyString)
      ++ writeJobs (i + 1) n rest
  end.

Definition prompt (batchJobs : list JobInput) : string :=
  promptHeader ++ writeJobs 0 (Z.of_nat (List.length batchJobs)) batchJobs.

(** *** The call and its retries *)

(** What [processBatch] reads of a response: whether it has a candidate
    with content and parts, and what [json.Unmarshal] makes of its text
    ([None] when it fails). *)
Record Response := mkResponse {
  hasContent : bool;
  parsed     : option (list JobAnalysis)
}.

(** What [client.Models.GenerateContent] returns. *)
Inductive CallResult :=
| CallError
| CallOk (resp : Response).

(** The service: [api n p] answers the [n]-th call of the program, made
    with prompt [p]. *)
Definition Api : Type := nat -> string -> CallResult.

Definition maxRetries : nat := 3.

(** What one [processBatch] leaves behind besides its result: the number
    of calls made so far by the program and the seconds slept. *)
Record Effects := mkEffects {
  calls  : nat;
  sleeps : list Z
}.

(** The [for attempt := 0; attempt < maxRetries; attempt++] loop; [left]
    is [maxRetries - attempt].  [None] is [lastErr != nil] at its end. *)
Fixpoint attempts (api : Api) (thePrompt : string) (attempt : Z) (left : nat)
         (e : Effects) : option Response * Effects :=
  match left with
  | O => (None, e)
  | S left' =>
      match api (calls e) thePrompt with
      | CallOk resp => (Some resp, mkEffects (S (calls e)) (sleeps e))
      | CallError =>
          attempts api thePrompt (attempt + 1) left'
                   (mkEffects (S (calls e))
                              (sleeps e ++ [Z.shiftl 1 attempt]))
      end
  end.

Inductive BatchError :=
| ApiCallFailed          (* gemini API call failed after 3 attempts *)
| NoCandidates           (* no candidates or content in response *)
| UnmarshalFailed.       (* failed to unmarshal model's JSON output *)

(** [processBatch] *)
Definition processBatch (api : Api) (batchJobs : list JobInput) (e : Effects)
  : (list JobAnalysis + BatchError) * Effects :=
  let '(resp, e) := attempts api (prompt batchJobs) 0 maxRetries e in
  match resp with
  | None => (inr ApiCallFailed, e)
  | Some r =>
      if negb (hasContent r) then (inr NoCandidates, e)
      else match parsed r with
           | None => (inr UnmarshalFailed, e)
           | Some batchAnalysis => (inl batchAnalysis, e)
           end
  end.

(** The [for i, batch := range batches] loop of [main]: a failed batch is
    logged and skipped. *)
Fixpoint processBatches (api : Api) (batches : list (list JobInput))
         (finalResults : list JobAnalysis) (e : Effects)
  : list JobAnalysis * Effects :=
  match batches with
  | [] => (finalResults, e)
  | batch :: rest =>
      let '(result, e) := processBatch api batch e in
      match result with
      | inr _ => processBatches api rest finalResults e
      | inl batchResults =>
          processBatches api rest (finalResults ++ batchResults) e
      end
  end.

(** [main] from the batching on: the analyses it prints. *)
Definition analyze (api : Api) (jobs : list JobInput)
  : list JobAnalysis * Effects :=
  processBatches api (createBatches jobs) [] (mkEffects 0 []).

End Analyzer.

(* ===================================================================== *)
(** ** The first, sequential driver ([scraper.go], third part)            *)
(* ===================================================================== *)

Module Sequential.

(** [type JobPosting struct] of that version: no identifier. *)
Record JobPosting := mkJobPosting {
  Company     : string;
  Description : string;
  Title       : string
}.

(** [jobPostings]: a [*JobPosting] and an [error]; the pointer is nil
    exactly when the error is not. *)
Definition jobPostings (world : FanOut.DetailResult)
  : option JobPosting * option FanOut.FetchError :=
  match world with
  | FanOut.DetailNewRequestError => (None, Some FanOut.ErrCreatingRequest)
  | FanOut.DetailDoError => (None, Some FanOut.ErrMakingRequest)
  | FanOut.DetailResponse status body =>
      if negb (status =? Listing.StatusOK)%Z
      then (None, Some (FanOut.ErrNotOK status))
      else match body with
           | None => (None, Some FanOut.ErrDecoding)
           | Some content =>
               (Some (mkJobPosting (FanOut.Name content) (FanOut.Text content)
                                   (FanOut.Title_ content)),
                None)
           end
  end.

(** The lines [main] writes. *)
Inductive Line :=
| Fetching (jid : JobID)
| CouldNotGet (jid : JobID) (err : FanOut.FetchError)
| Summary (company title : string) (jid : JobID).

Inductive Ending :=
| Finished
| NilPointerDereference.

(** The [for jid := range listings] loop of [main]: after an error is
    logged the loop body goes on and reads [job.Company]. *)
Fixpoint mainLoop (listings : list (JobID * FanOut.DetailResult))
         (out : list Line) : Ending * list Line :=
  match listings with
  | [] => (Finished, out)
  | (jid, world) :: rest =>
      let out := out ++ [Fetching jid] in
      let '(job, err) := jobPostings world in
      let out := match err with
                 | Some e => out ++ [CouldNotGet jid e]
                 | None => out
                 end in
      match job with
      | None => (NilPointerDereference, out)
      | Some j => mainLoop rest (out ++ [Summary (Company j) (Title j) jid])
      end
  end.

End Sequential.

(* ===================================================================== *)
(** ** Page sequences                                                     *)
(* ===================================================================== *)

(** The identifiers of a page that has a first query. *)
Definition pageUrns (p : Listing.jobListingsResponse) : list string :=
  match Listing.firstQueryUrns p with
  | Some urns => urns
  | None => []
  end.

(** All identifiers of a page sequence, in page order. *)
Definition allUrns (pages : list Listing.jobListingsResponse) : list string :=
  List.concat (map pageUrns pages).

(** The offset at which the [n]-th page is requested. *)
Definition offsetOf (pages : list Listing.jobListingsResponse) (n : nat) : Z :=
  Z.of_nat (List.length (allUrns (firstn n pages))).

(** A LinkedIn job posting card URN for the identifier [id]. *)
Definition jobPostingCard (id : string) : string :=
  "urn:li:fsd_jobPostingCard:(" ++ id ++ ",JOB_DETAILS)".

Definition isDigit (c : ascii) : bool :=
  (48 <=? nat_of_ascii c)%nat && (nat_of_ascii c <=? 57)%nat.

Fixpoint allDigits (s : string) : bool :=
  match s with
  | EmptyString => true
  | String c s' => isDigit c && allDigits s'
  end.

(* ===================================================================== *)
(** ** Relations between stores, used in the statements                  *)
(* ===================================================================== *)

(** [Evolves ts s s']: [s'] can be reached from [s] by statements of a run
    stamped [ts].  Rows of the first four tables are only ever added;
    a row of [searches_jobs] keeps its key and its [first_seen], and its
    [last_seen] either stays or becomes [ts]; a row whose key is new has
    both stamps equal to [ts]. *)
Record Evolves (ts : string) (s s' : SQLite.Store) : Prop := mkEvolves {
  ev_wf : SQLite.WellFormed s';
  ev_jobs : incl (SQLite.jobs s) (SQLite.jobs s');
  ev_categories : incl (SQLite.categories s) (SQLite.categories s');
  ev_jobs_categories :
    incl (SQLite.jobs_categories s) (SQLite.jobs_categories s');
  ev_searches : incl (SQLite.searches s) (SQLite.searches s');
  ev_kept : forall r, In r (SQLite.searches_jobs s) ->
      exists ls,
        In (SQLite.mkSearchJobRow (SQLite.sj_search_id r) (SQLite.sj_job_id r)
                                  (SQLite.first_seen r) ls)
           (SQLite.searches_jobs s') /\
        (ls = SQLite.last_seen r \/ ls = ts);
  ev_new : forall r', In r' (SQLite.searches_jobs s') ->
      (exists r, In r (SQLite.searches_jobs s) /\
                 (SQLite.sj_search_id r, SQLite.sj_job_id r)
                 = (SQLite.sj_search_id r', SQLite.sj_job_id r')) \/
      (SQLite.first_seen r' = ts /\ SQLite.last_seen r' = ts)
}.

Arguments ev_wf {ts s s'}.
Arguments ev_jobs {ts s s'}.
Arguments ev_categories {ts s s'}.
Arguments ev_jobs_categories {ts s s'}.
Arguments ev_searches {ts s s'}.
Arguments ev_kept {ts s s'}.
Arguments ev_new {ts s s'}.

(** The row [INSERT OR IGNORE INTO jobs] binds for a posting (lines
    405-408). *)
Definition jobRow (j : JobPosting) : SQLite.JobRow :=
  SQLite.mkJobRow (JobID_ j) (Company j) (Description j) (Title j).

(** Every posting of the tree, in the order [saveJobsToSQLite] meets them. *)
Definition postings (jobGroups : list JobCategoryGroup) : list JobPosting :=
  flat_map (fun g => flat_map Jobs (Searches g)) jobGroups.

(** [Covered ts jobGroups s]: for every posting of every search group,
    [s] holds a job row for its identifier, a row for the search term, and
    the association of the two with [last_seen = ts]. *)
Definition Covered (ts : string) (jobGroups : list JobCategoryGroup)
           (s : SQLite.Store) : Prop :=
  forall g sg j,
    In g jobGroups -> In sg (Searches g) -> In j (Jobs sg) ->
    SQLite.hasJob (JobID_ j) s = true /\
    exists sid fs,
      In (SQLite.mkSearchRow sid (SearchTerm sg)) (SQLite.searches s) /\
      In (SQLite.mkSearchJobRow sid (JobID_ j) fs ts) (SQLite.searches_jobs s).

(** The statements from [lo] up to [hi] all went through. *)
Definition clean (eng : SQLite.Engine) (lo hi : nat) : Prop :=
  forall k, (lo <= k < hi)%nat -> SQLite.stmt_fails eng k = false.

(** Goals about tables a statement leaves alone. *)
Ltac same_tables :=
  repeat match goal with
         | |- _ /\ _ => split
         | |- incl ?l ?l => apply incl_refl
         | |- incl ?l (?l ++ _) => apply incl_appl, incl_refl
         | |- _ = _ => reflexivity
         end.

(* ===================================================================== *)
(** ** Measures and inputs for the further properties                     *)
(* ===================================================================== *)

(** The characters a batch carries, as [createBatches] counts them. *)
Definition chars (batch : list Analyzer.JobInput) : Z :=
  fold_right (fun job acc =>
                (Analyzer.len (Analyzer.InputDescription job) + acc)%Z)
             0%Z batch.

(** A batch respects the limit, or is a single job. *)
Definition withinBudget (limit : Z) (b : list Analyzer.JobInput) : Prop :=
  (chars b <= limit)%Z \/ exists job, b = [job].

(** [b2] starts with a job that did not fit after [b1]. *)
Definition overflows (limit : Z) (b1 b2 : list Analyzer.JobInput) : Prop :=
  exists job rest,
    b2 = job :: rest /\
    (chars b1 + Analyzer.len (Analyzer.InputDescription job) > limit)%Z.

(** Every batch but the last is followed by one that [overflows] it. *)
Fixpoint chained (limit : Z) (batches : list (list Analyzer.JobInput))
  : Prop :=
  match batches with
  | b1 :: ((b2 :: _) as later) => overflows limit b1 b2 /\ chained limit later
  | _ => True
  end.

(** What [processBatch] makes of a response it has received. *)
Definition answer (r : Analyzer.Response)
  : list Analyzer.JobAnalysis + Analyzer.BatchError :=
  if negb (Analyzer.hasContent r) then inr Analyzer.NoCandidates
  else match Analyzer.parsed r with
       | None => inr Analyzer.UnmarshalFailed
       | Some batchAnalysis => inl batchAnalysis
       end.

(** [Follows up search n start requests]: [requests] is a sequence of page
    requests as [jobListings] chains them from request number [n] and
    offset [start]: each asks for 100 results of [search], and after a
    page that decoded and left the count below its total the next request
    starts where that page ended. *)
Inductive Follows (up : Listing.Upstream) (search : string)
  : nat -> Z -> list Listing.Request -> Prop :=
| Follows_none n start : Follows up search n start []
| Follows_last n start :
    Follows up search n start [Listing.mkRequest search start 100]
| Follows_more n start content urns rest :
    Listing.Do up n (Listing.mkRequest search start 100)
    = Listing.Response Listing.StatusOK (Some content) ->
    Listing.firstQueryUrns content = Some urns ->
    (GoInt.add start (Z.of_nat (List.length urns)) < Listing.Total content)%Z ->
    Follows up search (S n)
            (GoInt.add start (Z.of_nat (List.length urns))) rest ->
    Follows up search n start (Listing.mkRequest search start 100 :: rest).

(** The engine [eng] with every statement of the transaction going
    through. *)
Definition quiet (eng : SQLite.Engine) : SQLite.Engine :=
  SQLite.mkEngine (SQLite.open_fails eng) (SQLite.pragma_fails eng)
                  (SQLite.create_fails eng) (SQLite.begin_fails eng)
                  (fun _ => false) (SQLite.commit_fails eng)
                  (SQLite.burns_rowid eng).

(** The seconds a run has slept between attempts. *)
Definition secondsSlept (e : Analyzer.Effects) : Z :=
  fold_right Z.add 0%Z (Analyzer.sleeps e).

(** The content at the output path, empty when there is no file. *)
Definition contentOf (f : option string) : string :=
  match f with
  | Some content => content
  | None => EmptyString
  end.

(** [SettledJobs cid sid jobList s]: [s] holds a row under every key the
    three statements of [saveJobs] write for [jobList]. *)
Definition SettledJobs (cid sid : Z) (jobList : list JobPosting)
           (s : SQLite.Store) : Prop :=
  forall j, In j jobList ->
    SQLite.hasJob (JobID_ j) s = true /\
    existsb (SQLite.jcKey (JobID_ j) cid) (SQLite.jobs_categories s) = true /\
    existsb (SQLite.sjKey sid (JobID_ j)) (SQLite.searches_jobs s) = true.

Definition SettledSearches (cid : Z) (groups : list SearchGroup)
           (s : SQLite.Store) : Prop :=
  forall sg, In sg groups ->
    exists sid,
      In (SQLite.mkSearchRow sid (SearchTerm sg)) (SQLite.searches s) /\
      SettledJobs cid sid (Jobs sg) s.

(** [Settled jobGroups s]: [s] holds a row under every key
    [saveJobsToSQLite] writes for [jobGroups]. *)
Definition Settled (jobGroups : list JobCategoryGroup) (s : SQLite.Store)
  : Prop :=
  forall g, In g jobGroups ->
    exists cid,
      In (SQLite.mkCategoryRow cid (Category g)) (SQLite.categories s) /\
      SettledSearches cid (Searches g) s.

(** [Restamps ts scope r r']: [r'] is the association [r] with the same
    key and [first_seen]; its [last_seen] is that of [r], or [ts] when the
    key is in [scope]. *)
Definition Restamps (ts : string) (scope : Z -> string -> Prop)
           (r r' : SQLite.SearchJobRow) : Prop :=
  SQLite.sj_search_id r' = SQLite.sj_search_id r /\
  SQLite.sj_job_id r' = SQLite.sj_job_id r /\
  SQLite.first_seen r' = SQLite.first_seen r /\
  (SQLite.last_seen r' = SQLite.last_seen r \/
   (SQLite.last_seen r' = ts /\
    scope (SQLite.sj_search_id r) (SQLite.sj_job_id r))).

(** [Retouched ts scope s s']: [s'] has the rows of [s], in the same
    order, but for the [last_seen] of associations in [scope]. *)
Record Retouched (ts : string) (scope : Z -> string -> Prop)
       (s s' : SQLite.Store) : Prop := mkRetouched {
  rt_jobs : SQLite.jobs s' = SQLite.jobs s;
  rt_categories : SQLite.categories s' = SQLite.categories s;
  rt_jobs_categories : SQLite.jobs_categories s' = SQLite.jobs_categories s;
  rt_searches : SQLite.searches s' = SQLite.searches s;
  rt_searches_jobs :
    Forall2 (Restamps ts scope) (SQLite.searches_jobs s)
            (SQLite.searches_jobs s')
}.

Arguments rt_jobs {ts scope s s'}.
Arguments rt_categories {ts scope s s'}.
Arguments rt_jobs_categories {ts scope s s'}.
Arguments rt_searches {ts scope s s'}.
Arguments rt_searches_jobs {ts scope s s'}.

(** [Sought jobGroups searches sid jid]: some search group of the tree
    has the term that [searches] files under [sid], and lists [jid]. *)
Definition Sought (jobGroups : list JobCategoryGroup)
           (searches : list SQLite.SearchRow) (sid : Z) (jid : string)
  : Prop :=
  exists g sg j,
    In g jobGroups /\ In sg (Searches g) /\ In j (Jobs sg) /\
    In (SQLite.mkSearchRow sid (SearchTerm sg)) searches /\
    JobID_ j = jid.

Module Samples.

Definition job (id description : string) : Analyzer.JobInput :=
  Analyzer.mkJobInput id description.

(** Five descriptions of 4, 4, 12, 3 and 3 characters. *)
Definition fiveJobs : list Analyzer.JobInput :=
  [ job "1" "aaaa"; job "2" "bbbb"; job "3" "cccccccccccc";
    job "4" "ddd"; job "5" "eee" ].

(** An analysis that only names its job. *)
Definition bare (j : Analyzer.JobInput) : Analyzer.JobAnalysis :=
  Analyzer.mkJobAnalysis (Analyzer.InputJobID j) "" [] [] [] [] "".

(** A service that answers the [n]-th call with the bare analyses of the
    [n]-th batch. *)
Definition obliging (batches : list (list Analyzer.JobInput)) : Analyzer.Api :=
  fun n _ =>
    match nth_error batches n with
    | Some b => Analyzer.CallOk (Analyzer.mkResponse true (Some (map bare b)))
    | None => Analyzer.CallError
    end.

(** A service that fails twice and then answers with nothing to parse. *)
Definition thirdTimeLucky : Analyzer.Api :=
  fun n _ =>
    match n with
    | 2%nat => Analyzer.CallOk (Analyzer.mkResponse true None)
    | _ => Analyzer.CallError
    end.

(** A tree that describes job Z anew, under another company and title. *)
Definition rewritten : list JobCategoryGroup :=
  [ mkJobCategoryGroup "Data Science"
      [ mkSearchGroup "data scientist"
          [ mkJobPosting "Z" "Omega" "rewritten" "Zookeeper" ] ] ].

End Samples.

(* ===================================================================== *)
(** ** Scenarios used as inputs                                           *)
(* ===================================================================== *)

Module Scenario.

Import Listing.

(** An upstream that answers the [n]-th request with the [n]-th page of
    a script, whatever the offset asked for, and fails once the script is
    over. *)
Definition scripted (pages : list jobListingsResponse) : Upstream :=
  mkUpstream (fun _ => true)
             (fun n _ => match nth_error pages n with
                         | Some p => Response StatusOK (Some p)
                         | None => DoError
                         end).

Definition page (urns : list string) (total : Z) : jobListingsResponse :=
  mkResponse [urns] total 0 100.


(** Four identifiers over three pages; the second page reports a total
    of 3, the others 4. *)
Definition shrinkingTotal : list jobListingsResponse :=
  [ page ["urn:li:fsd_jobPostingCard:(1,JOB_DETAILS)";
          "urn:li:fsd_jobPostingCard:(2,JOB_DETAILS)"] 4;
    page ["urn:li:fsd_jobPostingCard:(3,JOB_DETAILS)"] 3;
    page ["urn:li:fsd_jobPostingCard:(4,JOB_DETAILS)"] 4 ].

(** Three identifiers over two pages, all reporting 3. *)
Definition steadyTotal : list jobListingsResponse :=
  [ page ["urn:li:fsd_jobPostingCard:(1,JOB_DETAILS)";
          "urn:li:fsd_jobPostingCard:(2,JOB_DETAILS)"] 3;
    page ["urn:li:fsd_jobPostingCard:(3,JOB_DETAILS)"] 3 ].

(** One page of one identifier out of two, then the transport fails. *)
Definition cutShort : Upstream :=
  scripted [ page ["urn:li:fsd_jobPostingCard:(1,JOB_DETAILS)"] 2 ].

(** One page of one identifier out of one. *)
Definition complete : Upstream :=
  scripted [ page ["urn:li:fsd_jobPostingCard:(1,JOB_DETAILS)"] 1 ].

(** A decoded page without any [jobCardPrefetchQueries] entry. *)
Definition noQueries : Upstream :=
  scripted [ mkResponse [] 0 0 100 ].

(** Three postings and the tree of the end-to-end example: two search
    terms of one category finding {A, B} and {B, C}. *)
Definition postingA : JobPosting := mkJobPosting "A" "Acme" "about A" "Analyst".
Definition postingB : JobPosting := mkJobPosting "B" "Bolt" "about B" "Builder".
Definition postingC : JobPosting := mkJobPosting "C" "Core" "about C" "Chemist".

Definition overlapping : list JobCategoryGroup :=
  [ mkJobCategoryGroup "Data Science"
      [ mkSearchGroup "data scientist" [postingA; postingB];
        mkSearchGroup "data science" [postingB; postingC] ] ].

(** An engine on which only the [n]-th statement of the transaction
    fails. *)
Definition failingAt (n : nat) : SQLite.Engine :=
  SQLite.mkEngine false false (fun _ => false) false (Nat.eqb n) false false.

(** A store that already holds one job, found by one search. *)
Definition seeded : SQLite.Store :=
  SQLite.mkStore [SQLite.mkJobRow "Z" "Zeta" "about Z" "Zoologist"]
                 [SQLite.mkCategoryRow 1 "Data Science"]
                 [SQLite.mkJobCategoryRow "Z" 1]
                 [SQLite.mkSearchRow 1 "data scientist"]
                 [SQLite.mkSearchJobRow 1 "Z" "2025-01-01T00:00:00Z"
                                        "2025-01-01T00:00:00Z"]
                 1 1.

(** The tasks of one search: the fetch of B fails with status 429, the
    fetches of A and C succeed; C finishes first. *)
Definition detailOf (p : JobPosting) : FanOut.DetailResult :=
  FanOut.DetailResponse 200
    (Some (FanOut.mkDetail (Company p) (Description p) (Title p))).

Definition oneFailure : list FanOut.Task :=
  [ ("C", detailOf postingC);
    ("B", FanOut.DetailResponse 429 None);
    ("A", detailOf postingA) ].

(** The tree of a run that found one posting, and the tree of a later run
    that found none. *)
Definition busyTree : list JobCategoryGroup :=
  [ mkJobCategoryGroup "Data Science"
      [ mkSearchGroup "data scientist" [postingA] ];
    mkJobCategoryGroup "Security" [] ].

Definition quietTree : list JobCategoryGroup :=
  FanOut.initJobGroups getJobCategories.

(** A file system on which every call succeeds and the file at the output
    path holds [previous]. *)
Definition diskWith (previous : option string) : Flat.FileSystem :=
  Flat.mkFS false false false None previous.

End Scenario.

(* ===================================================================== *)
(** ** Facts about Go's [int]                                             *)
(* ===================================================================== *)

Lemma wrap_in_range z : GoInt.in_range z -> GoInt.wrap z = z.
Proof.
  unfold GoInt.in_range, GoInt.wrap, GoInt.min_int, GoInt.max_int. intros H.
  rewrite Z.mod_small by lia. lia.
Qed.

Lemma add_exact a b : GoInt.in_range (a + b) -> GoInt.add a b = (a + b)%Z.
Proof. apply wrap_in_range. Qed.


Lemma append_empty_r s : (s ++ EmptyString)%string = s.
Proof. induction s as [|c s IH]; cbn; [reflexivity | now rewrite IH]. Qed.

(** *** The identifier inside a URN *)

Lemma digit_is_not c (d : ascii) :
  isDigit c = true ->
  (nat_of_ascii d < 48 \/ 57 < nat_of_ascii d)%nat ->
  Ascii.eqb d c = false.
Proof.
  intros Hc Hd. apply Ascii.eqb_neq. intros ->.
  unfold isDigit in Hc. apply andb_true_iff in Hc as [H1 H2].
  apply Nat.leb_le in H1, H2. lia.
Qed.

Lemma keep_digits (old' tail : string) (d : ascii) :
  (nat_of_ascii d < 48 \/ 57 < nat_of_ascii d)%nat ->
  forall id,
    allDigits id = true ->
    Strings.removeAllFrom (String d old') 0 (id ++ tail)
    = (id ++ Strings.removeAllFrom (String d old') 0 tail)%string.
Proof.
  intros Hd. induction id as [|c id IH]; intros Hid; [reflexivity|].
  cbn in Hid. apply andb_true_iff in Hid as [Hc Hid].
  cbn [String.append Strings.removeAllFrom Strings.HasPrefix].
  rewrite (digit_is_not c d Hc Hd). cbn [andb]. now rewrite IH.
Qed.

(** On the URN of a numeric identifier, [stripUrn] gives the identifier. *)
Lemma stripUrn_jobPostingCard id :
  allDigits id = true -> Listing.stripUrn (jobPostingCard id) = id.
Proof.
  intros Hid. unfold Listing.stripUrn, jobPostingCard, Strings.RemoveAll.
  set (suffix := ",JOB_DETAILS)").
  assert (H1 : Strings.removeAllFrom "urn:li:fsd_jobPostingCard:(" 0
                 ("urn:li:fsd_jobPostingCard:(" ++ id ++ suffix)
               = (id ++ suffix)%string).
  { change (Strings.removeAllFrom "urn:li:fsd_jobPostingCard:(" 0
              (id ++ suffix) = (id ++ suffix)%string).
    rewrite keep_digits by (auto; cbn; lia). reflexivity. }
  rewrite H1. unfold suffix. rewrite keep_digits by (auto; cbn; lia).
  cbn. apply append_empty_r.
Qed.

Example stripUrn_sample :
  Listing.stripUrn (jobPostingCard "4277900147") = "4277900147".
Proof. reflexivity. Qed.

(* ===================================================================== *)
(** ** The paginator                                                      *)
(* ===================================================================== *)

Section ListingFacts.

Import Listing.

Variable up : Upstream.
Variable search : string.

(** The first steps of an iteration, up to the decoded content. *)
Lemma loop_decoded fuel n start t content :
  NewRequestOk up (mkRequest search start 100) = true ->
  Do up n (mkRequest search start 100) = Response StatusOK (Some content) ->
  loop up search (S fuel) n start t =
  match firstQueryUrns content with
  | None => Some (PanicIndexOutOfRange, issue (mkRequest search start 100) t)
  | Some urns =>
      let t' := send (map stripUrn urns)
                     (issue (mkRequest search start 100) t) in
      let start' := GoInt.add start (Z.of_nat (List.length urns)) in
      if (start' >=? Total content)%Z then Some (Returned, t')
      else loop up search fuel (S n) start' t'
  end.
Proof.
  intros Hnew Hdo. cbn [loop].
  rewrite Hnew, Hdo. cbn. reflexivity.
Qed.


(** A run that has not panicked so far and meets only pages with a
    first query never panics. *)
Lemma loop_never_panics :
  (forall n req content,
      Do up n req = Response StatusOK (Some content) ->
      JobCardPrefetchQueries content <> []) ->
  forall fuel n start t r,
    loop up search fuel n start t = Some r -> fst r = Returned.
Proof.
  intros Hq. induction fuel as [|fuel IH]; intros n start t r; cbn [loop].
  - discriminate.
  - destruct (NewRequestOk up _); cbn [negb].
    2:{ intros [= <-]. reflexivity. }
    destruct (Do up n _) as [|status [content|]] eqn:Hdo.
    + intros [= <-]. reflexivity.
    + destruct (status =? StatusOK)%Z eqn:Hs; cbn [negb].
      2:{ intros [= <-]. reflexivity. }
      apply Z.eqb_eq in Hs. subst status.
      apply Hq in Hdo. unfold firstQueryUrns.
      destruct (JobCardPrefetchQueries content) as [|urns qs]; [easy|].
      cbn [nth_error].
      destruct (_ >=? _)%Z.
      * intros [= <-]. reflexivity.
      * apply IH.
    + destruct (status =? StatusOK)%Z; cbn [negb];
        intros [= <-]; reflexivity.
Qed.

End ListingFacts.


(** *** C9: the unguarded index *)

(** C9.  The extraction of a page's identifiers reads
    [JobCardPrefetchQueries[0]] without a bounds guard.  On a decoded page
    with at least one entry it is defined and yields the first entry; on a
    decoded page with none it is out of range, and an iteration of
    [jobListings] that decodes such a page panics there, after issuing the
    request and before sending anything.  Conversely, if every page the
    upstream can deliver carries an entry, no run of [jobListings] panics. *)
Theorem C9_first_query_index_unguarded :
  (forall content,
      Listing.JobCardPrefetchQueries content <> [] ->
      exists urns rest,
        Listing.JobCardPrefetchQueries content = urns :: rest /\
        Listing.firstQueryUrns content = Some urns) /\
  (forall content,
      Listing.JobCardPrefetchQueries content = [] ->
      Listing.firstQueryUrns content = None) /\
  (forall up search fuel n start t content,
      Listing.NewRequestOk up (Listing.mkRequest search start 100) = true ->
      Listing.Do up n (Listing.mkRequest search start 100)
        = Listing.Response Listing.StatusOK (Some content) ->
      Listing.JobCardPrefetchQueries content = [] ->
      Listing.loop up search (S fuel) n start t
        = Some (Listing.PanicIndexOutOfRange,
                Listing.issue (Listing.mkRequest search start 100) t)) /\
  (forall up search,
      (forall n req content,
          Listing.Do up n req
            = Listing.Response Listing.StatusOK (Some content) ->
          Listing.JobCardPrefetchQueries content <> []) ->
      forall fuel r,
        Listing.jobListings up search fuel = Some r ->
        fst r = Listing.Returned).
Proof.
  repeat split.
  - intros content Hne. unfold Listing.firstQueryUrns.
    destruct (Listing.JobCardPrefetchQueries content) as [|urns rest];
      [contradiction|].
    exists urns, rest. split; reflexivity.
  - intros content Hnil. unfold Listing.firstQueryUrns. now rewrite Hnil.
  - intros up search fuel n start t content Hnew Hdo Hnil.
    rewrite (loop_decoded _ _ fuel _ _ t _ Hnew Hdo).
    unfold Listing.firstQueryUrns. now rewrite Hnil.
  - intros up search Hq fuel r Hrun.
    exact (loop_never_panics up search Hq _ _ _ _ _ Hrun).
Qed.

Lemma C9_first_query_index_unguarded_witness :
  Listing.jobListings Scenario.noQueries "data scientist" 1
  = Some (Listing.PanicIndexOutOfRange,
          Listing.issue (Listing.mkRequest "data scientist" 0 100)
                        Listing.emptyTrace).
Proof.
  exact (proj1 (proj2 (proj2 C9_first_query_index_unguarded))
               Scenario.noQueries "data scientist" 0%nat 0%nat 0%Z
               Listing.emptyTrace (Listing.mkResponse [] 0 0 100)
               eq_refl eq_refl eq_refl).
Defined.

(** *** C5: a failed page request *)

(** C5 (as amended).  When a page request meets a transport error, a
    status other than 200 or a body that does not decode, that iteration
    of [jobListings] writes the error to the log and returns: the line
    logged is "error making jobListings request" for a transport error,
    "error jobListings response was not OK" with the status for a status
    other than 200, and "error decoding jobListings response" for a body
    that does not decode.  Nothing more is sent, no further request is
    issued, the request is not repeated.  The caller is handed the
    identifiers sent so far and the end of the channel, and no error
    value. *)
Theorem C5_failed_request_ends_sequence :
  forall up search fuel n start t e,
    let req := Listing.mkRequest search start 100 in
    Listing.NewRequestOk up req = true ->
    (Listing.Do up n req = Listing.DoError /\
     e = Listing.ErrMakingRequest) \/
    (exists status body,
        Listing.Do up n req = Listing.Response status body /\
        status <> Listing.StatusOK /\
        e = Listing.ErrNotOK status) \/
    (Listing.Do up n req = Listing.Response Listing.StatusOK None /\
     e = Listing.ErrDecoding) ->
    exists t',
      Listing.loop up search (S fuel) n start t = Some (Listing.Returned, t') /\
      Listing.sent t' = Listing.sent t /\
      Listing.requested t' = Listing.requested t ++ [req] /\
      Listing.logged t' = Listing.logged t ++ [e] /\
      Listing.received (Listing.Returned, t') = Listing.sent t.
Proof.
  intros up search fuel n start t e req Hnew Hfail.
  cbn [Listing.loop]. fold req. rewrite Hnew. cbn [negb].
  destruct Hfail as [[Hdo ->] | [(status & body & Hdo & Hs & ->) | [Hdo ->]]];
    rewrite Hdo.
  - eexists. repeat split.
  - apply Z.eqb_neq in Hs. rewrite Hs. cbn [negb].
    eexists. repeat split.
  - cbn. eexists. repeat split.
Qed.

Lemma C5_failed_request_ends_sequence_witness :
  exists t',
    Listing.loop Scenario.cutShort "data scientist" 1 1 1%Z
                 (Listing.mkTrace ["1"] [] [])
      = Some (Listing.Returned, t') /\
    Listing.sent t' = ["1"] /\
    Listing.requested t' = [Listing.mkRequest "data scientist" 1 100] /\
    Listing.logged t' = [Listing.ErrMakingRequest] /\
    Listing.received (Listing.Returned, t') = ["1"].
Proof.
  exact (C5_failed_request_ends_sequence Scenario.cutShort "data scientist"
           0%nat 1%nat 1%Z (Listing.mkTrace ["1"] [] [])
           Listing.ErrMakingRequest
           eq_refl (or_introl (conj eq_refl eq_refl))).
Defined.

(** C5 fails as stated: the error does not reach the caller.  A run cut
    short by a transport error and a run that completes deliver exactly
    the same to the reader of the channel; only the log differs. *)
Lemma C5_error_not_reported_to_caller :
  exists failed completed,
    Listing.jobListings Scenario.cutShort "data scientist" 5 = Some failed /\
    Listing.jobListings Scenario.complete "data scientist" 5 = Some completed /\
    Listing.logged (snd failed) = [Listing.ErrMakingRequest] /\
    Listing.logged (snd completed) = [] /\
    fst failed = fst completed /\
    Listing.received failed = Listing.received completed.
Proof.
  do 2 eexists. repeat split; reflexivity.
Qed.

(** *** C1: pages that stop arriving *)




(** *** C4: pages that add up to the reported total *)

Lemma allUrns_app a b : allUrns (a ++ b) = allUrns a ++ allUrns b.
Proof. unfold allUrns. now rewrite map_app, concat_app. Qed.

Lemma allUrns_cons p l : allUrns (p :: l) = pageUrns p ++ allUrns l.
Proof. reflexivity. Qed.

Section Pages.

Variable up : Listing.Upstream.
Variable search : string.
Variable T : Z.

Hypothesis T_in_range : GoInt.in_range T.
Hypothesis new_request_ok :
  forall start, Listing.NewRequestOk up (Listing.mkRequest search start 100)
                = true.

(** The loop, entered after the pages [seen], runs through the pages
    [rest] when each reports the total [T] and all together hold [T]
    identifiers. *)
Lemma loop_through_pages :
  forall rest seen t fuel,
    (forall p, In p rest ->
               Listing.JobCardPrefetchQueries p <> [] /\ Listing.Total p = T) ->
    (forall k p, nth_error rest k = Some p ->
                 Listing.Do up (List.length seen + k)
                   (Listing.mkRequest search
                      (Z.of_nat (List.length (allUrns (seen ++ firstn k rest))))
                      100)
                 = Listing.Response Listing.StatusOK (Some p)) ->
    Z.of_nat (List.length (allUrns (seen ++ rest))) = T ->
    rest <> [] ->
    (List.length rest <= fuel)%nat ->
    exists t',
      Listing.loop up search fuel (List.length seen)
                   (Z.of_nat (List.length (allUrns seen))) t
        = Some (Listing.Returned, t') /\
      Listing.sent t' = Listing.sent t ++ map Listing.stripUrn (allUrns rest) /\
      Listing.logged t' = Listing.logged t.
Proof.
  induction rest as [|p rest IH]; intros seen t fuel Hpages Hdo Hsum Hne Hfuel;
    [contradiction|].
  destruct fuel as [|fuel]; [cbn in Hfuel; lia|].
  assert (Hp := Hpages p (or_introl eq_refl)). destruct Hp as [Hq HT].
  pose proof (Hdo 0%nat p eq_refl) as Hdo0.
  cbn [firstn] in Hdo0. rewrite app_nil_r, Nat.add_0_r in Hdo0.
  rewrite (loop_decoded _ _ fuel _ _ t _ (new_request_ok _) Hdo0).
  unfold Listing.firstQueryUrns.
  destruct (Listing.JobCardPrefetchQueries p) as [|urns qs] eqn:Eq;
    [contradiction|].
  cbn [nth_error]. cbn zeta.
  assert (Hpu : pageUrns p = urns).
  { unfold pageUrns, Listing.firstQueryUrns. now rewrite Eq. }
  rewrite allUrns_app, allUrns_cons, Hpu in Hsum.
  rewrite !length_app in Hsum.
  assert (Hlen : List.length (allUrns (seen ++ [p]))
                 = (List.length (allUrns seen) + List.length urns)%nat).
  { rewrite allUrns_app, allUrns_cons, Hpu. unfold allUrns at 2. cbn.
    now rewrite app_nil_r, length_app. }
  assert (Hadd : GoInt.add (Z.of_nat (List.length (allUrns seen)))
                           (Z.of_nat (List.length urns))
                 = Z.of_nat (List.length (allUrns (seen ++ [p])))).
  { rewrite add_exact.
    - rewrite Hlen. lia.
    - unfold GoInt.in_range, GoInt.min_int, GoInt.max_int in *. lia. }
  rewrite Hadd, HT.
  destruct (Z.of_nat (List.length (allUrns (seen ++ [p]))) >=? T)%Z eqn:Hdone.
  - (* the total is reached: what remains holds no identifier *)
    eexists. split; [reflexivity|]. cbn [Listing.send Listing.issue
      Listing.sent Listing.logged]. split; [|reflexivity].
    rewrite allUrns_cons, Hpu.
    assert (Hrest : allUrns rest = []).
    { apply length_zero_iff_nil. rewrite Hlen in Hdone.
      apply Z.geb_le in Hdone. lia. }
    rewrite Hrest, app_nil_r. reflexivity.
  - (* more pages are needed, so more pages there are *)
    assert (Hne' : rest <> []).
    { intros ->. rewrite Hlen, Z.geb_leb, Z.leb_gt in Hdone.
      unfold allUrns at 2 in Hsum. cbn in Hsum. lia. }
    replace (S (List.length seen)) with (List.length (seen ++ [p]))
      by (rewrite length_app; cbn; lia).
    destruct (IH (seen ++ [p])
                 (Listing.send (map Listing.stripUrn urns)
                    (Listing.issue
                       (Listing.mkRequest search
                          (Z.of_nat (List.length (allUrns seen))) 100) t))
                 fuel) as (t' & Hrun & Hsent & Hlog).
    + intros q Hin. apply Hpages. now right.
    + intros k q Hk. rewrite length_app. cbn [List.length].
      replace (List.length seen + 1 + k)%nat with (List.length seen + S k)%nat
        by lia.
      rewrite <- app_assoc. cbn [app].
      exact (Hdo (S k) q Hk).
    + rewrite <- app_assoc. cbn [app].
      rewrite allUrns_app, allUrns_cons, Hpu, !length_app. exact Hsum.
    + exact Hne'.
    + cbn in Hfuel. lia.
    + exists t'. split; [exact Hrun|]. split; [|exact Hlog].
      rewrite Hsent. cbn [Listing.send Listing.issue Listing.sent].
      rewrite allUrns_cons, Hpu, map_app, app_assoc. reflexivity.
Qed.

End Pages.

(** C4 (as amended).  For every sequence of upstream pages, each with a
    first query and each reporting the same total, whose identifier counts
    add up to that total, [jobListings] returns after at most as many
    requests as there are pages, having sent exactly the identifiers of the
    pages (each with the URN wrapper removed), in page order and in the
    order within each page, one for each upstream entry, and having logged
    no error. *)
Theorem C4_pages_summing_to_total :
  forall up search pages T,
    GoInt.in_range T ->
    pages <> [] ->
    (forall p, In p pages ->
               Listing.JobCardPrefetchQueries p <> [] /\ Listing.Total p = T) ->
    Z.of_nat (List.length (allUrns pages)) = T ->
    (forall start,
        Listing.NewRequestOk up (Listing.mkRequest search start 100) = true) ->
    (forall n p, nth_error pages n = Some p ->
                 Listing.Do up n (Listing.mkRequest search (offsetOf pages n) 100)
                 = Listing.Response Listing.StatusOK (Some p)) ->
    forall fuel, (List.length pages <= fuel)%nat ->
    exists t,
      Listing.jobListings up search fuel = Some (Listing.Returned, t) /\
      Listing.sent t = map Listing.stripUrn (allUrns pages) /\
      Z.of_nat (List.length (Listing.sent t)) = T /\
      Listing.logged t = [].
Proof.
  intros up search pages T HT Hne Hpages Hsum Hnew Hdo fuel Hfuel.
  destruct (loop_through_pages up search T HT Hnew pages [] Listing.emptyTrace
              fuel Hpages) as (t & Hrun & Hsent & Hlog); auto.
  exists t. split; [exact Hrun|]. cbn in Hsent, Hlog.
  repeat split; auto. rewrite Hsent, length_map. exact Hsum.
Qed.

Lemma C4_pages_summing_to_total_witness :
  exists t,
    Listing.jobListings (Scenario.scripted Scenario.steadyTotal)
                        "data scientist" 2
      = Some (Listing.Returned, t) /\
    Listing.sent t = map Listing.stripUrn (allUrns Scenario.steadyTotal) /\
    Z.of_nat (List.length (Listing.sent t)) = 3%Z /\
    Listing.logged t = [].
Proof.
  apply (C4_pages_summing_to_total (Scenario.scripted Scenario.steadyTotal)
           "data scientist" Scenario.steadyTotal 3).
  - unfold GoInt.in_range, GoInt.min_int, GoInt.max_int. lia.
  - discriminate.
  - intros p [<- | [<- | []]]; split; (discriminate || reflexivity).
  - reflexivity.
  - reflexivity.
  - intros [|[|[|n]]] p H; cbn in H; try discriminate; injection H as <-;
      reflexivity.
  - cbn. lia.
Defined.

(** C4 fails as stated: the loop compares the running count with the total
    of the page it has just read, not with the first page's.  Here the
    pages hold four identifiers, as the first page reports, and the run
    ends after the second page with three. *)
Lemma C4_later_total_ends_the_run :
  Z.of_nat (List.length (allUrns Scenario.shrinkingTotal)) = 4%Z /\
  hd_error (map Listing.Total Scenario.shrinkingTotal) = Some 4%Z /\
  exists t,
    Listing.jobListings (Scenario.scripted Scenario.shrinkingTotal)
                        "data scientist" 10
      = Some (Listing.Returned, t) /\
    Listing.sent t = ["1"; "2"; "3"] /\
    Listing.logged t = [].
Proof.
  split; [reflexivity|]. split; [reflexivity|].
  eexists. repeat split; reflexivity.
Qed.

(* ===================================================================== *)
(** ** The relational sink: tables as lists of rows                       *)
(* ===================================================================== *)

Section Rows.

Context {A B : Type}.

Lemma NoDup_map_snoc (f : A -> B) (l : list A) (x : A) :
  NoDup (map f l) -> ~ In (f x) (map f l) -> NoDup (map f (l ++ [x])).
Proof.
  intros Hnd Hfresh. rewrite map_app. cbn.
  apply NoDup_app; [exact Hnd | repeat constructor; intros [] | ].
  intros b Hb [<- | []]. contradiction.
Qed.

(** Two rows of a table with the same key are the same row. *)
Lemma NoDup_map_injective (f : A -> B) (l : list A) (x y : A) :
  NoDup (map f l) -> In x l -> In y l -> f x = f y -> x = y.
Proof.
  induction l as [|a l IH]; cbn; [easy|].
  intros Hnd [-> | Hx] [-> | Hy] Hxy; inversion Hnd as [|? ? Hnot Hnd']; subst.
  - reflexivity.
  - exfalso. apply Hnot. rewrite Hxy. now apply in_map.
  - exfalso. apply Hnot. rewrite <- Hxy. now apply in_map.
  - now apply IH.
Qed.

(** A key that occurs, in a table with unique keys, selects one row. *)
Lemma NoDup_count_one (f : A -> B) (p : A -> bool) (l : list A) (x : A) :
  NoDup (map f l) -> In x l -> p x = true ->
  (forall y, In y l -> p y = true -> f y = f x) ->
  List.length (filter p l) = 1%nat.
Proof.
  intros Hnd Hx Hpx Hkey.
  assert (Hall : forall y, In y (filter p l) -> y = x).
  { intros y Hy. apply filter_In in Hy as [Hy Hpy].
    eapply NoDup_map_injective; eauto. }
  assert (Hin : In x (filter p l)) by (apply filter_In; auto).
  assert (Hndf : NoDup (filter p l)).
  { apply NoDup_filter. eapply NoDup_map_inv; eauto. }
  destruct (filter p l) as [|a [|b rest]]; cbn in *.
  - contradiction.
  - reflexivity.
  - exfalso. inversion Hndf as [|? ? Hnot _]; subst. apply Hnot.
    assert (Ha : a = x) by (apply Hall; auto).
    assert (Hb : b = x) by (apply Hall; auto).
    subst a b. now left.
Qed.

End Rows.

Lemma maxId_bound ids i : In i ids -> (i <= SQLite.maxId ids)%Z.
Proof.
  unfold SQLite.maxId.
  induction ids as [|a ids IH]; cbn [fold_right In]; [easy|].
  intros [-> | Hin]; [lia | specialize (IH Hin); lia].
Qed.

Lemma nextRowid_fresh seq ids : ~ In (SQLite.nextRowid seq ids) ids.
Proof.
  intros Hin. apply maxId_bound in Hin. unfold SQLite.nextRowid in Hin. lia.
Qed.

Lemma hasJob_In jid s :
  SQLite.hasJob jid s = true <-> In jid (map SQLite.job_id (SQLite.jobs s)).
Proof.
  unfold SQLite.hasJob. rewrite existsb_exists, in_map_iff. split.
  - intros (r & Hin & Heq). apply String.eqb_eq in Heq. eauto.
  - intros (r & Heq & Hin). exists r. split; [auto|]. now apply String.eqb_eq.
Qed.

Lemma hasCategoryId_In cid s :
  SQLite.hasCategoryId cid s = true <->
  In cid (map SQLite.category_id (SQLite.categories s)).
Proof.
  unfold SQLite.hasCategoryId. rewrite existsb_exists, in_map_iff. split.
  - intros (r & Hin & Heq). apply Z.eqb_eq in Heq. eauto.
  - intros (r & Heq & Hin). exists r. split; [auto|]. now apply Z.eqb_eq.
Qed.

Lemma hasSearchId_In sid s :
  SQLite.hasSearchId sid s = true <->
  In sid (map SQLite.search_id (SQLite.searches s)).
Proof.
  unfold SQLite.hasSearchId. rewrite existsb_exists, in_map_iff. split.
  - intros (r & Hin & Heq). apply Z.eqb_eq in Heq. eauto.
  - intros (r & Heq & Hin). exists r. split; [auto|]. now apply Z.eqb_eq.
Qed.

Lemma sjKey_spec sid jid r :
  SQLite.sjKey sid jid r = true <->
  (SQLite.sj_search_id r, SQLite.sj_job_id r) = (sid, jid).
Proof.
  unfold SQLite.sjKey. rewrite andb_true_iff, Z.eqb_eq, String.eqb_eq.
  split; [intros [-> ->]; reflexivity | intros [= -> ->]; auto].
Qed.

Lemma jcKey_spec jid cid r :
  SQLite.jcKey jid cid r = true <->
  (SQLite.jc_job_id r, SQLite.jc_category_id r) = (jid, cid).
Proof.
  unfold SQLite.jcKey. rewrite andb_true_iff, Z.eqb_eq, String.eqb_eq.
  split; [intros [-> ->]; reflexivity | intros [= -> ->]; auto].
Qed.

Lemma existsb_false_not_in {A B} (f : A -> B) (p : A -> bool) (k : B)
      (l : list A) :
  (forall r, f r = k -> p r = true) ->
  existsb p l = false -> ~ In k (map f l).
Proof.
  intros Hp Hex Hin. apply in_map_iff in Hin as (r & Hr & Hin).
  assert (existsb p l = true) by (apply existsb_exists; eauto).
  congruence.
Qed.

(** *** How one run may change the rows *)

Lemma Evolves_refl ts s : SQLite.WellFormed s -> Evolves ts s s.
Proof.
  intros Hwf. constructor; auto using incl_refl.
  - intros [sid jid fs ls] Hin. exists ls. cbn. auto.
  - intros r' Hin. left. eauto.
Qed.

Lemma Evolves_trans ts s1 s2 s3 :
  Evolves ts s1 s2 -> Evolves ts s2 s3 -> Evolves ts s1 s3.
Proof.
  intros H12 H23. constructor.
  - apply H23.
  - eapply incl_tran; [apply H12 | apply H23].
  - eapply incl_tran; [apply H12 | apply H23].
  - eapply incl_tran; [apply H12 | apply H23].
  - eapply incl_tran; [apply H12 | apply H23].
  - intros r Hr.
    destruct (ev_kept H12 r Hr) as (ls2 & Hin2 & Hls2).
    destruct (ev_kept H23 _ Hin2) as (ls3 & Hin3 & Hls3). cbn in Hin3, Hls3.
    exists ls3. split; [exact Hin3|]. destruct Hls3 as [-> | ->]; auto.
  - intros r3 Hr3.
    destruct (ev_new H23 r3 Hr3) as [(r2 & Hr2 & Hkey2) | Hfresh]; [|auto].
    destruct (ev_new H12 r2 Hr2) as [(r1 & Hr1 & Hkey1) | [Hfs Hls]].
    + left. exists r1. split; [exact Hr1 | congruence].
    + right.
      destruct (ev_kept H23 r2 Hr2) as (ls & Hin & Hcase).
      assert (Heq : SQLite.mkSearchJobRow (SQLite.sj_search_id r2)
                      (SQLite.sj_job_id r2) (SQLite.first_seen r2) ls = r3).
      { eapply (NoDup_map_injective
                  (fun r => (SQLite.sj_search_id r, SQLite.sj_job_id r)));
          [apply (SQLite.wf_sj_key _ (ev_wf H23)) | exact Hin | exact Hr3 |].
        cbn. exact Hkey2. }
      subst r3. cbn. split; [exact Hfs|].
      destruct Hcase as [-> | ->]; auto.
Qed.

(** *** The five statements *)

Lemma kept_same_rows ts (l : list SQLite.SearchJobRow) :
  forall r, In r l ->
    exists ls,
      In (SQLite.mkSearchJobRow (SQLite.sj_search_id r) (SQLite.sj_job_id r)
                                (SQLite.first_seen r) ls) l /\
      (ls = SQLite.last_seen r \/ ls = ts).
Proof. intros [sid jid fs ls] Hin. exists ls. cbn. auto. Qed.

Lemma insertJob_spec ts job s :
  SQLite.WellFormed s ->
  exists s',
    SQLite.insertJob job s = Some (tt, s') /\
    Evolves ts s s' /\
    SQLite.hasJob (JobID_ job) s' = true /\
    (forall r, In r (SQLite.jobs s') ->
               In r (SQLite.jobs s) \/ SQLite.job_id r = JobID_ job).
Proof.
  intros Hwf. unfold SQLite.insertJob.
  destruct (SQLite.hasJob (JobID_ job) s) eqn:Hhas.
  - exists s. split; [reflexivity|]. split; [now apply Evolves_refl|].
    split; [assumption | auto].
  - eexists. split; [reflexivity|]. split; [|split].
    + destruct Hwf. constructor; cbn; same_tables; auto.
      * constructor; cbn; auto.
        apply NoDup_map_snoc; [assumption|]. cbn.
        intros Hin. apply hasJob_In in Hin. congruence.
      * apply kept_same_rows.
      * intros r' Hr'. left. eauto.
    + apply hasJob_In. cbn. rewrite map_app. apply in_or_app. right. now left.
    + cbn. intros r Hr. apply in_app_or in Hr as [Hr | [<- | []]]; auto.
Qed.

Lemma upsertCategory_spec ts burn name s :
  SQLite.WellFormed s ->
  exists cid s',
    SQLite.upsertCategory burn name s = Some (cid, s') /\
    Evolves ts s s' /\
    In (SQLite.mkCategoryRow cid name) (SQLite.categories s') /\
    SQLite.jobs s' = SQLite.jobs s /\
    SQLite.jobs_categories s' = SQLite.jobs_categories s /\
    SQLite.searches s' = SQLite.searches s /\
    SQLite.searches_jobs s' = SQLite.searches_jobs s /\
    SQLite.seq_searches s' = SQLite.seq_searches s.
Proof.
  intros Hwf. unfold SQLite.upsertCategory.
  destruct (find _ (SQLite.categories s)) as [[cid name']|] eqn:Hfind.
  - apply find_some in Hfind as [Hin Heq]. cbn in Heq.
    apply String.eqb_eq in Heq. subst name'.
    do 2 eexists. split; [reflexivity|]. split; [|cbn; same_tables; auto].
    destruct Hwf. constructor; cbn; same_tables; auto.
    + constructor; cbn; auto.
    + apply kept_same_rows.
    + intros r' Hr'. left. eauto.
  - do 2 eexists. split; [reflexivity|]. split; [|cbn; same_tables].
    + destruct Hwf. constructor; cbn; same_tables; auto.
      * constructor; cbn; auto.
        -- apply NoDup_map_snoc; [assumption|]. cbn. apply nextRowid_fresh.
        -- apply NoDup_map_snoc; [assumption|]. cbn.
           intros Hin. apply in_map_iff in Hin as (r & Hr & Hin).
           apply (find_none _ _ Hfind) in Hin.
           rewrite Hr, String.eqb_refl in Hin. discriminate.
      * apply kept_same_rows.
      * intros r' Hr'. left. eauto.
    + apply in_or_app. right. now left.
Qed.

Lemma upsertSearch_spec ts burn term s :
  SQLite.WellFormed s ->
  exists sid s',
    SQLite.upsertSearch burn term s = Some (sid, s') /\
    Evolves ts s s' /\
    In (SQLite.mkSearchRow sid term) (SQLite.searches s') /\
    SQLite.jobs s' = SQLite.jobs s.
Proof.
  intros Hwf. unfold SQLite.upsertSearch.
  destruct (find _ (SQLite.searches s)) as [[sid term']|] eqn:Hfind.
  - apply find_some in Hfind as [Hin Heq]. cbn in Heq.
    apply String.eqb_eq in Heq. subst term'.
    do 2 eexists. split; [reflexivity|]. split; [|cbn; same_tables; auto].
    destruct Hwf. constructor; cbn; same_tables; auto.
    + constructor; cbn; auto.
    + apply kept_same_rows.
    + intros r' Hr'. left. eauto.
  - do 2 eexists. split; [reflexivity|]. split; [|cbn; same_tables].
    + destruct Hwf. constructor; cbn; same_tables; auto.
      * constructor; cbn; auto.
        -- apply NoDup_map_snoc; [assumption|]. cbn. apply nextRowid_fresh.
        -- apply NoDup_map_snoc; [assumption|]. cbn.
           intros Hin. apply in_map_iff in Hin as (r & Hr & Hin).
           apply (find_none _ _ Hfind) in Hin.
           rewrite Hr, String.eqb_refl in Hin. discriminate.
      * apply kept_same_rows.
      * intros r' Hr'. left. eauto.
    + apply in_or_app. right. now left.
Qed.

Lemma insertJobCategory_spec ts jid cid s :
  SQLite.WellFormed s ->
  SQLite.hasJob jid s = true ->
  SQLite.hasCategoryId cid s = true ->
  exists s',
    SQLite.insertJobCategory jid cid s = Some (tt, s') /\
    Evolves ts s s' /\
    SQLite.jobs s' = SQLite.jobs s.
Proof.
  intros Hwf Hjob Hcat. unfold SQLite.insertJobCategory.
  destruct (existsb _ (SQLite.jobs_categories s)) eqn:Hex.
  - exists s. split; [reflexivity|]. split; [now apply Evolves_refl|].
    reflexivity.
  - rewrite Hjob, Hcat. cbn [andb].
    eexists. split; [reflexivity|]. split; [|reflexivity].
    destruct Hwf. constructor; cbn; same_tables; auto.
    + constructor; cbn; auto.
      apply NoDup_map_snoc; [assumption|]. cbn.
      eapply existsb_false_not_in; [|exact Hex].
      intros r Hr. now apply jcKey_spec.
    + apply kept_same_rows.
    + intros r' Hr'. left. eauto.
Qed.

Lemma upsertSearchJob_spec ts sid jid s :
  SQLite.WellFormed s ->
  SQLite.hasSearchId sid s = true ->
  SQLite.hasJob jid s = true ->
  exists s',
    SQLite.upsertSearchJob sid jid ts s = Some (tt, s') /\
    Evolves ts s s' /\
    (exists fs, In (SQLite.mkSearchJobRow sid jid fs ts)
                   (SQLite.searches_jobs s')) /\
    SQLite.jobs s' = SQLite.jobs s.
Proof.
  intros Hwf Hsearch Hjob. unfold SQLite.upsertSearchJob.
  destruct (existsb _ (SQLite.searches_jobs s)) eqn:Hex.
  - eexists. split; [reflexivity|].
    set (touch := fun r : SQLite.SearchJobRow => if SQLite.sjKey sid jid r
                    then SQLite.mkSearchJobRow (SQLite.sj_search_id r)
                           (SQLite.sj_job_id r) (SQLite.first_seen r) ts
                    else r).
    assert (Hkey : forall r, (SQLite.sj_search_id (touch r),
                              SQLite.sj_job_id (touch r))
                             = (SQLite.sj_search_id r, SQLite.sj_job_id r)).
    { intros r. unfold touch. destruct (SQLite.sjKey sid jid r); reflexivity. }
    split; [|split; [|reflexivity]].
    + destruct Hwf. constructor; cbn; same_tables; auto.
      * constructor; cbn; auto.
        rewrite map_map.
        erewrite map_ext; [eassumption|]. intros r. cbn. apply Hkey.
      * intros r Hr. unfold touch.
        destruct (SQLite.sjKey sid jid r) eqn:Hk.
        -- exists ts. split; [|auto].
           apply in_map_iff. exists r. rewrite Hk. auto.
        -- exists (SQLite.last_seen r). split; [|auto].
           apply in_map_iff. exists r. rewrite Hk. destruct r; auto.
      * intros r' Hr'. apply in_map_iff in Hr' as (r & <- & Hr).
        left. exists r. split; [exact Hr|]. symmetry. apply Hkey.
    + cbn. apply existsb_exists in Hex as (r & Hr & Hk).
      exists (SQLite.first_seen r). apply in_map_iff. exists r.
      unfold touch. rewrite Hk. apply sjKey_spec in Hk.
      injection Hk as <- <-. auto.
  - rewrite Hsearch, Hjob. cbn [andb].
    eexists. split; [reflexivity|]. split; [|split; [|reflexivity]].
    + destruct Hwf. constructor; cbn; same_tables; auto.
      * constructor; cbn; auto.
        apply NoDup_map_snoc; [assumption|]. cbn.
        eapply existsb_false_not_in; [|exact Hex].
        intros r Hr. now apply sjKey_spec.
      * intros r Hr. destruct (kept_same_rows ts _ r Hr) as (ls & Hin & Hls).
        exists ls. split; [apply in_or_app; auto | exact Hls].
      * intros r' Hr'. apply in_app_or in Hr' as [Hr' | [<- | []]].
        -- left. eauto.
        -- right. cbn. auto.
    + cbn. exists ts. apply in_or_app. right. now left.
Qed.

(** *** What a run leaves behind *)

Lemma Evolves_hasJob ts s s' jid :
  Evolves ts s s' -> SQLite.hasJob jid s = true -> SQLite.hasJob jid s' = true.
Proof.
  intros He. rewrite !hasJob_In, !in_map_iff.
  intros (r & Hr & Hin). exists r. split; [exact Hr|]. now apply (ev_jobs He).
Qed.

Lemma Evolves_hasCategoryId ts s s' cid :
  Evolves ts s s' ->
  SQLite.hasCategoryId cid s = true -> SQLite.hasCategoryId cid s' = true.
Proof.
  intros He. rewrite !hasCategoryId_In, !in_map_iff.
  intros (r & Hr & Hin). exists r. split; [exact Hr|].
  now apply (ev_categories He).
Qed.

Lemma Evolves_hasSearchId ts s s' sid :
  Evolves ts s s' ->
  SQLite.hasSearchId sid s = true -> SQLite.hasSearchId sid s' = true.
Proof.
  intros He. rewrite !hasSearchId_In, !in_map_iff.
  intros (r & Hr & Hin). exists r. split; [exact Hr|].
  now apply (ev_searches He).
Qed.

(** An association stamped by this run stays stamped by this run. *)
Lemma Evolves_seen ts s s' sid jid fs :
  Evolves ts s s' ->
  In (SQLite.mkSearchJobRow sid jid fs ts) (SQLite.searches_jobs s) ->
  In (SQLite.mkSearchJobRow sid jid fs ts) (SQLite.searches_jobs s').
Proof.
  intros He Hin. destruct (ev_kept He _ Hin) as (ls & Hin' & Hls).
  cbn in Hin', Hls. now destruct Hls as [-> | ->].
Qed.

Section FaultFree.

Variable eng : SQLite.Engine.
Variable ts : string.
Hypothesis no_fault : forall k, SQLite.stmt_fails eng k = false.

Lemma exec_ok {A} err (statement : SQLite.Store -> option (A * SQLite.Store))
      s k a s' :
  statement s = Some (a, s') ->
  SQLite.exec eng err statement (SQLite.mkTxState s k)
  = inr (a, SQLite.mkTxState s' (S k)).
Proof.
  intros H. unfold SQLite.exec. cbn. now rewrite no_fault, H.
Qed.

Lemma saveJobs_spec cid sid :
  forall jobList s k,
    SQLite.WellFormed s ->
    SQLite.hasCategoryId cid s = true ->
    SQLite.hasSearchId sid s = true ->
    exists s',
      SQLite.saveJobs eng ts cid sid jobList (SQLite.mkTxState s k)
      = inr (tt, SQLite.mkTxState s' (k + 3 * List.length jobList)) /\
      Evolves ts s s' /\
      (forall j, In j jobList ->
                 SQLite.hasJob (JobID_ j) s' = true /\
                 exists fs, In (SQLite.mkSearchJobRow sid (JobID_ j) fs ts)
                               (SQLite.searches_jobs s')) /\
      (forall r, In r (SQLite.jobs s') ->
                 In r (SQLite.jobs s) \/
                 In (SQLite.job_id r) (map JobID_ jobList)).
Proof.
  induction jobList as [|job rest IH]; intros s k Hwf Hcat Hsearch.
  - exists s. cbn. rewrite Nat.add_0_r.
    split; [reflexivity|]. split; [now apply Evolves_refl|].
    split; [intros j [] | auto].
  - destruct (insertJob_spec ts job s Hwf) as (s1 & H1 & E1 & Hjob1 & Hfoot1).
    destruct (insertJobCategory_spec ts (JobID_ job) cid s1 (ev_wf E1) Hjob1
                (Evolves_hasCategoryId _ _ _ _ E1 Hcat))
      as (s2 & H2 & E2 & Hjobs2).
    pose proof (Evolves_trans _ _ _ _ E1 E2) as E12.
    destruct (upsertSearchJob_spec ts sid (JobID_ job) s2 (ev_wf E2)
                (Evolves_hasSearchId _ _ _ _ E12 Hsearch)
                (Evolves_hasJob _ _ _ _ E2 Hjob1))
      as (s3 & H3 & E3 & (fs & Hseen3) & Hjobs3).
    pose proof (Evolves_trans _ _ _ _ E12 E3) as E13.
    destruct (IH s3 (S (S (S k))) (ev_wf E3)
                 (Evolves_hasCategoryId _ _ _ _ E13 Hcat)
                 (Evolves_hasSearchId _ _ _ _ E13 Hsearch))
      as (s' & Hrun & E' & Hcov & Hfoot).
    exists s'. split; [|split; [|split]].
    + cbn [SQLite.saveJobs]. unfold SQLite.bind.
      rewrite (exec_ok _ _ _ _ _ _ H1), (exec_ok _ _ _ _ _ _ H2),
        (exec_ok _ _ _ _ _ _ H3), Hrun.
      do 3 f_equal. cbn [List.length]. lia.
    + exact (Evolves_trans _ _ _ _ E13 E').
    + intros j [<- | Hin]; [|now apply Hcov]. split.
      * apply (Evolves_hasJob _ _ _ _ E').
        apply (Evolves_hasJob _ _ _ _ E3).
        now apply (Evolves_hasJob _ _ _ _ E2).
      * exists fs. now apply (Evolves_seen _ _ _ _ _ _ E').
    + intros r Hr. destruct (Hfoot r Hr) as [Hr3 | Hrest].
      * rewrite Hjobs3, Hjobs2 in Hr3.
        destruct (Hfoot1 r Hr3) as [Hold | Hnew]; [auto|].
        right. left. now symmetry.
      * right. now right.
Qed.

Lemma saveSearches_spec cid :
  forall groups s k,
    SQLite.WellFormed s ->
    SQLite.hasCategoryId cid s = true ->
    exists s',
      SQLite.saveSearches eng ts cid groups (SQLite.mkTxState s k)
      = inr (tt, SQLite.mkTxState s'
                   (k + list_sum (map SQLite.statementsOfSearch groups))) /\
      Evolves ts s s' /\
      (forall sg j, In sg groups -> In j (Jobs sg) ->
         SQLite.hasJob (JobID_ j) s' = true /\
         exists sid fs,
           In (SQLite.mkSearchRow sid (SearchTerm sg)) (SQLite.searches s') /\
           In (SQLite.mkSearchJobRow sid (JobID_ j) fs ts)
              (SQLite.searches_jobs s')) /\
      (forall r, In r (SQLite.jobs s') ->
                 In r (SQLite.jobs s) \/
                 In (SQLite.job_id r) (map JobID_ (flat_map Jobs groups))).
Proof.
  induction groups as [|sg rest IH]; intros s k Hwf Hcat.
  - exists s. cbn. rewrite Nat.add_0_r.
    split; [reflexivity|]. split; [now apply Evolves_refl|].
    split; [intros ? ? [] | auto].
  - destruct (upsertSearch_spec ts (SQLite.burns_rowid eng) (SearchTerm sg) s
                Hwf) as (sid & s1 & H1 & E1 & Hrow1 & Hjobs1).
    assert (Hsid : SQLite.hasSearchId sid s1 = true).
    { apply hasSearchId_In, in_map_iff. eexists. split; [|exact Hrow1].
      reflexivity. }
    destruct (saveJobs_spec cid sid (Jobs sg) s1 (S k) (ev_wf E1)
                (Evolves_hasCategoryId _ _ _ _ E1 Hcat) Hsid)
      as (s2 & H2 & E2 & Hcov2 & Hfoot2).
    pose proof (Evolves_trans _ _ _ _ E1 E2) as E12.
    destruct (IH s2 (S k + 3 * List.length (Jobs sg))%nat (ev_wf E2)
                 (Evolves_hasCategoryId _ _ _ _ E12 Hcat))
      as (s' & Hrun & E' & Hcov & Hfoot).
    exists s'. split; [|split; [|split]].
    + cbn [SQLite.saveSearches]. unfold SQLite.bind.
      rewrite (exec_ok _ _ _ _ _ _ H1), H2, Hrun.
      do 3 f_equal. cbn [map]. unfold SQLite.statementsOfSearch at 2.
      unfold list_sum. cbn [fold_right]. lia.
    + exact (Evolves_trans _ _ _ _ E12 E').
    + intros sg' j [<- | Hin] Hj; [|now apply Hcov].
      destruct (Hcov2 j Hj) as (Hjob & fs & Hseen). split.
      * now apply (Evolves_hasJob _ _ _ _ E').
      * exists sid, fs. split.
        -- apply (ev_searches E'). now apply (ev_searches E2).
        -- now apply (Evolves_seen _ _ _ _ _ _ E').
    + intros r Hr. cbn [flat_map]. rewrite map_app.
      destruct (Hfoot r Hr) as [Hr2 | Hrest].
      * destruct (Hfoot2 r Hr2) as [Hold | Hnew].
        -- left. now rewrite <- Hjobs1.
        -- right. apply in_or_app. now left.
      * right. apply in_or_app. now right.
Qed.

Lemma saveGroups_spec :
  forall jobGroups s k,
    SQLite.WellFormed s ->
    exists s',
      SQLite.saveGroups eng ts jobGroups (SQLite.mkTxState s k)
      = inr (tt, SQLite.mkTxState s' (k + SQLite.statementCount jobGroups)) /\
      Evolves ts s s' /\
      Covered ts jobGroups s' /\
      (forall r, In r (SQLite.jobs s') ->
                 In r (SQLite.jobs s) \/
                 In (SQLite.job_id r) (map JobID_ (postings jobGroups))).
Proof.
  induction jobGroups as [|g rest IH]; intros s k Hwf.
  - exists s. cbn. rewrite Nat.add_0_r.
    split; [reflexivity|]. split; [now apply Evolves_refl|].
    split; [intros ? ? ? [] | auto].
  - destruct (upsertCategory_spec ts (SQLite.burns_rowid eng) (Category g) s
                Hwf) as (cid & s1 & H1 & E1 & Hrow1 & Hjobs1 & _).
    assert (Hcid : SQLite.hasCategoryId cid s1 = true).
    { apply hasCategoryId_In, in_map_iff. eexists. split; [|exact Hrow1].
      reflexivity. }
    destruct (saveSearches_spec cid (Searches g) s1 (S k) (ev_wf E1) Hcid)
      as (s2 & H2 & E2 & Hcov2 & Hfoot2).
    pose proof (Evolves_trans _ _ _ _ E1 E2) as E12.
    destruct (IH s2 (S k + list_sum (map SQLite.statementsOfSearch
                                         (Searches g)))%nat (ev_wf E2))
      as (s' & Hrun & E' & Hcov & Hfoot).
    exists s'. split; [|split; [|split]].
    + cbn [SQLite.saveGroups]. unfold SQLite.bind.
      rewrite (exec_ok _ _ _ _ _ _ H1), H2, Hrun.
      do 3 f_equal. unfold SQLite.statementCount. cbn [map].
      unfold SQLite.statementsOfGroup at 2.
      unfold list_sum. cbn [fold_right]. lia.
    + exact (Evolves_trans _ _ _ _ E12 E').
    + intros g' sg j [<- | Hin] Hsg Hj; [|now apply (Hcov g')].
      destruct (Hcov2 sg j Hsg Hj) as (Hjob & sid & fs & Hrow & Hseen). split.
      * now apply (Evolves_hasJob _ _ _ _ E').
      * exists sid, fs. split.
        -- now apply (ev_searches E').
        -- now apply (Evolves_seen _ _ _ _ _ _ E').
    + intros r Hr. unfold postings. cbn [flat_map]. rewrite map_app.
      destruct (Hfoot r Hr) as [Hr2 | Hrest].
      * destruct (Hfoot2 r Hr2) as [Hold | Hnew].
        -- left. now rewrite <- Hjobs1.
        -- right. apply in_or_app. now left.
      * right. apply in_or_app. now right.
Qed.

End FaultFree.

(** *** A run on which nothing fails *)

Lemma emptyStore_WellFormed : SQLite.WellFormed SQLite.emptyStore.
Proof. constructor; cbn; constructor. Qed.

Lemma reliable_healthy burn : SQLite.healthy (SQLite.reliable burn).
Proof. repeat split. Qed.

Lemma save_healthy eng db jobGroups ts :
  SQLite.healthy eng ->
  SQLite.WellFormed db ->
  exists db',
    SQLite.saveJobsToSQLite eng db jobGroups ts = (db', None) /\
    Evolves ts db db' /\
    Covered ts jobGroups db' /\
    (forall r, In r (SQLite.jobs db') ->
               In r (SQLite.jobs db) \/
               In (SQLite.job_id r) (map JobID_ (postings jobGroups))).
Proof.
  intros (Hopen & Hpragma & Hcreate & Hbegin & Hstmt & Hcommit) Hwf.
  destruct (saveGroups_spec eng ts Hstmt jobGroups db 0 Hwf)
    as (db' & Hrun & He & Hcov & Hfoot).
  exists db'. split; [|auto].
  unfold SQLite.saveJobsToSQLite.
  rewrite Hopen, Hpragma, Hbegin, Hrun, Hcommit.
  cbn [seq existsb]. rewrite !Hcreate. reflexivity.
Qed.

Lemma one_job_row jid s :
  SQLite.WellFormed s -> SQLite.hasJob jid s = true ->
  SQLite.countJobs jid s = 1%nat.
Proof.
  intros Hwf Hhas. apply hasJob_In, in_map_iff in Hhas as (r & Hr & Hin).
  unfold SQLite.countJobs.
  apply (NoDup_count_one SQLite.job_id _ _ r (SQLite.wf_jobs_key _ Hwf) Hin).
  - now apply String.eqb_eq.
  - intros y _ Hy. apply String.eqb_eq in Hy. congruence.
Qed.

Lemma one_search_job_row sid jid fs ls s :
  SQLite.WellFormed s ->
  In (SQLite.mkSearchJobRow sid jid fs ls) (SQLite.searches_jobs s) ->
  SQLite.countSearchJobs sid jid s = 1%nat.
Proof.
  intros Hwf Hin. unfold SQLite.countSearchJobs.
  apply (NoDup_count_one
           (fun r => (SQLite.sj_search_id r, SQLite.sj_job_id r)) _ _ _
           (SQLite.wf_sj_key _ Hwf) Hin).
  - now apply sjKey_spec.
  - intros y _ Hy. now apply sjKey_spec in Hy.
Qed.

(** In a well-formed store a search term has one identifier. *)
Lemma search_id_unique s sid sid' term :
  SQLite.WellFormed s ->
  In (SQLite.mkSearchRow sid term) (SQLite.searches s) ->
  In (SQLite.mkSearchRow sid' term) (SQLite.searches s) ->
  sid = sid'.
Proof.
  intros Hwf H1 H2.
  assert (Heq : SQLite.mkSearchRow sid term = SQLite.mkSearchRow sid' term).
  { apply (NoDup_map_injective SQLite.search_term _ _ _
             (SQLite.wf_search_name _ Hwf) H1 H2). reflexivity. }
  now injection Heq.
Qed.

(** In a well-formed store an association has one pair of stamps. *)
Lemma search_job_unique s sid jid fs ls fs' ls' :
  SQLite.WellFormed s ->
  In (SQLite.mkSearchJobRow sid jid fs ls) (SQLite.searches_jobs s) ->
  In (SQLite.mkSearchJobRow sid jid fs' ls') (SQLite.searches_jobs s) ->
  fs = fs' /\ ls = ls'.
Proof.
  intros Hwf H1 H2.
  assert (Heq : SQLite.mkSearchJobRow sid jid fs ls
                = SQLite.mkSearchJobRow sid jid fs' ls').
  { apply (NoDup_map_injective
             (fun r => (SQLite.sj_search_id r, SQLite.sj_job_id r)) _ _ _
             (SQLite.wf_sj_key _ Hwf) H1 H2). reflexivity. }
  injection Heq. auto.
Qed.

(** *** C2: persisting the same groups twice *)

(** C2.  Persisting the same result groups twice to the relational sink,
    with nothing failing, succeeds both times and leaves a store that
    satisfies the key constraints, in which every identifier of the groups
    has exactly one row in [jobs] and every (search, identifier) pair
    exactly one row in [searches_jobs].  That row has [last_seen] equal to
    the first run's timestamp after the first run and to the second run's
    after the second, with the same [first_seen] in both.  For a pair the
    store did not hold before, [first_seen] is the first run's timestamp
    (so both stamps are equal when the association is created); for a pair
    it held, [first_seen] is the one it had.  Any later run keeps the
    [first_seen] of every row.  The second tree need not list the groups
    and postings in the order of the first: it is enough that it holds
    every (search term, identifier) pair of the first. *)
Theorem C2_two_runs_one_row_each :
  forall eng1 eng2 db jobGroups jobGroups' t1 t2,
    SQLite.healthy eng1 -> SQLite.healthy eng2 -> SQLite.WellFormed db ->
    (forall g sg j,
        In g jobGroups -> In sg (Searches g) -> In j (Jobs sg) ->
        exists g' sg' j',
          In g' jobGroups' /\ In sg' (Searches g') /\ In j' (Jobs sg') /\
          SearchTerm sg' = SearchTerm sg /\ JobID_ j' = JobID_ j) ->
    exists db1 db2,
      SQLite.saveJobsToSQLite eng1 db jobGroups t1 = (db1, None) /\
      SQLite.saveJobsToSQLite eng2 db1 jobGroups' t2 = (db2, None) /\
      SQLite.WellFormed db2 /\
      (forall g sg j,
          In g jobGroups -> In sg (Searches g) -> In j (Jobs sg) ->
          SQLite.countJobs (JobID_ j) db2 = 1%nat /\
          exists sid fs,
            In (SQLite.mkSearchRow sid (SearchTerm sg)) (SQLite.searches db2) /\
            SQLite.countSearchJobs sid (JobID_ j) db2 = 1%nat /\
            In (SQLite.mkSearchJobRow sid (JobID_ j) fs t1)
               (SQLite.searches_jobs db1) /\
            In (SQLite.mkSearchJobRow sid (JobID_ j) fs t2)
               (SQLite.searches_jobs db2) /\
            ((forall r, In r (SQLite.searches_jobs db) ->
                        SQLite.sjKey sid (JobID_ j) r = false) ->
             fs = t1) /\
            (forall r, In r (SQLite.searches_jobs db) ->
                       SQLite.sjKey sid (JobID_ j) r = true ->
                       fs = SQLite.first_seen r)) /\
      (forall eng3 later t3,
          SQLite.healthy eng3 ->
          exists db3,
            SQLite.saveJobsToSQLite eng3 db2 later t3 = (db3, None) /\
            forall r, In r (SQLite.searches_jobs db2) ->
              exists ls,
                In (SQLite.mkSearchJobRow (SQLite.sj_search_id r)
                      (SQLite.sj_job_id r) (SQLite.first_seen r) ls)
                   (SQLite.searches_jobs db3)).
Proof.
  intros eng1 eng2 db jobGroups jobGroups' t1 t2 H1 H2 Hwf Hsame.
  destruct (save_healthy eng1 db jobGroups t1 H1 Hwf)
    as (db1 & Hrun1 & E1 & Hcov1 & _).
  destruct (save_healthy eng2 db1 jobGroups' t2 H2 (ev_wf E1))
    as (db2 & Hrun2 & E2 & Hcov2 & _).
  exists db1, db2. split; [exact Hrun1|]. split; [exact Hrun2|].
  split; [exact (ev_wf E2)|]. split.
  - intros g sg j Hg Hsg Hj.
    destruct (Hcov1 g sg j Hg Hsg Hj) as (_ & sid1 & fs1 & Hrow1 & Hseen1).
    destruct (Hsame g sg j Hg Hsg Hj)
      as (g' & sg' & j' & Hg' & Hsg' & Hj' & Hterm & Hid).
    destruct (Hcov2 g' sg' j' Hg' Hsg' Hj')
      as (Hjob2 & sid & fs2 & Hrow2 & Hseen2).
    rewrite Hterm in Hrow2. rewrite Hid in Hjob2, Hseen2.
    assert (sid1 = sid) as ->.
    { apply (search_id_unique db2 _ _ (SearchTerm sg) (ev_wf E2));
        [now apply (ev_searches E2) | exact Hrow2]. }
    destruct (ev_kept E2 _ Hseen1) as (ls & Hkept & _). cbn in Hkept.
    destruct (search_job_unique db2 _ _ _ _ _ _ (ev_wf E2) Hkept Hseen2)
      as [-> _].
    split; [now apply one_job_row; [apply (ev_wf E2)|]|].
    exists sid, fs2. split; [exact Hrow2|].
    split; [exact (one_search_job_row _ _ _ _ db2 (ev_wf E2) Hseen2)|].
    split; [exact Hseen1|]. split; [exact Hseen2|]. split.
    + intros Hfresh.
      destruct (ev_new E1 _ Hseen1) as [(r & Hr & Hkey) | [Hfs _]];
        [|exact Hfs].
      cbn in Hkey. apply sjKey_spec in Hkey. rewrite (Hfresh r Hr) in Hkey.
      discriminate.
    + intros r Hr Hkey. apply sjKey_spec in Hkey.
      destruct (ev_kept E1 r Hr) as (ls1 & Hin1 & _).
      injection Hkey as Hs Hj''. rewrite Hs, Hj'' in Hin1.
      now destruct (search_job_unique db1 _ _ _ _ _ _ (ev_wf E1) Hin1 Hseen1).
  - intros eng3 later t3 H3.
    destruct (save_healthy eng3 db2 later t3 H3 (ev_wf E2))
      as (db3 & Hrun3 & E3 & _).
    exists db3. split; [exact Hrun3|].
    intros r Hr. destruct (ev_kept E3 r Hr) as (ls & Hin & _). eauto.
Qed.

Lemma C2_two_runs_one_row_each_witness :
  exists db1 db2,
    SQLite.saveJobsToSQLite (SQLite.reliable false) Scenario.seeded
                            Scenario.overlapping "2025-02-01T00:00:00Z"
      = (db1, None) /\
    SQLite.saveJobsToSQLite (SQLite.reliable true) db1
                            Scenario.overlapping "2025-03-01T00:00:00Z"
      = (db2, None) /\
    SQLite.WellFormed db2.
Proof.
  destruct (C2_two_runs_one_row_each
              (SQLite.reliable false) (SQLite.reliable true) Scenario.seeded
              Scenario.overlapping Scenario.overlapping
              "2025-02-01T00:00:00Z" "2025-03-01T00:00:00Z"
              (reliable_healthy false) (reliable_healthy true))
    as (db1 & db2 & H1 & H2 & Hwf & _).
  - constructor; cbn; repeat constructor; cbn; intuition discriminate.
  - intros g sg j Hg Hsg Hj. exists g, sg, j. auto.
  - exists db1, db2. auto.
Defined.

(** The store after the two runs of the witness, spelled out. *)
Example two_runs_on_seeded_store :
  let db1 := fst (SQLite.saveJobsToSQLite (SQLite.reliable false)
                    Scenario.seeded Scenario.overlapping "t1") in
  let db2 := fst (SQLite.saveJobsToSQLite (SQLite.reliable true) db1
                    Scenario.overlapping "t2") in
  map SQLite.job_id (SQLite.jobs db2) = ["Z"; "A"; "B"; "C"] /\
  SQLite.searches db2 = [ SQLite.mkSearchRow 1 "data scientist";
                          SQLite.mkSearchRow 2 "data science" ] /\
  SQLite.searches_jobs db2
  = [ SQLite.mkSearchJobRow 1 "Z" "2025-01-01T00:00:00Z"
                            "2025-01-01T00:00:00Z";
      SQLite.mkSearchJobRow 1 "A" "t1" "t2";
      SQLite.mkSearchJobRow 1 "B" "t1" "t2";
      SQLite.mkSearchJobRow 2 "B" "t1" "t2";
      SQLite.mkSearchJobRow 2 "C" "t1" "t2" ].
Proof. vm_compute. repeat split. Qed.

(** *** C6: all or nothing *)

Section Faults.

Variable eng : SQLite.Engine.
Variable ts : string.

(** A statement that went through was not one the engine fails, and
    counts for one. *)
Lemma exec_inr {A} err (statement : SQLite.Store -> option (A * SQLite.Store))
      st a st' :
  SQLite.exec eng err statement st = inr (a, st') ->
  SQLite.stmt_fails eng (SQLite.executed st) = false /\
  SQLite.executed st' = S (SQLite.executed st).
Proof.
  unfold SQLite.exec.
  destruct (SQLite.stmt_fails eng (SQLite.executed st)); [discriminate|].
  destruct (statement (SQLite.working st)) as [[a' s']|]; [|discriminate].
  intros [= <- <-]. auto.
Qed.

Lemma bind_inr {A B} (m : SQLite.Tx A) (k : A -> SQLite.Tx B) st b st' :
  SQLite.bind m k st = inr (b, st') ->
  exists a st1, m st = inr (a, st1) /\ k a st1 = inr (b, st').
Proof.
  unfold SQLite.bind. destruct (m st) as [e | [a st1]]; [discriminate|].
  eauto.
Qed.

Lemma clean_step lo hi :
  SQLite.stmt_fails eng lo = false -> clean eng (S lo) hi ->
  clean eng lo hi.
Proof.
  intros H0 H k Hk. destruct (Nat.eq_dec k lo) as [-> | Hne]; [exact H0|].
  apply H. lia.
Qed.

Lemma clean_join lo mid hi :
  clean eng lo mid -> clean eng mid hi -> clean eng lo hi.
Proof.
  intros H1 H2 k Hk. destruct (Nat.lt_ge_cases k mid); [apply H1 | apply H2];
    lia.
Qed.

Lemma saveJobs_inr cid sid :
  forall jobList st st',
    SQLite.saveJobs eng ts cid sid jobList st = inr (tt, st') ->
    SQLite.executed st' = (SQLite.executed st + 3 * List.length jobList)%nat /\
    clean eng (SQLite.executed st) (SQLite.executed st').
Proof.
  induction jobList as [|job rest IH]; intros st st' Hrun.
  - cbn in Hrun. injection Hrun as <-. split; [cbn; lia|]. intros k Hk. lia.
  - cbn [SQLite.saveJobs] in Hrun.
    apply bind_inr in Hrun as ([] & st1 & H1 & Hrun).
    apply bind_inr in Hrun as ([] & st2 & H2 & Hrun).
    apply bind_inr in Hrun as ([] & st3 & H3 & Hrun).
    apply exec_inr in H1 as [F1 N1], H2 as [F2 N2], H3 as [F3 N3].
    apply IH in Hrun as [N C]. cbn [List.length].
    rewrite N1 in *. rewrite N2 in *. rewrite N3 in *. split; [lia|].
    rewrite N. apply clean_step; [exact F1|].
    apply clean_step; [exact F2|]. apply clean_step; [exact F3|].
    rewrite <- N. exact C.
Qed.

Lemma saveSearches_inr cid :
  forall groups st st',
    SQLite.saveSearches eng ts cid groups st = inr (tt, st') ->
    SQLite.executed st'
    = (SQLite.executed st + list_sum (map SQLite.statementsOfSearch groups))%nat
    /\ clean eng (SQLite.executed st) (SQLite.executed st').
Proof.
  induction groups as [|sg rest IH]; intros st st' Hrun.
  - cbn in Hrun. injection Hrun as <-. split; [cbn; lia|]. intros k Hk. lia.
  - cbn [SQLite.saveSearches] in Hrun.
    apply bind_inr in Hrun as (sid & st1 & H1 & Hrun).
    apply bind_inr in Hrun as ([] & st2 & H2 & Hrun).
    apply exec_inr in H1 as [F1 N1].
    apply saveJobs_inr in H2 as [N2 C2].
    apply IH in Hrun as [N C]. split.
    + cbn [map]. unfold list_sum in *. cbn [fold_right].
      unfold SQLite.statementsOfSearch at 1. lia.
    + apply clean_step; [exact F1|]. rewrite <- N1.
      eapply clean_join; eassumption.
Qed.

Lemma saveGroups_inr :
  forall jobGroups st st',
    SQLite.saveGroups eng ts jobGroups st = inr (tt, st') ->
    SQLite.executed st'
    = (SQLite.executed st + SQLite.statementCount jobGroups)%nat /\
    clean eng (SQLite.executed st) (SQLite.executed st').
Proof.
  induction jobGroups as [|g rest IH]; intros st st' Hrun.
  - cbn in Hrun. injection Hrun as <-. split; [cbn; lia|]. intros k Hk. lia.
  - cbn [SQLite.saveGroups] in Hrun.
    apply bind_inr in Hrun as (cid & st1 & H1 & Hrun).
    apply bind_inr in Hrun as ([] & st2 & H2 & Hrun).
    apply exec_inr in H1 as [F1 N1].
    apply saveSearches_inr in H2 as [N2 C2].
    apply IH in Hrun as [N C]. split.
    + unfold SQLite.statementCount in *. cbn [map].
      unfold list_sum in *. cbn [fold_right].
      unfold SQLite.statementsOfGroup at 1. unfold list_sum. lia.
    + apply clean_step; [exact F1|]. rewrite <- N1.
      eapply clean_join; eassumption.
Qed.

End Faults.

(** C6.  The persistence step is all or nothing.  If any one of the writes
    of the transaction fails (the [k]-th statement, for any [k] below the
    number of statements the tree calls for: a category upsert, a search
    term upsert, a job insert, a job-category insert or a search-job
    upsert), [saveJobsToSQLite] returns an error and the rows of the store
    are those it started with.  More generally, whenever
    [saveJobsToSQLite] returns an error, whatever its cause, the rows are
    those it started with. *)
Theorem C6_all_or_nothing :
  forall eng db jobGroups ts,
    (forall k, (k < SQLite.statementCount jobGroups)%nat ->
               SQLite.stmt_fails eng k = true ->
               exists e,
                 SQLite.saveJobsToSQLite eng db jobGroups ts = (db, Some e)) /\
    (forall db' e,
        SQLite.saveJobsToSQLite eng db jobGroups ts = (db', Some e) ->
        db' = db).
Proof.
  intros eng db jobGroups ts. split.
  - intros k Hk Hfail. unfold SQLite.saveJobsToSQLite.
    destruct (SQLite.open_fails eng); [eauto|].
    destruct (SQLite.pragma_fails eng); [eauto|].
    destruct (existsb _ _); [eauto|].
    destruct (SQLite.begin_fails eng); [eauto|].
    destruct (SQLite.saveGroups eng ts jobGroups (SQLite.mkTxState db 0))
      as [e | [[] st']] eqn:Hrun; [eauto|].
    apply saveGroups_inr in Hrun as [N C]. cbn in N, C.
    rewrite (C k) in Hfail; [discriminate | lia].
  - intros db' e. unfold SQLite.saveJobsToSQLite.
    destruct (SQLite.open_fails eng); [now intros [= <-]|].
    destruct (SQLite.pragma_fails eng); [now intros [= <-]|].
    destruct (existsb _ _); [now intros [= <-]|].
    destruct (SQLite.begin_fails eng); [now intros [= <-]|].
    destruct (SQLite.saveGroups eng ts jobGroups (SQLite.mkTxState db 0))
      as [e' | [[] st']]; [now intros [= <-]|].
    destruct (SQLite.commit_fails eng); [now intros [= <-] | discriminate].
Qed.

Lemma C6_all_or_nothing_witness :
  exists e,
    SQLite.saveJobsToSQLite (Scenario.failingAt 7) Scenario.seeded
                            Scenario.overlapping "2025-02-01T00:00:00Z"
    = (Scenario.seeded, Some e).
Proof.
  apply (proj1 (C6_all_or_nothing (Scenario.failingAt 7) Scenario.seeded
                  Scenario.overlapping "2025-02-01T00:00:00Z") 7%nat).
  - cbn. lia.
  - reflexivity.
Defined.

(** The failing write of the witness is the upsert of (search 1, job B),
    after six statements had gone through. *)
Example failure_at_seventh_statement :
  SQLite.saveJobsToSQLite (Scenario.failingAt 7) Scenario.seeded
                          Scenario.overlapping "2025-02-01T00:00:00Z"
  = (Scenario.seeded, Some (SQLite.CouldNotInsertSearchJob 1 "B")).
Proof. reflexivity. Qed.

(** *** Rows a run leaves for every posting of its tree *)

Lemma insertJobCategory_member jid cid s s' :
  SQLite.insertJobCategory jid cid s = Some (tt, s') ->
  existsb (SQLite.jcKey jid cid) (SQLite.jobs_categories s') = true.
Proof.
  unfold SQLite.insertJobCategory.
  destruct (existsb _ (SQLite.jobs_categories s)) eqn:Hex.
  - intros [= <-]. exact Hex.
  - destruct (_ && _); [|discriminate]. intros [= <-]. cbn.
    apply existsb_exists. exists (SQLite.mkJobCategoryRow jid cid). split.
    + apply in_or_app. right. now left.
    + now apply jcKey_spec.
Qed.

Lemma seen_member sid jid fs ls s :
  In (SQLite.mkSearchJobRow sid jid fs ls) (SQLite.searches_jobs s) ->
  existsb (SQLite.sjKey sid jid) (SQLite.searches_jobs s) = true.
Proof.
  intros Hin. apply existsb_exists. eexists. split; [exact Hin|].
  now apply sjKey_spec.
Qed.

Lemma Evolves_SettledJobs ts s s' cid sid jobList :
  Evolves ts s s' ->
  SettledJobs cid sid jobList s -> SettledJobs cid sid jobList s'.
Proof.
  intros He Hset j Hj. destruct (Hset j Hj) as (H1 & H2 & H3).
  split; [now apply (Evolves_hasJob _ _ _ _ He)|]. split.
  - apply existsb_exists in H2 as (r & Hin & Hk).
    apply existsb_exists. exists r. split; [|exact Hk].
    now apply (ev_jobs_categories He).
  - apply existsb_exists in H3 as (r & Hin & Hk).
    destruct (ev_kept He r Hin) as (ls & Hin' & _).
    apply existsb_exists. eexists. split; [exact Hin'|].
    apply sjKey_spec. cbn. now apply sjKey_spec.
Qed.

Lemma Evolves_SettledSearches ts s s' cid groups :
  Evolves ts s s' ->
  SettledSearches cid groups s -> SettledSearches cid groups s'.
Proof.
  intros He Hset sg Hsg. destruct (Hset sg Hsg) as (sid & Hrow & Hjobs).
  exists sid. split; [now apply (ev_searches He)|].
  eapply Evolves_SettledJobs; eassumption.
Qed.

Lemma Evolves_Settled ts s s' jobGroups :
  Evolves ts s s' -> Settled jobGroups s -> Settled jobGroups s'.
Proof.
  intros He Hset g Hg. destruct (Hset g Hg) as (cid & Hrow & Hsearches).
  exists cid. split; [now apply (ev_categories He)|].
  eapply Evolves_SettledSearches; eassumption.
Qed.

Section Settles.

Variable eng : SQLite.Engine.
Variable ts : string.
Hypothesis no_fault : forall k, SQLite.stmt_fails eng k = false.

Lemma saveJobs_settles cid sid :
  forall jobList s k,
    SQLite.WellFormed s ->
    SQLite.hasCategoryId cid s = true ->
    SQLite.hasSearchId sid s = true ->
    exists s',
      SQLite.saveJobs eng ts cid sid jobList (SQLite.mkTxState s k)
      = inr (tt, SQLite.mkTxState s' (k + 3 * List.length jobList)) /\
      Evolves ts s s' /\
      SettledJobs cid sid jobList s'.
Proof.
  induction jobList as [|job rest IH]; intros s k Hwf Hcat Hsearch.
  - exists s. cbn. rewrite Nat.add_0_r.
    split; [reflexivity|]. split; [now apply Evolves_refl | intros j []].
  - destruct (insertJob_spec ts job s Hwf) as (s1 & H1 & E1 & Hjob1 & _).
    destruct (insertJobCategory_spec ts (JobID_ job) cid s1 (ev_wf E1) Hjob1
                (Evolves_hasCategoryId _ _ _ _ E1 Hcat))
      as (s2 & H2 & E2 & _).
    pose proof (insertJobCategory_member _ _ _ _ H2) as Hjc2.
    pose proof (Evolves_trans _ _ _ _ E1 E2) as E12.
    destruct (upsertSearchJob_spec ts sid (JobID_ job) s2 (ev_wf E2)
                (Evolves_hasSearchId _ _ _ _ E12 Hsearch)
                (Evolves_hasJob _ _ _ _ E2 Hjob1))
      as (s3 & H3 & E3 & (fs & Hseen3) & _).
    pose proof (Evolves_trans _ _ _ _ E12 E3) as E13.
    destruct (IH s3 (S (S (S k))) (ev_wf E3)
                 (Evolves_hasCategoryId _ _ _ _ E13 Hcat)
                 (Evolves_hasSearchId _ _ _ _ E13 Hsearch))
      as (s' & Hrun & E' & Hset).
    exists s'. split; [|split].
    + cbn [SQLite.saveJobs]. unfold SQLite.bind.
      rewrite (exec_ok eng no_fault _ _ _ _ _ _ H1),
        (exec_ok eng no_fault _ _ _ _ _ _ H2),
        (exec_ok eng no_fault _ _ _ _ _ _ H3), Hrun.
      do 3 f_equal. cbn [List.length]. lia.
    + exact (Evolves_trans _ _ _ _ E13 E').
    + intros j [<- | Hin]; [|now apply Hset].
      apply (Evolves_SettledJobs ts s3 s' cid sid [job] E');
        [|now left].
      intros j [<- | []]. split; [|split].
      * apply (Evolves_hasJob _ _ _ _ E3).
        now apply (Evolves_hasJob _ _ _ _ E2).
      * apply existsb_exists in Hjc2 as (r & Hin & Hk).
        apply existsb_exists. exists r. split; [|exact Hk].
        now apply (ev_jobs_categories E3).
      * exact (seen_member _ _ _ _ _ Hseen3).
Qed.

Lemma saveSearches_settles cid :
  forall groups s k,
    SQLite.WellFormed s ->
    SQLite.hasCategoryId cid s = true ->
    exists s',
      SQLite.saveSearches eng ts cid groups (SQLite.mkTxState s k)
      = inr (tt, SQLite.mkTxState s'
                   (k + list_sum (map SQLite.statementsOfSearch groups))) /\
      Evolves ts s s' /\
      SettledSearches cid groups s'.
Proof.
  induction groups as [|sg rest IH]; intros s k Hwf Hcat.
  - exists s. cbn. rewrite Nat.add_0_r.
    split; [reflexivity|]. split; [now apply Evolves_refl | intros sg []].
  - destruct (upsertSearch_spec ts (SQLite.burns_rowid eng) (SearchTerm sg) s
                Hwf) as (sid & s1 & H1 & E1 & Hrow1 & _).
    assert (Hsid : SQLite.hasSearchId sid s1 = true).
    { apply hasSearchId_In, in_map_iff. eexists. split; [|exact Hrow1].
      reflexivity. }
    destruct (saveJobs_settles cid sid (Jobs sg) s1 (S k) (ev_wf E1)
                (Evolves_hasCategoryId _ _ _ _ E1 Hcat) Hsid)
      as (s2 & H2 & E2 & Hset2).
    pose proof (Evolves_trans _ _ _ _ E1 E2) as E12.
    destruct (IH s2 (S k + 3 * List.length (Jobs sg))%nat (ev_wf E2)
                 (Evolves_hasCategoryId _ _ _ _ E12 Hcat))
      as (s' & Hrun & E' & Hset).
    exists s'. split; [|split].
    + cbn [SQLite.saveSearches]. unfold SQLite.bind.
      rewrite (exec_ok eng no_fault _ _ _ _ _ _ H1), H2, Hrun.
      do 3 f_equal. cbn [map]. unfold SQLite.statementsOfSearch at 2.
      unfold list_sum. cbn [fold_right]. lia.
    + exact (Evolves_trans _ _ _ _ E12 E').
    + intros sg' [<- | Hin]; [|now apply Hset].
      exists sid. split.
      * apply (ev_searches E'). now apply (ev_searches E2).
      * eapply Evolves_SettledJobs; eassumption.
Qed.

Lemma saveGroups_settles :
  forall jobGroups s k,
    SQLite.WellFormed s ->
    exists s',
      SQLite.saveGroups eng ts jobGroups (SQLite.mkTxState s k)
      = inr (tt, SQLite.mkTxState s' (k + SQLite.statementCount jobGroups)) /\
      Evolves ts s s' /\
      Settled jobGroups s'.
Proof.
  induction jobGroups as [|g rest IH]; intros s k Hwf.
  - exists s. cbn. rewrite Nat.add_0_r.
    split; [reflexivity|]. split; [now apply Evolves_refl | intros g []].
  - destruct (upsertCategory_spec ts (SQLite.burns_rowid eng) (Category g) s
                Hwf) as (cid & s1 & H1 & E1 & Hrow1 & _).
    assert (Hcid : SQLite.hasCategoryId cid s1 = true).
    { apply hasCategoryId_In, in_map_iff. eexists. split; [|exact Hrow1].
      reflexivity. }
    destruct (saveSearches_settles cid (Searches g) s1 (S k) (ev_wf E1) Hcid)
      as (s2 & H2 & E2 & Hset2).
    destruct (IH s2 (S k + list_sum (map SQLite.statementsOfSearch
                                         (Searches g)))%nat (ev_wf E2))
      as (s' & Hrun & E' & Hset).
    exists s'. split; [|split].
    + cbn [SQLite.saveGroups]. unfold SQLite.bind.
      rewrite (exec_ok eng no_fault _ _ _ _ _ _ H1), H2, Hrun.
      do 3 f_equal. unfold SQLite.statementCount. cbn [map].
      unfold SQLite.statementsOfGroup at 2.
      unfold list_sum. cbn [fold_right]. lia.
    + exact (Evolves_trans _ _ _ _ (Evolves_trans _ _ _ _ E1 E2) E').
    + intros g' [<- | Hin]; [|now apply Hset].
      exists cid. split.
      * apply (ev_categories E'). now apply (ev_categories E2).
      * eapply Evolves_SettledSearches; eassumption.
Qed.

End Settles.

(** *** What the statements file under a category *)

Lemma exec_inr_statement {A} eng err
      (statement : SQLite.Store -> option (A * SQLite.Store)) st a st' :
  SQLite.exec eng err statement st = inr (a, st') ->
  statement (SQLite.working st) = Some (a, SQLite.working st').
Proof.
  unfold SQLite.exec.
  destruct (SQLite.stmt_fails eng (SQLite.executed st)); [discriminate|].
  destruct (statement (SQLite.working st)) as [[a' s']|]; [|discriminate].
  intros [= <- <-]. reflexivity.
Qed.

Lemma insertJob_leaves_categories job s s' :
  SQLite.insertJob job s = Some (tt, s') ->
  SQLite.categories s' = SQLite.categories s /\
  SQLite.jobs_categories s' = SQLite.jobs_categories s.
Proof.
  unfold SQLite.insertJob. destruct (SQLite.hasJob _ s); intros [= <-]; auto.
Qed.

Lemma upsertSearchJob_leaves_categories sid jid ts s s' :
  SQLite.upsertSearchJob sid jid ts s = Some (tt, s') ->
  SQLite.categories s' = SQLite.categories s /\
  SQLite.jobs_categories s' = SQLite.jobs_categories s.
Proof.
  unfold SQLite.upsertSearchJob.
  destruct (existsb _ _); [intros [= <-]; auto|].
  destruct (_ && _); [intros [= <-]; auto | discriminate].
Qed.

Lemma upsertSearch_leaves_categories burn term sid s s' :
  SQLite.upsertSearch burn term s = Some (sid, s') ->
  SQLite.categories s' = SQLite.categories s /\
  SQLite.jobs_categories s' = SQLite.jobs_categories s.
Proof.
  unfold SQLite.upsertSearch.
  destruct (find _ _); intros [= _ <-]; auto.
Qed.

Lemma insertJobCategory_files jid cid s s' :
  SQLite.insertJobCategory jid cid s = Some (tt, s') ->
  SQLite.categories s' = SQLite.categories s /\
  forall r, In r (SQLite.jobs_categories s') ->
            In r (SQLite.jobs_categories s) \/
            r = SQLite.mkJobCategoryRow jid cid.
Proof.
  unfold SQLite.insertJobCategory.
  destruct (existsb _ _); [intros [= <-]; auto|].
  destruct (_ && _); [|discriminate]. intros [= <-]. cbn.
  split; [reflexivity|]. intros r Hr.
  apply in_app_or in Hr as [Hr | [<- | []]]; auto.
Qed.

Lemma upsertCategory_files burn name cid s s' :
  SQLite.upsertCategory burn name s = Some (cid, s') ->
  incl (SQLite.categories s) (SQLite.categories s') /\
  In (SQLite.mkCategoryRow cid name) (SQLite.categories s') /\
  SQLite.jobs_categories s' = SQLite.jobs_categories s.
Proof.
  unfold SQLite.upsertCategory.
  destruct (find _ (SQLite.categories s)) as [[cid' name']|] eqn:Hfind;
    intros [= <- <-]; cbn.
  - apply find_some in Hfind as [Hin Heq]. cbn in Heq.
    apply String.eqb_eq in Heq. subst name'.
    split; [apply incl_refl | auto].
  - split; [apply incl_appl, incl_refl|]. split; [|reflexivity].
    apply in_or_app. right. now left.
Qed.

(** In a well-formed store a category name has one identifier. *)
Lemma category_id_unique s cid cid' name :
  SQLite.WellFormed s ->
  In (SQLite.mkCategoryRow cid name) (SQLite.categories s) ->
  In (SQLite.mkCategoryRow cid' name) (SQLite.categories s) ->
  cid = cid'.
Proof.
  intros Hwf H1 H2.
  assert (Heq : SQLite.mkCategoryRow cid name
                = SQLite.mkCategoryRow cid' name).
  { apply (NoDup_map_injective SQLite.category_name _ _ _
             (SQLite.wf_cat_name _ Hwf) H1 H2). reflexivity. }
  now injection Heq.
Qed.

Section Filing.

Variable eng : SQLite.Engine.
Variable ts : string.

Lemma saveJobs_files cid sid :
  forall jobList st st',
    SQLite.saveJobs eng ts cid sid jobList st = inr (tt, st') ->
    SQLite.categories (SQLite.working st')
    = SQLite.categories (SQLite.working st) /\
    forall r, In r (SQLite.jobs_categories (SQLite.working st')) ->
      In r (SQLite.jobs_categories (SQLite.working st)) \/
      (SQLite.jc_category_id r = cid /\
       In (SQLite.jc_job_id r) (map JobID_ jobList)).
Proof.
  induction jobList as [|job rest IH]; intros st st' Hrun.
  - cbn in Hrun. injection Hrun as <-. auto.
  - cbn [SQLite.saveJobs] in Hrun.
    apply bind_inr in Hrun as ([] & st1 & H1 & Hrun).
    apply bind_inr in Hrun as ([] & st2 & H2 & Hrun).
    apply bind_inr in Hrun as ([] & st3 & H3 & Hrun).
    apply exec_inr_statement in H1, H2, H3.
    apply insertJob_leaves_categories in H1 as [C1 J1].
    apply insertJobCategory_files in H2 as [C2 J2].
    apply upsertSearchJob_leaves_categories in H3 as [C3 J3].
    apply IH in Hrun as [C J]. split; [congruence|].
    intros r Hr. destruct (J r Hr) as [Hr3 | [Hc Hj]].
    + rewrite J3 in Hr3. destruct (J2 r Hr3) as [Hr1 | ->].
      * left. now rewrite <- J1.
      * right. cbn. auto.
    + right. split; [exact Hc | now right].
Qed.

Lemma saveSearches_files cid :
  forall groups st st',
    SQLite.saveSearches eng ts cid groups st = inr (tt, st') ->
    SQLite.categories (SQLite.working st')
    = SQLite.categories (SQLite.working st) /\
    forall r, In r (SQLite.jobs_categories (SQLite.working st')) ->
      In r (SQLite.jobs_categories (SQLite.working st)) \/
      (SQLite.jc_category_id r = cid /\
       In (SQLite.jc_job_id r) (map JobID_ (flat_map Jobs groups))).
Proof.
  induction groups as [|sg rest IH]; intros st st' Hrun.
  - cbn in Hrun. injection Hrun as <-. auto.
  - cbn [SQLite.saveSearches] in Hrun.
    apply bind_inr in Hrun as (sid & st1 & H1 & Hrun).
    apply bind_inr in Hrun as ([] & st2 & H2 & Hrun).
    apply exec_inr_statement in H1.
    apply upsertSearch_leaves_categories in H1 as [C1 J1].
    apply saveJobs_files in H2 as [C2 J2].
    apply IH in Hrun as [C J]. split; [congruence|].
    intros r Hr. cbn [flat_map]. rewrite map_app.
    destruct (J r Hr) as [Hr2 | [Hc Hj]].
    + destruct (J2 r Hr2) as [Hr1 | [Hc Hj]].
      * left. now rewrite <- J1.
      * right. split; [exact Hc|]. apply in_or_app. now left.
    + right. split; [exact Hc|]. apply in_or_app. now right.
Qed.

Lemma saveGroups_files :
  forall jobGroups st st',
    SQLite.saveGroups eng ts jobGroups st = inr (tt, st') ->
    incl (SQLite.categories (SQLite.working st))
         (SQLite.categories (SQLite.working st')) /\
    forall r, In r (SQLite.jobs_categories (SQLite.working st')) ->
      In r (SQLite.jobs_categories (SQLite.working st)) \/
      exists g,
        In g jobGroups /\
        In (SQLite.mkCategoryRow (SQLite.jc_category_id r) (Category g))
           (SQLite.categories (SQLite.working st')) /\
        In (SQLite.jc_job_id r) (map JobID_ (flat_map Jobs (Searches g))).
Proof.
  induction jobGroups as [|g rest IH]; intros st st' Hrun.
  - cbn in Hrun. injection Hrun as <-. split; [apply incl_refl | auto].
  - cbn [SQLite.saveGroups] in Hrun.
    apply bind_inr in Hrun as (cid & st1 & H1 & Hrun).
    apply bind_inr in Hrun as ([] & st2 & H2 & Hrun).
    apply exec_inr_statement in H1.
    apply upsertCategory_files in H1 as (C1 & Hrow & J1).
    apply saveSearches_files in H2 as [C2 J2].
    apply IH in Hrun as [C J]. rewrite C2 in C. split.
    + eapply incl_tran; eassumption.
    + intros r Hr. destruct (J r Hr) as [Hr2 | (g' & Hg' & Hrow' & Hj)].
      * destruct (J2 r Hr2) as [Hr1 | [Hc Hj]].
        -- left. now rewrite <- J1.
        -- right. exists g. split; [now left|]. split; [|exact Hj].
           rewrite Hc. now apply C.
      * right. exists g'. split; [now right | auto].
Qed.

End Filing.

(** *** C8: two overlapping searches of one category *)

Lemma in_postings j jobGroups :
  In j (postings jobGroups) <->
  exists g sg, In g jobGroups /\ In sg (Searches g) /\ In j (Jobs sg).
Proof.
  unfold postings. rewrite in_flat_map. split.
  - intros (g & Hg & Hj). apply in_flat_map in Hj as (sg & Hsg & Hj). eauto.
  - intros (g & sg & Hg & Hsg & Hj). exists g. split; [exact Hg|].
    apply in_flat_map. eauto.
Qed.

(** Persisted into an empty store, the job rows of a tree are its
    identifiers, each once. *)
Lemma jobs_table_is_union eng jobGroups ts :
  SQLite.healthy eng ->
  exists db',
    SQLite.saveJobsToSQLite eng SQLite.emptyStore jobGroups ts = (db', None) /\
    NoDup (map SQLite.job_id (SQLite.jobs db')) /\
    (forall jid, In jid (map SQLite.job_id (SQLite.jobs db')) <->
                 In jid (map JobID_ (postings jobGroups))).
Proof.
  intros Hok.
  destruct (save_healthy eng SQLite.emptyStore jobGroups ts Hok
              emptyStore_WellFormed) as (db' & Hrun & He & Hcov & Hfoot).
  exists db'. split; [exact Hrun|].
  split; [exact (SQLite.wf_jobs_key _ (ev_wf He))|].
  intros jid. split.
  - intros Hin. apply in_map_iff in Hin as (r & <- & Hr).
    destruct (Hfoot r Hr) as [[] | Hnew]. exact Hnew.
  - intros Hin. apply in_map_iff in Hin as (j & <- & Hj).
    apply in_postings in Hj as (g & sg & Hg & Hsg & Hj).
    apply hasJob_In. now destruct (Hcov g sg j Hg Hsg Hj).
Qed.

(** Persisted into an empty store, the rows of [jobs_categories] are the
    pairs of an identifier found under a category and the identifier of
    that category, each once. *)
Lemma job_sets_are_unions eng jobGroups ts :
  SQLite.healthy eng ->
  exists db',
    SQLite.saveJobsToSQLite eng SQLite.emptyStore jobGroups ts = (db', None) /\
    NoDup (SQLite.jobs_categories db') /\
    (forall jid cid,
        In (SQLite.mkJobCategoryRow jid cid) (SQLite.jobs_categories db') <->
        exists g sg j,
          In g jobGroups /\ In sg (Searches g) /\ In j (Jobs sg) /\
          JobID_ j = jid /\
          In (SQLite.mkCategoryRow cid (Category g)) (SQLite.categories db')).
Proof.
  intros (Hopen & Hpragma & Hcreate & Hbegin & Hstmt & Hcommit).
  destruct (saveGroups_settles eng ts Hstmt jobGroups SQLite.emptyStore 0
              emptyStore_WellFormed) as (s' & Hrun & E & Hset).
  pose proof (saveGroups_files eng ts _ _ _ Hrun) as [_ Hfoot].
  cbn [SQLite.working] in Hfoot.
  exists s'. split.
  { unfold SQLite.saveJobsToSQLite.
    rewrite Hopen, Hpragma, Hbegin, Hrun, Hcommit.
    cbn [seq existsb]. rewrite !Hcreate. reflexivity. }
  split.
  { eapply NoDup_map_inv. exact (SQLite.wf_jc_key _ (ev_wf E)). }
  intros jid cid. split.
  - intros Hin. destruct (Hfoot _ Hin) as [[] | (g & Hg & Hrow & Hj)].
    cbn in Hrow, Hj. apply in_map_iff in Hj as (j & Hid & Hj).
    apply in_flat_map in Hj as (sg & Hsg & Hj). exists g, sg, j. auto.
  - intros (g & sg & j & Hg & Hsg & Hj & <- & Hrow).
    destruct (Hset g Hg) as (cid' & Hrow' & Hsearches).
    assert (cid' = cid) as ->
        by (eapply category_id_unique; [exact (ev_wf E) | eassumption..]).
    destruct (Hsearches sg Hsg) as (sid & _ & Hjobs).
    destruct (Hjobs j Hj) as (_ & Hjc & _).
    apply existsb_exists in Hjc as ([jid' cid'] & Hr & Hk).
    apply jcKey_spec in Hk. cbn in Hk. injection Hk as -> ->. exact Hr.
Qed.

(** C8.  Two search terms of one category find {a, b} and {b, c}; the
    groups are persisted in one run into an empty store, in whichever
    order the groups and the postings within them were collected.  The
    store then holds exactly 3 job rows (a, b, c, each with the company,
    description and title of a posting found under that identifier), 2
    search rows and 4 search-job rows: a and b with the first term, b and
    c with the second.  It holds one category row, and the job set of the
    category is the union of what its two terms found: [jobs_categories]
    has exactly 3 rows, a, b and c with that category, b once.  In general
    the job rows of a persisted tree are the union of the identifiers of
    its groups, each stored once, and the identifiers filed under a
    category are the union of those its search groups found, each filed
    once. *)
Theorem C8_overlapping_searches_stored_once :
  (forall eng category term1 term2 a b b' c ts found1 found2 groups,
      SQLite.healthy eng ->
      term1 <> term2 ->
      JobID_ a <> JobID_ b -> JobID_ a <> JobID_ c -> JobID_ b <> JobID_ c ->
      JobID_ b' = JobID_ b ->
      Permutation [a; b] found1 ->
      Permutation [b'; c] found2 ->
      Permutation [mkSearchGroup term1 found1; mkSearchGroup term2 found2]
                  groups ->
      exists db',
        SQLite.saveJobsToSQLite eng SQLite.emptyStore
                                [mkJobCategoryGroup category groups] ts
        = (db', None) /\
        List.length (SQLite.jobs db') = 3%nat /\
        (forall jid, In jid (map SQLite.job_id (SQLite.jobs db')) <->
                     In jid [JobID_ a; JobID_ b; JobID_ c]) /\
        List.length (SQLite.searches db') = 2%nat /\
        List.length (SQLite.searches_jobs db') = 4%nat /\
        (exists s1 s2,
          In (SQLite.mkSearchRow s1 term1) (SQLite.searches db') /\
          In (SQLite.mkSearchRow s2 term2) (SQLite.searches db') /\
          In (SQLite.mkSearchJobRow s1 (JobID_ a) ts ts)
             (SQLite.searches_jobs db') /\
          In (SQLite.mkSearchJobRow s1 (JobID_ b) ts ts)
             (SQLite.searches_jobs db') /\
          In (SQLite.mkSearchJobRow s2 (JobID_ b) ts ts)
             (SQLite.searches_jobs db') /\
          In (SQLite.mkSearchJobRow s2 (JobID_ c) ts ts)
             (SQLite.searches_jobs db')) /\
        In (jobRow a) (SQLite.jobs db') /\
        (In (jobRow b) (SQLite.jobs db') \/
         In (jobRow b') (SQLite.jobs db')) /\
        In (jobRow c) (SQLite.jobs db') /\
        exists cid,
          SQLite.categories db' = [SQLite.mkCategoryRow cid category] /\
          List.length (SQLite.jobs_categories db') = 3%nat /\
          (forall r, In r (SQLite.jobs_categories db') <->
                     In r [SQLite.mkJobCategoryRow (JobID_ a) cid;
                           SQLite.mkJobCategoryRow (JobID_ b) cid;
                           SQLite.mkJobCategoryRow (JobID_ c) cid])) /\
  (forall eng jobGroups ts,
      SQLite.healthy eng ->
      exists db',
        SQLite.saveJobsToSQLite eng SQLite.emptyStore jobGroups ts
        = (db', None) /\
        NoDup (map SQLite.job_id (SQLite.jobs db')) /\
        (forall jid, In jid (map SQLite.job_id (SQLite.jobs db')) <->
                     In jid (map JobID_ (postings jobGroups)))) /\
  (forall eng jobGroups ts,
      SQLite.healthy eng ->
      exists db',
        SQLite.saveJobsToSQLite eng SQLite.emptyStore jobGroups ts
        = (db', None) /\
        NoDup (SQLite.jobs_categories db') /\
        (forall jid cid,
            In (SQLite.mkJobCategoryRow jid cid)
               (SQLite.jobs_categories db') <->
            exists g sg j,
              In g jobGroups /\ In sg (Searches g) /\ In j (Jobs sg) /\
              JobID_ j = jid /\
              In (SQLite.mkCategoryRow cid (Category g))
                 (SQLite.categories db'))).
Proof.
  split; [|split; [exact jobs_table_is_union | exact job_sets_are_unions]].
  intros eng category term1 term2 a b b' c ts found1 found2 groups
         (Hopen & Hpragma & Hcreate & Hbegin & Hstmt & Hcommit)
         Ht Hab Hac Hbc Hb' P1 P2 P3.
  unfold SQLite.saveJobsToSQLite.
  rewrite Hopen, Hpragma, Hbegin, Hcommit. cbn [seq existsb].
  rewrite !Hcreate. cbn [orb].
  apply String.eqb_neq in Ht, Hab, Hac, Hbc.
  assert (Hba := Hab). rewrite String.eqb_sym in Hba.
  assert (Hca := Hac). rewrite String.eqb_sym in Hca.
  assert (Hcb := Hbc). rewrite String.eqb_sym in Hcb.
  assert (Ht' := Ht). rewrite String.eqb_sym in Ht'.
  apply Permutation_length_2_inv in P1, P2, P3.
  unfold jobRow.
  destruct P1 as [-> | ->], P2 as [-> | ->], P3 as [-> | ->].
  (* eight orders; in each the transaction is run statement by statement *)
  all: cbn [SQLite.saveGroups SQLite.saveSearches SQLite.saveJobs
            Category Searches SearchTerm Jobs];
    unfold SQLite.bind, SQLite.exec, SQLite.ret, SQLite.insertJob,
      SQLite.insertJobCategory, SQLite.upsertSearchJob, SQLite.upsertSearch,
      SQLite.upsertCategory, SQLite.hasJob, SQLite.hasCategoryId,
      SQLite.hasSearchId, SQLite.sjKey, SQLite.jcKey;
    cbn [SQLite.executed SQLite.working];
    repeat (progress (rewrite ?Hb', ?Hstmt, ?String.eqb_refl, ?Hab, ?Hba,
                        ?Hac, ?Hca, ?Hbc, ?Hcb, ?Ht, ?Ht';
                      cbn -[String.eqb])).
  all: eexists; split; [reflexivity|];
    cbn [SQLite.jobs SQLite.searches SQLite.searches_jobs SQLite.categories
         SQLite.jobs_categories List.length map SQLite.job_id].
  all: split; [reflexivity|]; split; [cbn; intuition congruence|];
    split; [reflexivity|]; split; [reflexivity|].
  all: split;
    [first [ exists 1%Z, 2%Z; cbn; intuition congruence
           | exists 2%Z, 1%Z; cbn; intuition congruence ]|].
  all: split; [cbn; auto|]; split; [cbn; auto|]; split; [cbn; auto|].
  all: exists 1%Z; split; [reflexivity|]; split; [reflexivity|].
  all: intros r; cbn; intuition congruence.
Qed.


Lemma C8_overlapping_searches_stored_once_witness :
  exists db',
    SQLite.saveJobsToSQLite (SQLite.reliable false) SQLite.emptyStore
                            Scenario.overlapping "2025-02-01T00:00:00Z"
    = (db', None) /\
    List.length (SQLite.jobs db') = 3%nat /\
    List.length (SQLite.searches db') = 2%nat /\
    List.length (SQLite.searches_jobs db') = 4%nat /\
    List.length (SQLite.categories db') = 1%nat /\
    List.length (SQLite.jobs_categories db') = 3%nat.
Proof.
  destruct (proj1 C8_overlapping_searches_stored_once
              (SQLite.reliable false) "Data Science" "data scientist"
              "data science" Scenario.postingA Scenario.postingB
              Scenario.postingB Scenario.postingC "2025-02-01T00:00:00Z"
              [Scenario.postingA; Scenario.postingB]
              [Scenario.postingB; Scenario.postingC]
              [mkSearchGroup "data scientist"
                             [Scenario.postingA; Scenario.postingB];
               mkSearchGroup "data science"
                             [Scenario.postingB; Scenario.postingC]]
              (reliable_healthy false))
    as (db' & Hrun & Hjobs & _ & Hsearches & Hassoc & _ & _ & _ & _
        & cid & Hcat & Hjc & _).
  - discriminate.
  - discriminate.
  - discriminate.
  - discriminate.
  - reflexivity.
  - apply Permutation_refl.
  - apply Permutation_refl.
  - apply Permutation_refl.
  - exists db'. rewrite Hcat. auto 10.
Defined.

(* ===================================================================== *)
(** ** The fan-out and the category tree                                  *)
(* ===================================================================== *)

Lemma fold_fetchTask tasks :
  forall sg lines,
    fold_left FanOut.fetchTask tasks (sg, lines)
    = (mkSearchGroup (SearchTerm sg) (Jobs sg ++ FanOut.successes tasks),
       lines ++ FanOut.failures tasks).
Proof.
  induction tasks as [|[jid world] rest IH]; intros [term found] lines.
  - cbn. now rewrite !app_nil_r.
  - cbn [fold_left FanOut.fetchTask FanOut.successes FanOut.failures].
    destruct (FanOut.jobPostings world jid) as [job | err];
      rewrite IH; cbn [SearchTerm Jobs]; now rewrite <- app_assoc.
Qed.

Lemma runSearch_result term tasks :
  FanOut.runSearch term tasks
  = (mkSearchGroup term (FanOut.successes tasks), FanOut.failures tasks).
Proof. unfold FanOut.runSearch. now rewrite fold_fetchTask. Qed.

Lemma successes_app l1 l2 :
  FanOut.successes (l1 ++ l2) = FanOut.successes l1 ++ FanOut.successes l2.
Proof.
  induction l1 as [|[jid world] l1 IH]; cbn; [reflexivity|].
  destruct (FanOut.jobPostings world jid); cbn; now rewrite IH.
Qed.

Lemma failures_app l1 l2 :
  FanOut.failures (l1 ++ l2) = FanOut.failures l1 ++ FanOut.failures l2.
Proof.
  induction l1 as [|[jid world] l1 IH]; cbn; [reflexivity|].
  destruct (FanOut.jobPostings world jid); cbn; now rewrite IH.
Qed.

(** The order in which the fetches finish permutes the group, no more. *)
Lemma successes_Permutation l l' :
  Permutation l l' -> Permutation (FanOut.successes l) (FanOut.successes l').
Proof.
  induction 1 as [|[jid world] l l' _ IH|[j1 w1] [j2 w2] l|l l' l'' _ IH1 _ IH2].
  - constructor.
  - cbn. destruct (FanOut.jobPostings world jid); auto.
  - cbn. destruct (FanOut.jobPostings w1 j1), (FanOut.jobPostings w2 j2);
      auto using perm_swap.
  - eapply Permutation_trans; eauto.
Qed.

Lemma successes_In jid world job tasks :
  In (jid, world) tasks -> FanOut.jobPostings world jid = inl job ->
  In job (FanOut.successes tasks).
Proof.
  induction tasks as [|[jid' world'] rest IH]; cbn; [easy|].
  intros [[= -> ->] | Hin] Hok.
  - rewrite Hok. now left.
  - destruct (FanOut.jobPostings world' jid'); [right|]; auto.
Qed.

Lemma appendSearch_categories category sg jobGroups :
  map Category (FanOut.appendSearch category sg jobGroups)
  = map Category jobGroups.
Proof.
  induction jobGroups as [|g rest IH]; cbn; [reflexivity|].
  destruct (String.eqb (Category g) category); cbn; [reflexivity|].
  now rewrite IH.
Qed.

Lemma appendSearch_holds category sg jobGroups :
  In category (map Category jobGroups) ->
  FanOut.holds sg (FanOut.appendSearch category sg jobGroups).
Proof.
  induction jobGroups as [|g rest IH]; cbn; [easy|].
  destruct (String.eqb (Category g) category) eqn:Heq.
  - intros _. eexists. split; [now left|]. cbn. apply in_or_app. right.
    now left.
  - intros [Hg | Hin]; [apply String.eqb_neq in Heq; contradiction|].
    destruct (IH Hin) as (g' & Hg' & Hsg). exists g'. split; [now right|auto].
Qed.

Lemma appendSearch_keeps category sg sg' jobGroups :
  FanOut.holds sg' jobGroups ->
  FanOut.holds sg' (FanOut.appendSearch category sg jobGroups).
Proof.
  induction jobGroups as [|g rest IH]; intros (g' & Hg' & Hsg'); cbn;
    [destruct Hg'|].
  destruct (String.eqb (Category g) category).
  - destruct Hg' as [<- | Hg'].
    + eexists. split; [now left|]. cbn. apply in_or_app. now left.
    + exists g'. split; [now right | exact Hsg'].
  - destruct Hg' as [<- | Hg'].
    + exists g. split; [now left | exact Hsg'].
    + destruct IH as (g'' & Hg'' & Hsg''); [exists g'; auto|].
      exists g''. split; [now right | exact Hsg''].
Qed.

Lemma mergeRun_categories jobGroups r :
  map Category (FanOut.mergeRun jobGroups r) = map Category jobGroups.
Proof.
  unfold FanOut.mergeRun, FanOut.mergeSearch.
  destruct (0 <? _)%nat; [apply appendSearch_categories | reflexivity].
Qed.

Lemma mergeRun_keeps sg jobGroups r :
  FanOut.holds sg jobGroups -> FanOut.holds sg (FanOut.mergeRun jobGroups r).
Proof.
  unfold FanOut.mergeRun, FanOut.mergeSearch.
  destruct (0 <? _)%nat; [apply appendSearch_keeps | auto].
Qed.

Lemma merge_all_categories runs :
  forall jobGroups,
    map Category (fold_left FanOut.mergeRun runs jobGroups)
    = map Category jobGroups.
Proof.
  induction runs as [|r rest IH]; intros jobGroups; cbn; [reflexivity|].
  now rewrite IH, mergeRun_categories.
Qed.

Lemma merge_all_keeps sg runs :
  forall jobGroups,
    FanOut.holds sg jobGroups ->
    FanOut.holds sg (fold_left FanOut.mergeRun runs jobGroups).
Proof.
  induction runs as [|r rest IH]; intros jobGroups H; cbn; [exact H|].
  now apply IH, mergeRun_keeps.
Qed.

Lemma initJobGroups_categories categories :
  map Category (FanOut.initJobGroups categories)
  = map CategoryName categories.
Proof. unfold FanOut.initJobGroups. now rewrite map_map. Qed.

(** A run that fetched something is in the tree [main] ends up with,
    provided its category is one of the configured ones. *)
Lemma collect_holds categories runs1 r runs2 :
  In (FanOut.run_category r) (map CategoryName categories) ->
  FanOut.successes (FanOut.run_finished r) <> [] ->
  FanOut.holds (mkSearchGroup (FanOut.run_term r)
                              (FanOut.successes (FanOut.run_finished r)))
               (FanOut.collect categories (runs1 ++ r :: runs2)).
Proof.
  intros Hcat Hne. unfold FanOut.collect.
  rewrite fold_left_app. cbn [fold_left]. apply merge_all_keeps.
  unfold FanOut.mergeRun at 1, FanOut.mergeSearch.
  rewrite runSearch_result. cbn [fst Jobs].
  destruct (FanOut.successes (FanOut.run_finished r)) as [|job found] eqn:Hs;
    [contradiction|].
  cbn [List.length Nat.ltb Nat.leb]. apply appendSearch_holds.
  now rewrite merge_all_categories, initJobGroups_categories.
Qed.

Lemma mergeRun_nothing_found jobGroups r :
  FanOut.successes (FanOut.run_finished r) = [] ->
  FanOut.mergeRun jobGroups r = jobGroups.
Proof.
  intros Hs. unfold FanOut.mergeRun, FanOut.mergeSearch.
  rewrite runSearch_result. cbn [fst Jobs]. now rewrite Hs.
Qed.

Lemma merge_nothing_found runs :
  (forall r, In r runs -> FanOut.successes (FanOut.run_finished r) = []) ->
  forall jobGroups, fold_left FanOut.mergeRun runs jobGroups = jobGroups.
Proof.
  induction runs as [|r rest IH]; intros Hall jobGroups; cbn; [reflexivity|].
  rewrite mergeRun_nothing_found by (apply Hall; now left).
  apply IH. intros r' Hr'. apply Hall. now right.
Qed.

(** *** C7: one failed fetch among siblings *)

(** C7.  In one search run, let the fetch of one identifier fail.  Then,
    in whichever order the fetches finish, the failure is logged, the
    group holds exactly the postings of the sibling fetches that succeed
    (as many as if the failed identifier had not been discovered at all),
    and once the tree is persisted with nothing failing every one of those
    sibling postings has its row in [jobs]. *)
Theorem C7_failed_fetch_spares_siblings :
  forall categories category term runs1 runs2 before after jid world err
         finished,
    In category (map CategoryName categories) ->
    FanOut.jobPostings world jid = inr err ->
    Permutation (before ++ (jid, world) :: after) finished ->
    let searchGroup := fst (FanOut.runSearch term finished) in
    let lines := snd (FanOut.runSearch term finished) in
    In (jid, err) lines /\
    Permutation (Jobs searchGroup) (FanOut.successes (before ++ after)) /\
    List.length (Jobs searchGroup)
    = List.length (FanOut.successes (before ++ after)) /\
    (forall jid' world' job,
        In (jid', world') (before ++ after) ->
        FanOut.jobPostings world' jid' = inl job ->
        In job (Jobs searchGroup)) /\
    (forall eng db ts,
        SQLite.healthy eng -> SQLite.WellFormed db ->
        exists db',
          SQLite.saveJobsToSQLite eng db
            (FanOut.collect categories
               (runs1 ++ FanOut.mkRun category term finished :: runs2)) ts
          = (db', None) /\
          forall job, In job (FanOut.successes (before ++ after)) ->
                      SQLite.countJobs (JobID_ job) db' = 1%nat).
Proof.
  intros categories category term runs1 runs2 before after jid world err
         finished Hcat Herr Hperm searchGroup lines.
  subst searchGroup lines. rewrite runSearch_result. cbn [fst snd Jobs].
  assert (Hsame : FanOut.successes (before ++ (jid, world) :: after)
                  = FanOut.successes (before ++ after)).
  { rewrite !successes_app. cbn. now rewrite Herr. }
  assert (Hjobs : Permutation (FanOut.successes finished)
                              (FanOut.successes (before ++ after))).
  { rewrite <- Hsame. apply Permutation_sym. now apply successes_Permutation. }
  split; [|split; [exact Hjobs | split; [now apply Permutation_length|split]]].
  - assert (Hin : In (jid, world) finished).
    { eapply Permutation_in; [exact Hperm|]. apply in_or_app. right. now left. }
    clear - Hin Herr. induction finished as [|[j w] rest IH]; [destruct Hin|].
    cbn. destruct Hin as [[= -> ->] | Hin].
    + rewrite Herr. now left.
    + destruct (FanOut.jobPostings w j); [|right]; auto.
  - intros jid' world' job Hin Hok.
    eapply Permutation_in; [apply Permutation_sym, Hjobs|].
    eapply successes_In; eauto.
  - intros eng db ts Hok Hwf.
    destruct (save_healthy eng db
                (FanOut.collect categories
                   (runs1 ++ FanOut.mkRun category term finished :: runs2))
                ts Hok Hwf) as (db' & Hrun & He & Hcov & _).
    exists db'. split; [exact Hrun|]. intros job Hjob.
    apply one_job_row; [exact (ev_wf He)|].
    assert (Hfin : In job (FanOut.successes finished)).
    { eapply Permutation_in; [apply Permutation_sym, Hjobs | exact Hjob]. }
    destruct (collect_holds categories runs1
                (FanOut.mkRun category term finished) runs2)
      as (g & Hg & Hsg); cbn [FanOut.run_category FanOut.run_finished];
      [exact Hcat | intros Hnil; rewrite Hnil in Hfin; destruct Hfin |].
    cbn [FanOut.run_term FanOut.run_finished] in Hsg.
    now destruct (Hcov g _ job Hg Hsg Hfin).
Qed.

Lemma C7_failed_fetch_spares_siblings_witness :
  Permutation
    (Jobs (fst (FanOut.runSearch "data scientist" Scenario.oneFailure)))
    [Scenario.postingA; Scenario.postingC].
Proof.
  apply (C7_failed_fetch_spares_siblings
           getJobCategories "Data Science" "data scientist" [] []
           [("A", Scenario.detailOf Scenario.postingA)]
           [("C", Scenario.detailOf Scenario.postingC)]
           "B" (FanOut.DetailResponse 429 None) (FanOut.ErrNotOK 429)
           Scenario.oneFailure).
  - cbn. auto.
  - reflexivity.
  - cbn. apply Permutation_rev.
Defined.

(** The run of the witness, spelled out: C finished first. *)
Example one_failure_run :
  FanOut.runSearch "data scientist" Scenario.oneFailure
  = (mkSearchGroup "data scientist" [Scenario.postingC; Scenario.postingA],
     [("B", FanOut.ErrNotOK 429)]).
Proof. reflexivity. Qed.

(** *** C10: a run that fetched nothing *)

Section OnlyCategories.

Variable eng : SQLite.Engine.
Variable ts : string.
Hypothesis no_fault : forall k, SQLite.stmt_fails eng k = false.

(** Groups without searches only touch [categories]. *)
Lemma saveGroups_without_searches :
  forall jobGroups s k,
    SQLite.WellFormed s ->
    (forall g, In g jobGroups -> Searches g = []) ->
    exists s' k',
      SQLite.saveGroups eng ts jobGroups (SQLite.mkTxState s k)
      = inr (tt, SQLite.mkTxState s' k') /\
      SQLite.jobs s' = SQLite.jobs s /\
      SQLite.jobs_categories s' = SQLite.jobs_categories s /\
      SQLite.searches s' = SQLite.searches s /\
      SQLite.searches_jobs s' = SQLite.searches_jobs s /\
      SQLite.seq_searches s' = SQLite.seq_searches s.
Proof.
  induction jobGroups as [|g rest IH]; intros s k Hwf Hall.
  - exists s, k. cbn. repeat split.
  - destruct (upsertCategory_spec ts (SQLite.burns_rowid eng) (Category g) s
                Hwf) as (cid & s1 & H1 & E1 & _ & J1 & JC1 & S1 & SJ1 & Q1).
    destruct (IH s1 (S k) (ev_wf E1)) as (s' & k' & Hrun & J & JC & S' & SJ & Q).
    { intros g' Hg'. apply Hall. now right. }
    exists s', k'. split.
    + cbn [SQLite.saveGroups]. unfold SQLite.bind.
      rewrite (exec_ok eng no_fault _ _ _ _ _ _ H1).
      rewrite (Hall g (or_introl eq_refl)). cbn [SQLite.saveSearches SQLite.ret].
      exact Hrun.
    + repeat split; congruence.
Qed.

End OnlyCategories.

(** C10.  A (category, searchTerm) run whose fetches deliver no posting
    appends nothing: the tree is the one [main] would hold had the run not
    taken place, so what either sink writes is the same.  When every run
    comes up empty the tree is the initial one, a category with no search
    group for each configured category, and persisting it adds no row to
    [jobs], [searches], [jobs_categories] or [searches_jobs]. *)
Theorem C10_empty_run_leaves_no_group :
  (forall jobGroups r,
      FanOut.successes (FanOut.run_finished r) = [] ->
      FanOut.mergeRun jobGroups r = jobGroups) /\
  (forall categories runs1 r runs2,
      FanOut.successes (FanOut.run_finished r) = [] ->
      FanOut.collect categories (runs1 ++ r :: runs2)
      = FanOut.collect categories (runs1 ++ runs2)) /\
  (forall categories runs eng db ts,
      (forall r, In r runs ->
                 FanOut.successes (FanOut.run_finished r) = []) ->
      SQLite.healthy eng -> SQLite.WellFormed db ->
      FanOut.collect categories runs = FanOut.initJobGroups categories /\
      exists db',
        SQLite.saveJobsToSQLite eng db (FanOut.collect categories runs) ts
        = (db', None) /\
        SQLite.jobs db' = SQLite.jobs db /\
        SQLite.searches db' = SQLite.searches db /\
        SQLite.jobs_categories db' = SQLite.jobs_categories db /\
        SQLite.searches_jobs db' = SQLite.searches_jobs db).
Proof.
  split; [exact mergeRun_nothing_found | split].
  - intros categories runs1 r runs2 Hs. unfold FanOut.collect.
    rewrite !fold_left_app. cbn [fold_left].
    now rewrite mergeRun_nothing_found.
  - intros categories runs eng db ts Hall
           (Hopen & Hpragma & Hcreate & Hbegin & Hstmt & Hcommit) Hwf.
    assert (Htree : FanOut.collect categories runs
                    = FanOut.initJobGroups categories)
      by (now apply merge_nothing_found).
    split; [exact Htree|]. rewrite Htree.
    destruct (saveGroups_without_searches eng ts Hstmt
                (FanOut.initJobGroups categories) db 0 Hwf)
      as (db' & k' & Hrun & J & JC & S' & SJ & _).
    { intros g Hg. unfold FanOut.initJobGroups in Hg.
      apply in_map_iff in Hg as (cat & <- & _). reflexivity. }
    exists db'. split; [|auto].
    unfold SQLite.saveJobsToSQLite.
    rewrite Hopen, Hpragma, Hbegin, Hrun, Hcommit.
    cbn [seq existsb]. rewrite !Hcreate. reflexivity.
Qed.

Lemma C10_empty_run_leaves_no_group_witness :
  FanOut.collect getJobCategories
    [ FanOut.mkRun "Security" "security engineer"
                   [("B", FanOut.DetailResponse 429 None)];
      FanOut.mkRun "Security" "security analyst" [] ]
  = FanOut.initJobGroups getJobCategories.
Proof.
  apply (proj2 (proj2 C10_empty_run_leaves_no_group)
           getJobCategories _ (SQLite.reliable false) SQLite.emptyStore
           "2025-02-01T00:00:00Z").
  - intros r [<- | [<- | []]]; reflexivity.
  - apply reliable_healthy.
  - apply emptyStore_WellFormed.
Defined.

(* ===================================================================== *)
(** ** The flat sink                                                      *)
(* ===================================================================== *)

Lemma drop_all s : Flat.drop (String.length s) s = EmptyString.
Proof. induction s as [|c s IH]; cbn; auto. Qed.

Lemma drop_beyond n s :
  (String.length s <= n)%nat -> Flat.drop n s = EmptyString.
Proof.
  revert n. induction s as [|c s IH]; intros [|n] H; cbn in *; auto; try lia.
  apply IH. lia.
Qed.

Lemma drop_within n s :
  (n < String.length s)%nat -> Flat.drop n s <> EmptyString.
Proof.
  revert n. induction s as [|c s IH]; intros [|n] H; cbn in *; try lia;
    try discriminate.
  apply IH. lia.
Qed.

(** On a file system where nothing fails, the file afterwards is the
    encoding written over the start of the previous content. *)
Lemma saveJobsToFile_content quote previous jobGroups :
  Flat.saveJobsToFile quote (Scenario.diskWith previous) jobGroups
  = (Some (Flat.writeAt0 (match previous with
                          | Some content => content
                          | None => EmptyString
                          end)
                         (Flat.encode quote jobGroups)),
     None).
Proof. reflexivity. Qed.

(** When there was no file, or one no longer than the encoding, the file
    afterwards is exactly the encoding. *)
Lemma saveJobsToFile_no_longer_file quote previous jobGroups :
  (String.length (match previous with
                  | Some content => content
                  | None => EmptyString
                  end)
   <= String.length (Flat.encode quote jobGroups))%nat ->
  Flat.saveJobsToFile quote (Scenario.diskWith previous) jobGroups
  = (Some (Flat.encode quote jobGroups), None).
Proof.
  intros H. rewrite saveJobsToFile_content. unfold Flat.writeAt0.
  now rewrite drop_beyond, append_empty_r.
Qed.

(** When the file was longer than the encoding, its tail is still there. *)
Lemma saveJobsToFile_longer_file quote content jobGroups :
  (String.length (Flat.encode quote jobGroups) < String.length content)%nat ->
  exists tail,
    tail <> EmptyString /\
    tail = Flat.drop (String.length (Flat.encode quote jobGroups)) content /\
    Flat.saveJobsToFile quote (Scenario.diskWith (Some content)) jobGroups
    = (Some (Flat.encode quote jobGroups ++ tail)%string, None).
Proof.
  intros H. eexists. split; [|split; [reflexivity|]].
  - now apply drop_within.
  - apply saveJobsToFile_content.
Qed.

(** C3 (the code departs from it).  The file left by a run that found one
    posting is longer than the encoding of a later run that found none.
    [saveJobsToFile] opens it without truncating, so after the later run
    the file is the new encoding followed by what the old content had
    beyond that length, not the new encoding alone. *)
Theorem C3_previous_tail_survives :
  let previous := Flat.encode Flat.quotePlain Scenario.busyTree in
  let current := Flat.encode Flat.quotePlain Scenario.quietTree in
  let tail := Flat.drop (String.length current) previous in
  Flat.saveJobsToFile Flat.quotePlain (Scenario.diskWith (Some previous))
                      Scenario.quietTree
  = (Some (current ++ tail)%string, None) /\
  String.length tail = 115%nat /\
  (current ++ tail)%string <> current.
Proof.
  cbv zeta. split; [reflexivity|]. split; [reflexivity|].
  vm_compute. discriminate.
Qed.

(* ===================================================================== *)
(** ** Further properties: the description analyzer                       *)
(* ===================================================================== *)

Lemma batchLoop_concat limit :
  forall jobs batches current count,
    List.concat (Analyzer.batchLoop limit jobs batches current count)
    = List.concat batches ++ current ++ jobs.
Proof.
  induction jobs as [|job rest IH]; intros batches current count.
  - cbn [Analyzer.batchLoop]. rewrite app_nil_r.
    destruct current as [|j current]; cbn [List.length Nat.ltb Nat.leb].
    + now rewrite app_nil_r.
    + rewrite concat_app. cbn [List.concat]. now rewrite app_nil_r.
  - cbn [Analyzer.batchLoop]. cbn zeta.
    destruct (_ && _); rewrite IH.
    + rewrite concat_app. cbn [List.concat app].
      now rewrite app_nil_r, <- app_assoc.
    + now rewrite <- !app_assoc.
Qed.

Lemma batchLoop_no_empty limit :
  forall jobs batches current count,
    Forall (fun b => b <> []) batches ->
    Forall (fun b => b <> []) (Analyzer.batchLoop limit jobs batches current count).
Proof.
  induction jobs as [|job rest IH]; intros batches current count Hne.
  - cbn [Analyzer.batchLoop].
    destruct current as [|j current]; cbn [List.length Nat.ltb Nat.leb];
      [exact Hne|].
    apply Forall_app. split; [exact Hne|]. now repeat constructor.
  - cbn [Analyzer.batchLoop]. cbn zeta.
    destruct (_ && _) eqn:Hsplit; apply IH; [|exact Hne].
    apply andb_true_iff in Hsplit as [_ Hlen].
    apply Forall_app. split; [exact Hne|]. repeat constructor.
    intros ->. discriminate.
Qed.

(** X1.  [createBatches] only cuts the list of jobs: whatever the limit,
    the batches laid end to end are the input, every job once and in its
    place. *)
Theorem createBatches_partitions_the_jobs :
  (forall limit jobs,
      List.concat (Analyzer.createBatchesWith limit jobs) = jobs) /\
  (forall jobs, List.concat (Analyzer.createBatches jobs) = jobs).
Proof.
  assert (H : forall limit jobs,
             List.concat (Analyzer.createBatchesWith limit jobs) = jobs).
  { intros limit jobs. unfold Analyzer.createBatchesWith.
    now rewrite batchLoop_concat. }
  split; [exact H|]. intros jobs. apply H.
Qed.

(** X2.  [createBatches] never returns an empty batch; so there are at most
    as many batches as jobs, and none exactly when there is no job. *)
Theorem createBatches_has_no_empty_batch :
  forall limit jobs,
    Forall (fun b => b <> []) (Analyzer.createBatchesWith limit jobs) /\
    (List.length (Analyzer.createBatchesWith limit jobs)
     <= List.length jobs)%nat /\
    (Analyzer.createBatchesWith limit jobs = [] <-> jobs = []).
Proof.
  intros limit jobs.
  assert (Hne : Forall (fun b => b <> [])
                       (Analyzer.createBatchesWith limit jobs)).
  { apply batchLoop_no_empty. constructor. }
  assert (Hcat : List.concat (Analyzer.createBatchesWith limit jobs) = jobs).
  { unfold Analyzer.createBatchesWith. now rewrite batchLoop_concat. }
  split; [exact Hne|]. split.
  - rewrite <- Hcat at 2. clear Hcat.
    induction Hne as [|b l Hb _ IH]; cbn; [lia|].
    rewrite length_app. destruct b; [contradiction|]. cbn. lia.
  - split.
    + intros Hnil. now rewrite Hnil in Hcat.
    + intros ->. reflexivity.
Qed.

Lemma chars_app a b : chars (a ++ b) = (chars a + chars b)%Z.
Proof.
  unfold chars. induction a as [|j a IH]; cbn [app fold_right]; [lia|].
  rewrite IH. lia.
Qed.

Lemma chars_single job :
  chars [job] = Analyzer.len (Analyzer.InputDescription job).
Proof. unfold chars. cbn. lia. Qed.

Lemma len_nonneg s : (0 <= Analyzer.len s)%Z.
Proof. unfold Analyzer.len. lia. Qed.

Lemma chars_nonneg b : (0 <= chars b)%Z.
Proof.
  unfold chars. induction b as [|j b IH]; cbn [fold_right]; [lia|].
  pose proof (len_nonneg (Analyzer.InputDescription j)). lia.
Qed.

(** While the descriptions fit a Go [int], the counter of the loop is the
    size of the current batch. *)
Lemma count_exact current job rest :
  (chars current + chars (job :: rest) <= GoInt.max_int)%Z ->
  GoInt.add (chars current) (Analyzer.len (Analyzer.InputDescription job))
  = chars (current ++ [job]).
Proof.
  intros Hfit. rewrite chars_app, chars_single.
  apply add_exact.
  pose proof (chars_nonneg current). pose proof (chars_nonneg rest).
  pose proof (len_nonneg (Analyzer.InputDescription job)).
  change (chars (job :: rest))
    with (Analyzer.len (Analyzer.InputDescription job) + chars rest)%Z in Hfit.
  unfold GoInt.in_range, GoInt.min_int, GoInt.max_int in *. lia.
Qed.

Section Budget.

Variable limit : Z.

Lemma batchLoop_within :
  forall jobs batches current,
    (chars current + chars jobs <= GoInt.max_int)%Z ->
    ((chars current <= limit)%Z \/ (List.length current <= 1)%nat) ->
    Forall (withinBudget limit) batches ->
    Forall (withinBudget limit)
           (Analyzer.batchLoop limit jobs batches current (chars current)).
Proof.
  assert (Hclose : forall current,
             ((chars current <= limit)%Z \/ (List.length current <= 1)%nat) ->
             (0 <? List.length current)%nat = true -> (withinBudget limit) current).
  { intros current [Hle | Hone] Hpos; [now left|].
    destruct current as [|j [|j' current]]; cbn in *; try discriminate;
      try lia.
    right. now exists j. }
  induction jobs as [|job rest IH]; intros batches current Hfit Hinv Hall.
  - cbn [Analyzer.batchLoop].
    destruct (0 <? List.length current)%nat eqn:Hpos; [|exact Hall].
    apply Forall_app. split; [exact Hall|]. constructor; [auto|constructor].
  - cbn [Analyzer.batchLoop]. cbn zeta.
    pose proof (count_exact current job rest Hfit) as Hcount.
    pose proof (chars_nonneg current) as Hc0.
    pose proof (chars_nonneg rest) as Hr0.
    pose proof (len_nonneg (Analyzer.InputDescription job)) as Hj0.
    change (chars (job :: rest))
      with (Analyzer.len (Analyzer.InputDescription job) + chars rest)%Z
      in Hfit.
    rewrite Hcount.
    destruct (chars (current ++ [job]) >? limit)%Z eqn:Hover; cbn [andb];
      [destruct (0 <? List.length current)%nat eqn:Hpos|].
    + (* the batch is closed and [job] opens the next *)
      replace (GoInt.add 0 (Analyzer.len (Analyzer.InputDescription job)))
        with (chars ([] ++ [job])).
      2:{ cbn [app]. rewrite chars_single. symmetry. apply add_exact.
          unfold GoInt.in_range, GoInt.min_int, GoInt.max_int in *. lia. }
      apply IH.
      * cbn [app]. rewrite chars_single. lia.
      * right. cbn. lia.
      * apply Forall_app. split; [exact Hall|].
        constructor; [auto|constructor].
    + (* [current] is empty: [job] goes in, whatever its size *)
      rewrite Hcount. apply IH.
      * rewrite chars_app, chars_single. lia.
      * right. destruct current; [cbn; lia | discriminate].
      * exact Hall.
    + (* [job] fits *)
      rewrite Hcount. apply IH.
      * rewrite chars_app, chars_single. lia.
      * left. rewrite Z.gtb_ltb, Z.ltb_ge in Hover. exact Hover.
      * exact Hall.
Qed.

Lemma chained_grow :
  forall batches current more,
    current <> [] ->
    chained limit (batches ++ [current]) ->
    chained limit (batches ++ [current ++ more]).
Proof.
  induction batches as [|b [|b' batches] IH]; intros current more Hne H.
  - exact I.
  - cbn in *. destruct H as [(job & rest & -> & Hover) _]. split; [|exact I].
    exists job, (rest ++ more). auto.
  - change (chained limit (b :: b' :: batches ++ [current])) in H.
    change (chained limit (b :: b' :: batches ++ [current ++ more])).
    cbn [chained] in *. destruct H as [H1 H2]. split; [exact H1|].
    now apply (IH current more).
Qed.

Lemma chained_close :
  forall batches current next,
    chained limit (batches ++ [current]) ->
    overflows limit current next ->
    chained limit ((batches ++ [current]) ++ [next]).
Proof.
  induction batches as [|b [|b' batches] IH]; intros current next H Hover.
  - cbn. destruct Hover as (job & rest & -> & H'). split; [|exact I].
    exists job, rest. auto.
  - cbn in *. destruct H as [H1 _]. split; [exact H1|].
    destruct Hover as (job & rest & -> & H'). split; [|exact I].
    exists job, rest. auto.
  - change (chained limit (b :: b' :: batches ++ [current])) in H.
    change (chained limit (b :: (b' :: batches ++ [current]) ++ [next])).
    cbn [chained app] in *. destruct H as [H1 H2]. split; [exact H1|].
    now apply (IH current next).
Qed.

Lemma batchLoop_chained :
  forall jobs batches current,
    current <> [] ->
    (chars current + chars jobs <= GoInt.max_int)%Z ->
    chained limit (batches ++ [current]) ->
    chained limit
            (Analyzer.batchLoop limit jobs batches current (chars current)).
Proof.
  induction jobs as [|job rest IH]; intros batches current Hne Hfit Hch.
  - cbn [Analyzer.batchLoop]. destruct current; [contradiction|]. exact Hch.
  - cbn [Analyzer.batchLoop]. cbn zeta.
    pose proof (count_exact current job rest Hfit) as Hcount.
    pose proof (chars_nonneg current) as Hc0.
    pose proof (chars_nonneg rest) as Hr0.
    pose proof (len_nonneg (Analyzer.InputDescription job)) as Hj0.
    change (chars (job :: rest))
      with (Analyzer.len (Analyzer.InputDescription job) + chars rest)%Z
      in Hfit.
    rewrite Hcount.
    assert (Hpos : (0 <? List.length current)%nat = true)
      by (destruct current; [contradiction | reflexivity]).
    rewrite Hpos, andb_true_r.
    destruct (chars (current ++ [job]) >? limit)%Z eqn:Hover.
    + replace (GoInt.add 0 (Analyzer.len (Analyzer.InputDescription job)))
        with (chars ([] ++ [job])).
      2:{ cbn [app]. rewrite chars_single. symmetry. apply add_exact.
          unfold GoInt.in_range, GoInt.min_int, GoInt.max_int in *. lia. }
      apply IH.
      * discriminate.
      * cbn [app]. rewrite chars_single. lia.
      * apply chained_close; [exact Hch|].
        exists job, []. split; [reflexivity|].
        rewrite chars_app, chars_single in Hover.
        rewrite Z.gtb_ltb, Z.ltb_lt in Hover. lia.
    + rewrite Hcount. apply IH.
      * intros H. apply app_eq_nil in H as [_ H]. discriminate.
      * rewrite chars_app, chars_single. lia.
      * now apply chained_grow.
Qed.

Lemma chained_at :
  forall before b1 b2 after,
    chained limit (before ++ b1 :: b2 :: after) -> overflows limit b1 b2.
Proof.
  induction before as [|b [|b' before] IH]; intros b1 b2 after H.
  - cbn in H. apply H.
  - cbn in H. apply H.
  - change (chained limit (b :: b' :: before ++ b1 :: b2 :: after)) in H.
    cbn [chained] in H. destruct H as [_ H]. exact (IH b1 b2 after H).
Qed.

End Budget.

(** X3.  While the descriptions together fit a Go [int], every batch
    [createBatches] returns carries at most the limit in characters, unless
    it is a single job (one whose description alone exceeds the limit is
    sent by itself, not rejected).  The limit the code computes is 50000. *)
Theorem createBatches_keeps_to_the_limit :
  forall jobs,
    (chars jobs <= GoInt.max_int)%Z ->
    (forall limit,
        Forall (withinBudget limit) (Analyzer.createBatchesWith limit jobs)) /\
    Forall (withinBudget 50000) (Analyzer.createBatches jobs).
Proof.
  intros jobs Hfit.
  assert (H : forall limit,
             Forall (withinBudget limit)
                    (Analyzer.createBatchesWith limit jobs)).
  { intros limit. unfold Analyzer.createBatchesWith.
    change 0%Z with (chars []).
    apply batchLoop_within; [exact Hfit | right; cbn; lia | constructor]. }
  split; [exact H|]. apply (H 50000%Z).
Qed.

Lemma createBatches_keeps_to_the_limit_witness :
  Forall (withinBudget 10) (Analyzer.createBatchesWith 10 Samples.fiveJobs).
Proof.
  apply (createBatches_keeps_to_the_limit Samples.fiveJobs).
  unfold GoInt.max_int. cbn. lia.
Defined.

(** The batches of the sample: the third job exceeds the limit of 10 and
    travels alone. *)
Example five_jobs_in_three_batches :
  map (map Analyzer.InputJobID)
      (Analyzer.createBatchesWith 10 Samples.fiveJobs)
  = [["1"; "2"]; ["3"]; ["4"; "5"]].
Proof. reflexivity. Qed.

(** X4.  [createBatches] closes a batch only when it must: while the
    descriptions together fit a Go [int], the first job of every batch
    after the first would have taken the batch before it over the limit. *)
Theorem createBatches_fills_each_batch :
  forall jobs,
    (chars jobs <= GoInt.max_int)%Z ->
    forall limit before b1 b2 after,
      Analyzer.createBatchesWith limit jobs = before ++ b1 :: b2 :: after ->
      overflows limit b1 b2.
Proof.
  intros jobs Hfit limit before b1 b2 after Heq.
  apply (chained_at limit before b1 b2 after). rewrite <- Heq.
  unfold Analyzer.createBatchesWith. destruct jobs as [|job rest]; [exact I|].
  cbn [Analyzer.batchLoop List.length Nat.ltb Nat.leb andb]. cbn zeta.
  rewrite andb_false_r.
  replace (GoInt.add 0 (Analyzer.len (Analyzer.InputDescription job)))
    with (chars ([] ++ [job])).
  - apply batchLoop_chained; [discriminate | | exact I].
    cbn [app]. rewrite chars_single. exact Hfit.
  - cbn [app]. rewrite chars_single. symmetry. apply add_exact.
    pose proof (chars_nonneg rest).
    pose proof (len_nonneg (Analyzer.InputDescription job)).
    change (chars (job :: rest))
      with (Analyzer.len (Analyzer.InputDescription job) + chars rest)%Z
      in Hfit.
    unfold GoInt.in_range, GoInt.min_int, GoInt.max_int in *. lia.
Qed.

Lemma createBatches_fills_each_batch_witness :
  overflows 10 [Samples.job "3" "cccccccccccc"]
            [Samples.job "4" "ddd"; Samples.job "5" "eee"].
Proof.
  apply (createBatches_fills_each_batch Samples.fiveJobs)
    with (before := [[Samples.job "1" "aaaa"; Samples.job "2" "bbbb"]])
         (after := @nil (list Analyzer.JobInput)).
  - unfold GoInt.max_int. cbn. lia.
  - reflexivity.
Defined.

(** *** The call and its retries *)

(** X5.  [processBatch] calls the service until a call returns without
    error, three times at most, sleeping 1, 2 and 4 seconds after the
    first, second and third failure (so also after the last one).  A
    response that was received is never asked for again, even when it has
    no content or does not parse.  In every case it makes between one and
    three calls and only adds to the time slept. *)
Theorem processBatch_retries_three_times :
  forall api batchJobs e,
    let p := Analyzer.prompt batchJobs in
    let n := Analyzer.calls e in
    let slept := Analyzer.sleeps e in
    (forall resp,
        api n p = Analyzer.CallOk resp ->
        Analyzer.processBatch api batchJobs e
        = (answer resp, Analyzer.mkEffects (S n) slept)) /\
    (forall resp,
        api n p = Analyzer.CallError ->
        api (S n) p = Analyzer.CallOk resp ->
        Analyzer.processBatch api batchJobs e
        = (answer resp, Analyzer.mkEffects (S (S n)) (slept ++ [1%Z]))) /\
    (forall resp,
        api n p = Analyzer.CallError ->
        api (S n) p = Analyzer.CallError ->
        api (S (S n)) p = Analyzer.CallOk resp ->
        Analyzer.processBatch api batchJobs e
        = (answer resp,
           Analyzer.mkEffects (S (S (S n))) (slept ++ [1%Z; 2%Z]))) /\
    (api n p = Analyzer.CallError ->
     api (S n) p = Analyzer.CallError ->
     api (S (S n)) p = Analyzer.CallError ->
     Analyzer.processBatch api batchJobs e
     = (inr Analyzer.ApiCallFailed,
        Analyzer.mkEffects (S (S (S n))) (slept ++ [1%Z; 2%Z; 4%Z]))) /\
    (n < Analyzer.calls (snd (Analyzer.processBatch api batchJobs e))
     <= n + 3)%nat /\
    (exists more,
        Analyzer.sleeps (snd (Analyzer.processBatch api batchJobs e))
        = slept ++ more).
Proof.
  intros api batchJobs [n slept] p n' slept'. subst n' slept'.
  cbn [Analyzer.calls Analyzer.sleeps].
  unfold Analyzer.processBatch, Analyzer.maxRetries.
  cbn [Analyzer.attempts Analyzer.calls Analyzer.sleeps]. fold p.
  assert (Hsame : forall resp (eff : Analyzer.Effects),
             (if negb (Analyzer.hasContent resp)
              then (inr Analyzer.NoCandidates, eff)
              else match Analyzer.parsed resp with
                   | Some batchAnalysis => (inl batchAnalysis, eff)
                   | None => (inr Analyzer.UnmarshalFailed, eff)
                   end)
             = (answer resp, eff)).
  { intros resp eff. unfold answer.
    destruct (Analyzer.hasContent resp), (Analyzer.parsed resp); reflexivity. }
  repeat split.
  - intros resp H0. rewrite H0. apply Hsame.
  - intros resp H0 H1. rewrite H0, H1. apply Hsame.
  - intros resp H0 H1 H2. rewrite H0, H1, H2. rewrite <- app_assoc.
    apply Hsame.
  - intros H0 H1 H2. rewrite H0, H1, H2. now rewrite <- !app_assoc.
  - destruct (api n p) as [|r0]; [|rewrite Hsame; cbn; lia].
    destruct (api (S n) p) as [|r1]; [|rewrite Hsame; cbn; lia].
    destruct (api (S (S n)) p) as [|r2]; [|rewrite Hsame; cbn; lia].
    cbn. lia.
  - destruct (api n p) as [|r0]; [|rewrite Hsame; cbn; lia].
    destruct (api (S n) p) as [|r1]; [|rewrite Hsame; cbn; lia].
    destruct (api (S (S n)) p) as [|r2]; [|rewrite Hsame; cbn; lia].
    cbn. lia.
  - destruct (api n p) as [|r0];
      [|rewrite Hsame; exists []; cbn; now rewrite app_nil_r].
    destruct (api (S n) p) as [|r1];
      [|rewrite Hsame; eexists; cbn; reflexivity].
    destruct (api (S (S n)) p) as [|r2];
      [|rewrite Hsame; eexists; cbn; now rewrite <- app_assoc].
    eexists. cbn. now rewrite <- !app_assoc.
Qed.

Lemma processBatch_retries_three_times_witness :
  Analyzer.processBatch Samples.thirdTimeLucky Samples.fiveJobs
                        (Analyzer.mkEffects 0 [])
  = (inr Analyzer.UnmarshalFailed, Analyzer.mkEffects 3 [1%Z; 2%Z]).
Proof.
  exact (proj1 (proj2 (proj2
           (processBatch_retries_three_times
              Samples.thirdTimeLucky Samples.fiveJobs
              (Analyzer.mkEffects 0 []))))
           (Analyzer.mkResponse true None) eq_refl eq_refl eq_refl).
Defined.

(** *** From the jobs to the analyses *)

Lemma processBatches_obliging api (f : Analyzer.JobInput -> Analyzer.JobAnalysis) :
  forall batches finalResults e,
    (forall i b, nth_error batches i = Some b ->
                 api (Analyzer.calls e + i)%nat (Analyzer.prompt b)
                 = Analyzer.CallOk
                     (Analyzer.mkResponse true (Some (map f b)))) ->
    Analyzer.processBatches api batches finalResults e
    = (finalResults ++ map f (List.concat batches),
       Analyzer.mkEffects (Analyzer.calls e + List.length batches)
                          (Analyzer.sleeps e)).
Proof.
  induction batches as [|b rest IH]; intros finalResults [n slept] Hapi.
  - cbn. now rewrite app_nil_r, Nat.add_0_r.
  - cbn [Analyzer.processBatches].
    pose proof (Hapi 0%nat b eq_refl) as H0.
    cbn [Analyzer.calls] in H0. rewrite Nat.add_0_r in H0.
    unfold Analyzer.processBatch, Analyzer.maxRetries.
    cbn [Analyzer.attempts Analyzer.calls Analyzer.sleeps].
    rewrite H0. cbn [Analyzer.hasContent Analyzer.parsed negb].
    rewrite IH.
    + cbn [Analyzer.calls Analyzer.sleeps List.concat List.length].
      rewrite map_app, app_assoc. do 2 f_equal. lia.
    + intros i b' Hb'. cbn [Analyzer.calls].
      replace (S n + i)%nat with (n + S i)%nat by lia.
      exact (Hapi (S i) b' Hb').
Qed.

(** X6.  When the service answers the call made for each batch with one
    analysis per job of that batch, in order, [main] prints one analysis
    per input job, in input order, after one call per batch and without
    sleeping: batching and collecting lose, repeat and reorder nothing. *)
Theorem analyze_answers_every_job :
  forall api jobs (f : Analyzer.JobInput -> Analyzer.JobAnalysis),
    (forall i b,
        nth_error (Analyzer.createBatches jobs) i = Some b ->
        api i (Analyzer.prompt b)
        = Analyzer.CallOk (Analyzer.mkResponse true (Some (map f b)))) ->
    Analyzer.analyze api jobs
    = (map f jobs,
       Analyzer.mkEffects (List.length (Analyzer.createBatches jobs)) []).
Proof.
  intros api jobs f Hapi. unfold Analyzer.analyze.
  rewrite (processBatches_obliging api f); [|exact Hapi].
  cbn [app Analyzer.calls Analyzer.sleeps Nat.add].
  unfold Analyzer.createBatches, Analyzer.createBatchesWith.
  now rewrite batchLoop_concat.
Qed.

Lemma analyze_answers_every_job_witness :
  Analyzer.analyze
    (Samples.obliging (Analyzer.createBatches Samples.fiveJobs))
    Samples.fiveJobs
  = (map Samples.bare Samples.fiveJobs,
     Analyzer.mkEffects
       (List.length (Analyzer.createBatches Samples.fiveJobs)) []).
Proof.
  apply analyze_answers_every_job.
  intros i b Hb. unfold Samples.obliging. now rewrite Hb.
Defined.

(* ===================================================================== *)
(** ** Further properties: the sequential driver                          *)
(* ===================================================================== *)

Lemma mainLoop_all_good :
  forall listings out,
    Forall (fun task => exists j, Sequential.jobPostings (snd task)
                                  = (Some j, None)) listings ->
    exists lines,
      Sequential.mainLoop listings out = (Sequential.Finished, out ++ lines) /\
      List.length lines = (2 * List.length listings)%nat /\
      forall rest,
        Sequential.mainLoop (listings ++ rest) out
        = Sequential.mainLoop rest (out ++ lines).
Proof.
  induction listings as [|[jid world] listings IH]; intros out Hall.
  - exists []. cbn. rewrite app_nil_r. auto.
  - inversion Hall as [|? ? (j & Hj) Hrest]; subst. cbn [snd] in Hj.
    destruct (IH ((out ++ [Sequential.Fetching jid])
                    ++ [Sequential.Summary (Sequential.Company j)
                                           (Sequential.Title j) jid])
                 Hrest) as (lines & Hrun & Hlen & Hgo).
    exists (Sequential.Fetching jid
            :: Sequential.Summary (Sequential.Company j)
                                  (Sequential.Title j) jid
            :: lines).
    assert (Hshape : forall l : list Sequential.Line,
               ((out ++ [Sequential.Fetching jid])
                  ++ [Sequential.Summary (Sequential.Company j)
                                         (Sequential.Title j) jid]) ++ l
               = out ++ Sequential.Fetching jid
                     :: Sequential.Summary (Sequential.Company j)
                                           (Sequential.Title j) jid :: l).
    { intros l. now rewrite <- !app_assoc. }
    split; [|split].
    + cbn [Sequential.mainLoop]. rewrite Hj, Hrun. now rewrite Hshape.
    + cbn [List.length]. lia.
    + intros rest. cbn [app Sequential.mainLoop]. rewrite Hj, Hgo.
      now rewrite Hshape.
Qed.

(** X7.  The sequential driver stops at the first failed fetch: having
    logged the error it reads a field of the nil posting.  The lines written
    are two per identifier fetched before (the announcement and the
    summary), then the announcement and the error of the failed one; the
    identifiers after it are never fetched.  When no fetch fails it
    finishes, with two lines per identifier. *)
Theorem sequential_main_stops_at_first_failure :
  forall good jid world err rest,
    Forall (fun task => exists j, Sequential.jobPostings (snd task)
                                  = (Some j, None)) good ->
    Sequential.jobPostings world = (None, Some err) ->
    (exists lines,
        Sequential.mainLoop (good ++ (jid, world) :: rest) []
        = (Sequential.NilPointerDereference,
           lines ++ [Sequential.Fetching jid; Sequential.CouldNotGet jid err])
        /\ List.length lines = (2 * List.length good)%nat) /\
    (exists lines,
        Sequential.mainLoop good [] = (Sequential.Finished, lines) /\
        List.length lines = (2 * List.length good)%nat).
Proof.
  intros good jid world err rest Hgood Hbad.
  destruct (mainLoop_all_good good [] Hgood) as (lines & Hrun & Hlen & Hgo).
  split; exists lines; (split; [|exact Hlen]).
  - rewrite Hgo. cbn [app Sequential.mainLoop]. rewrite Hbad.
    now rewrite <- app_assoc.
  - exact Hrun.
Qed.

Lemma sequential_main_stops_at_first_failure_witness :
  exists lines,
    Sequential.mainLoop
      [ ("A", Scenario.detailOf Scenario.postingA);
        ("B", FanOut.DetailResponse 429 None);
        ("C", Scenario.detailOf Scenario.postingC) ] []
    = (Sequential.NilPointerDereference,
       lines ++ [Sequential.Fetching "B";
                 Sequential.CouldNotGet "B" (FanOut.ErrNotOK 429)])
    /\ List.length lines = 2%nat.
Proof.
  refine (proj1 (sequential_main_stops_at_first_failure
                   [("A", Scenario.detailOf Scenario.postingA)] "B"
                   (FanOut.DetailResponse 429 None) (FanOut.ErrNotOK 429)
                   [("C", Scenario.detailOf Scenario.postingC)] _ eq_refl)).
  constructor; [|constructor]. eexists. reflexivity.
Defined.

(* ===================================================================== *)
(** ** Further properties: the fan-out and the tree                       *)
(* ===================================================================== *)

Lemma successes_origin tasks :
  forall job,
    In job (FanOut.successes tasks) ->
    exists world content,
      In (JobID_ job, world) tasks /\
      world = FanOut.DetailResponse Listing.StatusOK (Some content) /\
      job = mkJobPosting (JobID_ job) (FanOut.Name content)
                         (FanOut.Text content) (FanOut.Title_ content).
Proof.
  induction tasks as [|[jid world] rest IH]; intros job Hin; [destruct Hin|].
  cbn [FanOut.successes] in Hin.
  destruct (FanOut.jobPostings world jid) as [job'|err] eqn:Hfetch.
  - destruct Hin as [<- | Hin].
    + unfold FanOut.jobPostings in Hfetch.
      destruct world as [| |status [content|]]; try discriminate.
      * destruct (status =? Listing.StatusOK)%Z eqn:Hs; cbn [negb] in Hfetch;
          [|discriminate].
        apply Z.eqb_eq in Hs. subst status. injection Hfetch as <-. cbn.
        exists (FanOut.DetailResponse Listing.StatusOK (Some content)), content.
        split; [now left | split; reflexivity].
      * destruct (status =? Listing.StatusOK)%Z; discriminate.
    + destruct (IH job Hin) as (w & c & Hw & Hrest).
      exists w, c. split; [now right | exact Hrest].
  - destruct (IH job Hin) as (w & c & Hw & Hrest).
    exists w, c. split; [now right | exact Hrest].
Qed.

Lemma failures_origin tasks :
  forall jid err,
    In (jid, err) (FanOut.failures tasks) ->
    exists world, In (jid, world) tasks /\ FanOut.jobPostings world jid = inr err.
Proof.
  induction tasks as [|[jid' world] rest IH]; intros jid err Hin;
    [destruct Hin|].
  cbn [FanOut.failures] in Hin.
  destruct (FanOut.jobPostings world jid') as [job|err'] eqn:Hfetch.
  - destruct (IH jid err Hin) as (w & Hw & He). exists w. split; [now right|auto].
  - destruct Hin as [[= <- <-] | Hin].
    + exists world. split; [now left | exact Hfetch].
    + destruct (IH jid err Hin) as (w & Hw & He).
      exists w. split; [now right|auto].
Qed.

Lemma successes_failures_length tasks :
  (List.length (FanOut.successes tasks) + List.length (FanOut.failures tasks)
   = List.length tasks)%nat.
Proof.
  induction tasks as [|[jid world] rest IH]; [reflexivity|].
  cbn [FanOut.successes FanOut.failures].
  destruct (FanOut.jobPostings world jid); cbn [List.length]; lia.
Qed.

(** X8.  One search run accounts for every fetch it started: each either
    adds one posting to the group or leaves one log line, so postings and
    log lines together are as many as the fetches.  Every posting of the
    group answers a fetch for that very identifier and is built from a 200
    response that decoded; every log line is the error of a fetch for the
    identifier it names. *)
Theorem runSearch_accounts_for_every_fetch :
  forall term finished,
    let searchGroup := fst (FanOut.runSearch term finished) in
    let lines := snd (FanOut.runSearch term finished) in
    SearchTerm searchGroup = term /\
    (List.length (Jobs searchGroup) + List.length lines
     = List.length finished)%nat /\
    (forall job,
        In job (Jobs searchGroup) ->
        exists world content,
          In (JobID_ job, world) finished /\
          world = FanOut.DetailResponse Listing.StatusOK (Some content) /\
          job = mkJobPosting (JobID_ job) (FanOut.Name content)
                             (FanOut.Text content) (FanOut.Title_ content)) /\
    (forall jid err,
        In (jid, err) lines ->
        exists world,
          In (jid, world) finished /\ FanOut.jobPostings world jid = inr err).
Proof.
  intros term finished. cbv zeta. rewrite runSearch_result. cbn [fst snd].
  split; [reflexivity|]. split; [apply successes_failures_length|].
  split; [apply successes_origin | apply failures_origin].
Qed.

(** What a merge can add to the tree. *)
Lemma appendSearch_origin category sg jobGroups :
  forall g sg',
    In g (FanOut.appendSearch category sg jobGroups) ->
    In sg' (Searches g) ->
    (exists g0, In g0 jobGroups /\ Category g0 = Category g /\
                In sg' (Searches g0)) \/
    (sg' = sg /\ Category g = category).
Proof.
  induction jobGroups as [|g0 rest IH]; intros g sg' Hg Hsg'; [destruct Hg|].
  cbn [FanOut.appendSearch] in Hg.
  destruct (String.eqb (Category g0) category) eqn:Heq.
  - destruct Hg as [<- | Hg].
    + cbn [Searches Category] in *. apply in_app_or in Hsg' as [Hold | [<- | []]].
      * left. exists g0. split; [now left | auto].
      * right. apply String.eqb_eq in Heq. auto.
    + left. exists g. split; [now right | auto].
  - destruct Hg as [<- | Hg].
    + left. exists g0. split; [now left | auto].
    + destruct (IH g sg' Hg Hsg') as [(g1 & Hg1 & Hc & Hs) | Hnew]; [|auto].
      left. exists g1. split; [now right | auto].
Qed.

(** X9.  Whatever the runs and the order in which they finish, the tree
    [main] ends up with has exactly the configured categories, in the
    configured order; every search group in it has at least one posting and
    is the group of one of the runs, filed under that run's category. *)
Theorem collect_keeps_the_configured_shape :
  forall categories runs,
    map Category (FanOut.collect categories runs)
    = map CategoryName categories /\
    (forall g sg,
        In g (FanOut.collect categories runs) -> In sg (Searches g) ->
        Jobs sg <> [] /\
        exists r,
          In r runs /\
          sg = fst (FanOut.runSearch (FanOut.run_term r)
                                     (FanOut.run_finished r)) /\
          Category g = FanOut.run_category r).
Proof.
  intros categories runs. split.
  - unfold FanOut.collect.
    now rewrite merge_all_categories, initJobGroups_categories.
  - unfold FanOut.collect.
    assert (Hgen : forall done jobGroups,
               (forall g sg, In g jobGroups -> In sg (Searches g) ->
                  Jobs sg <> [] /\
                  exists r, In r done /\
                    sg = fst (FanOut.runSearch (FanOut.run_term r)
                                               (FanOut.run_finished r)) /\
                    Category g = FanOut.run_category r) ->
               forall todo g sg,
                 In g (fold_left FanOut.mergeRun todo jobGroups) ->
                 In sg (Searches g) ->
                 Jobs sg <> [] /\
                 exists r, In r (done ++ todo) /\
                   sg = fst (FanOut.runSearch (FanOut.run_term r)
                                              (FanOut.run_finished r)) /\
                   Category g = FanOut.run_category r).
    { intros done jobGroups Hinv todo. revert done jobGroups Hinv.
      induction todo as [|r todo IH]; intros done jobGroups Hinv g sg Hg Hsg.
      - rewrite app_nil_r. now apply Hinv.
      - cbn [fold_left] in Hg.
        replace (done ++ r :: todo) with ((done ++ [r]) ++ todo)
          by (now rewrite <- app_assoc).
        apply (IH (done ++ [r]) (FanOut.mergeRun jobGroups r)); auto.
        clear g sg Hg Hsg. intros g sg Hg Hsg.
        unfold FanOut.mergeRun, FanOut.mergeSearch in Hg.
        destruct (0 <? _)%nat eqn:Hpos.
        + destruct (appendSearch_origin _ _ _ g sg Hg Hsg)
            as [(g0 & Hg0 & Hc & Hs) | [-> Hc]].
          * destruct (Hinv g0 sg Hg0 Hs) as (Hne & r0 & Hr0 & Heq & Hcat).
            split; [exact Hne|]. exists r0.
            split; [apply in_or_app; now left | split; congruence].
          * split.
            -- intros Hnil. rewrite Hnil in Hpos. discriminate.
            -- exists r. split; [apply in_or_app; right; now left | auto].
        + destruct (Hinv g sg Hg Hsg) as (Hne & r0 & Hr0 & Heq & Hcat).
          split; [exact Hne|]. exists r0.
          split; [apply in_or_app; now left | auto]. }
    intros g sg Hg Hsg.
    apply (Hgen [] (FanOut.initJobGroups categories)) with (todo := runs);
      auto.
    intros g' sg' Hg' Hsg'. unfold FanOut.initJobGroups in Hg'.
    apply in_map_iff in Hg' as (cat & <- & _). destruct Hsg'.
Qed.

(** X10.  A merge files the group under the first category of that name
    and under no other: a category listed twice never receives anything
    through its second entry.  A group whose category is not in the tree
    is dropped without a trace. *)
Theorem appendSearch_files_under_the_first_match :
  (forall category sg before g after,
      ~ In category (map Category before) ->
      Category g = category ->
      FanOut.appendSearch category sg (before ++ g :: after)
      = before
          ++ mkJobCategoryGroup (Category g) (Searches g ++ [sg]) :: after) /\
  (forall category sg jobGroups,
      ~ In category (map Category jobGroups) ->
      FanOut.appendSearch category sg jobGroups = jobGroups).
Proof.
  split.
  - intros category sg before g after Hnot Hcat.
    induction before as [|g0 before IH]; cbn [app FanOut.appendSearch].
    + apply String.eqb_eq in Hcat. now rewrite Hcat.
    + destruct (String.eqb (Category g0) category) eqn:Heq.
      * apply String.eqb_eq in Heq. exfalso. apply Hnot. now left.
      * rewrite IH; [reflexivity|]. intros Hin. apply Hnot. now right.
  - intros category sg jobGroups Hnot.
    induction jobGroups as [|g0 rest IH]; cbn [FanOut.appendSearch];
      [reflexivity|].
    destruct (String.eqb (Category g0) category) eqn:Heq.
    + apply String.eqb_eq in Heq. exfalso. apply Hnot. now left.
    + rewrite IH; [reflexivity|]. intros Hin. apply Hnot. now right.
Qed.

Lemma appendSearch_files_under_the_first_match_witness :
  FanOut.appendSearch "Security" (mkSearchGroup "security analyst" [Scenario.postingA])
    [ mkJobCategoryGroup "Data Science" [];
      mkJobCategoryGroup "Security" [];
      mkJobCategoryGroup "Security" [] ]
  = [ mkJobCategoryGroup "Data Science" [];
      mkJobCategoryGroup "Security"
        [mkSearchGroup "security analyst" [Scenario.postingA]];
      mkJobCategoryGroup "Security" [] ].
Proof.
  apply (proj1 appendSearch_files_under_the_first_match "Security"
           (mkSearchGroup "security analyst" [Scenario.postingA])
           [mkJobCategoryGroup "Data Science" []]
           (mkJobCategoryGroup "Security" [])
           [mkJobCategoryGroup "Security" []]).
  - cbn. intros [H | []]. discriminate.
  - reflexivity.
Defined.

(* ===================================================================== *)
(** ** Further properties: the flat sink and the paginator                *)
(* ===================================================================== *)

(** X11.  When the directory exists or can be created, the file opens and
    the write goes through, and the output path holds no file or one no
    longer than the new document, [saveJobsToFile] leaves exactly the JSON
    document of the tree in the file and returns no error. *)
Theorem saveJobsToFile_writes_the_document :
  forall quote fs jobGroups,
    Flat.statFails fs && Flat.mkdirAllFails fs = false ->
    Flat.openFails fs = false ->
    Flat.writeLimit fs = None ->
    (String.length (match Flat.file fs with
                    | Some content => content
                    | None => EmptyString
                    end)
     <= String.length (Flat.encode quote jobGroups))%nat ->
    Flat.saveJobsToFile quote fs jobGroups
    = (Some (Flat.encode quote jobGroups), None).
Proof.
  intros quote fs jobGroups Hdir Hopen Hwrite Hshort.
  unfold Flat.saveJobsToFile. rewrite Hdir, Hopen, Hwrite.
  unfold Flat.writeAt0. now rewrite drop_beyond, append_empty_r.
Qed.

Lemma saveJobsToFile_writes_the_document_witness :
  Flat.saveJobsToFile Flat.quotePlain
    (Flat.mkFS true false false None
               (Some (Flat.encode Flat.quotePlain Scenario.quietTree)))
    Scenario.busyTree
  = (Some (Flat.encode Flat.quotePlain Scenario.busyTree), None).
Proof.
  apply saveJobsToFile_writes_the_document; try reflexivity.
  vm_compute. lia.
Defined.

(** X12.  For a page whose URNs are job posting cards of numeric
    identifiers, what [jobListings] sends is those identifiers, in order:
    the two replacements remove the wrapper and nothing else. *)
Theorem stripUrn_recovers_numeric_identifiers :
  forall ids,
    Forall (fun id => allDigits id = true) ids ->
    map Listing.stripUrn (map jobPostingCard ids) = ids.
Proof.
  induction 1 as [|id ids Hid _ IH]; cbn [map]; [reflexivity|].
  now rewrite stripUrn_jobPostingCard, IH.
Qed.

Lemma stripUrn_recovers_numeric_identifiers_witness :
  map Listing.stripUrn (map jobPostingCard ["4277900147"; "42"])
  = ["4277900147"; "42"].
Proof.
  apply stripUrn_recovers_numeric_identifiers.
  repeat constructor.
Defined.

Section Pagination.

Variable up : Listing.Upstream.
Variable search : string.

Lemma loop_follows :
  forall fuel n start t e t',
    Listing.loop up search fuel n start t = Some (e, t') ->
    exists requests,
      Listing.requested t' = Listing.requested t ++ requests /\
      Follows up search n start requests.
Proof.
  induction fuel as [|fuel IH]; intros n start t e t'; cbn [Listing.loop];
    [discriminate|].
  destruct (Listing.NewRequestOk up _); cbn [negb].
  2:{ intros [= <- <-]. exists []. cbn. rewrite app_nil_r.
      split; [reflexivity | constructor]. }
  destruct (Listing.Do up n _) as [|status [content|]] eqn:Hdo.
  - intros [= <- <-]. eexists. split; [reflexivity | constructor].
  - destruct (status =? Listing.StatusOK)%Z eqn:Hs; cbn [negb].
    2:{ intros [= <- <-]. eexists. split; [reflexivity | constructor]. }
    apply Z.eqb_eq in Hs. subst status.
    destruct (Listing.firstQueryUrns content) as [urns|] eqn:Hq.
    2:{ intros [= <- <-]. eexists. split; [reflexivity | constructor]. }
    destruct (_ >=? _)%Z eqn:Hdone.
    + intros [= <- <-]. eexists. split; [reflexivity | constructor].
    + intros Hrun. apply IH in Hrun as (rest & Hreq & Hrest).
      cbn [Listing.send Listing.issue Listing.requested] in Hreq.
      exists (Listing.mkRequest search start 100 :: rest). split.
      * rewrite Hreq. now rewrite <- app_assoc.
      * econstructor; eauto.
        rewrite Z.geb_leb, Z.leb_gt in Hdone. exact Hdone.
  - destruct (status =? Listing.StatusOK)%Z; cbn [negb];
      intros [= <- <-]; eexists; (split; [reflexivity | constructor]).
Qed.

Lemma follows_uniform n start requests :
  Follows up search n start requests ->
  Forall (fun r => Listing.req_search r = search /\
                   Listing.req_count r = 100%Z) requests /\
  (forall r, hd_error requests = Some r -> Listing.req_start r = start).
Proof.
  induction 1 as [n start|n start|n start content urns rest Hdo Hq Hlt _ IH].
  - split; [constructor | discriminate].
  - split; [repeat constructor | now intros r [= <-]].
  - split; [constructor; [split; reflexivity | apply IH]
           | now intros r [= <-]].
Qed.

Lemma follows_adjacent n start requests :
  Follows up search n start requests ->
  forall k prev next,
    nth_error requests k = Some prev ->
    nth_error requests (S k) = Some next ->
    exists content urns,
      Listing.Do up (n + k) prev
      = Listing.Response Listing.StatusOK (Some content) /\
      Listing.firstQueryUrns content = Some urns /\
      Listing.req_start next
      = GoInt.add (Listing.req_start prev) (Z.of_nat (List.length urns)) /\
      (Listing.req_start next < Listing.Total content)%Z.
Proof.
  induction 1 as [n start|n start|n start content urns rest Hdo Hq Hlt Hrest IH];
    intros k prev next Hprev Hnext.
  - destruct k; discriminate.
  - destruct k as [|[|k]]; discriminate.
  - destruct k as [|k].
    + cbn in Hprev, Hnext. injection Hprev as <-.
      rewrite Nat.add_0_r. exists content, urns.
      split; [exact Hdo|]. split; [exact Hq|].
      assert (Hstart : Listing.req_start next
                       = GoInt.add start (Z.of_nat (List.length urns))).
      { apply (proj2 (follows_uniform _ _ _ Hrest)).
        destruct rest; [discriminate | exact Hnext]. }
      cbn [Listing.req_start]. rewrite Hstart. auto.
    + cbn in Hprev, Hnext.
      replace (n + S k)%nat with (S n + k)%nat by lia.
      exact (IH k prev next Hprev Hnext).
Qed.

End Pagination.

(** X13.  In every run of [jobListings] that comes to an end, each request
    asks for 100 results of the run's search term, the first at offset 0,
    and each further request follows a page that decoded with the count
    still below its total, at the offset of the request before plus the
    number of identifiers of that page: no offset is skipped and none is
    asked again unless the page was empty. *)
Theorem jobListings_advances_by_what_it_received :
  forall up search fuel e t,
    Listing.jobListings up search fuel = Some (e, t) ->
    Forall (fun r => Listing.req_search r = search /\
                     Listing.req_count r = 100%Z) (Listing.requested t) /\
    (forall r, hd_error (Listing.requested t) = Some r ->
               Listing.req_start r = 0%Z) /\
    (forall k prev next,
        nth_error (Listing.requested t) k = Some prev ->
        nth_error (Listing.requested t) (S k) = Some next ->
        exists content urns,
          Listing.Do up k prev
          = Listing.Response Listing.StatusOK (Some content) /\
          Listing.firstQueryUrns content = Some urns /\
          Listing.req_start next
          = GoInt.add (Listing.req_start prev) (Z.of_nat (List.length urns)) /\
          (Listing.req_start next < Listing.Total content)%Z).
Proof.
  intros up search fuel e t Hrun. unfold Listing.jobListings in Hrun.
  apply loop_follows in Hrun as (requests & Hreq & Hfollows).
  cbn in Hreq. rewrite Hreq.
  destruct (follows_uniform _ _ _ _ _ Hfollows) as [Hall Hhd].
  split; [exact Hall|]. split; [exact Hhd|].
  intros k prev next Hprev Hnext.
  exact (follows_adjacent _ _ _ _ _ Hfollows k prev next Hprev Hnext).
Qed.

Lemma jobListings_advances_by_what_it_received_witness :
  Forall (fun r => Listing.req_search r = "data scientist" /\
                   Listing.req_count r = 100%Z)
         [ Listing.mkRequest "data scientist" 0 100;
           Listing.mkRequest "data scientist" 2 100 ].
Proof.
  apply (jobListings_advances_by_what_it_received
           (Scenario.scripted Scenario.steadyTotal) "data scientist" 2
           Listing.Returned
           (Listing.mkTrace ["1"; "2"; "3"] []
              [ Listing.mkRequest "data scientist" 0 100;
                Listing.mkRequest "data scientist" 2 100 ])).
  reflexivity.
Defined.

(* ===================================================================== *)
(** ** Further properties: the relational sink                            *)
(* ===================================================================== *)

Lemma statementCount_formula jobGroups :
  SQLite.statementCount jobGroups
  = (List.length jobGroups + List.length (flat_map Searches jobGroups)
     + 3 * List.length (postings jobGroups))%nat.
Proof.
  assert (Hsearches : forall groups,
             list_sum (map SQLite.statementsOfSearch groups)
             = (List.length groups
                + 3 * List.length (flat_map Jobs groups))%nat).
  { induction groups as [|sg rest IH]; [reflexivity|].
    cbn [map flat_map List.length]. unfold list_sum in *. cbn [fold_right].
    rewrite IH, length_app. unfold SQLite.statementsOfSearch. lia. }
  unfold SQLite.statementCount, postings.
  induction jobGroups as [|g rest IH]; [reflexivity|].
  cbn [map flat_map List.length]. unfold list_sum in *. cbn [fold_right].
  rewrite IH, !length_app. unfold SQLite.statementsOfGroup.
  unfold list_sum in Hsearches. unfold list_sum. rewrite Hsearches. lia.
Qed.

(** X14.  On an engine where nothing fails, [saveJobsToSQLite] succeeds for
    every tree and every store that satisfies the key constraints: the
    order of its statements (job, then job-category, then search-job, each
    after the category and the search term) never trips a foreign key.  A
    transaction that goes through has run one statement per category, one
    per search group and three per posting. *)
Theorem saveJobsToSQLite_succeeds_when_nothing_fails :
  (forall eng db jobGroups ts,
      SQLite.healthy eng -> SQLite.WellFormed db ->
      exists db', SQLite.saveJobsToSQLite eng db jobGroups ts = (db', None)) /\
  (forall eng db jobGroups ts st',
      SQLite.saveGroups eng ts jobGroups (SQLite.mkTxState db 0)
      = inr (tt, st') ->
      SQLite.executed st'
      = (List.length jobGroups + List.length (flat_map Searches jobGroups)
         + 3 * List.length (postings jobGroups))%nat).
Proof.
  split.
  - intros eng db jobGroups ts Hok Hwf.
    destruct (save_healthy eng db jobGroups ts Hok Hwf) as (db' & Hrun & _).
    eauto.
  - intros eng db jobGroups ts st' Hrun.
    apply saveGroups_inr in Hrun as [Hcount _]. cbn in Hcount.
    now rewrite Hcount, statementCount_formula.
Qed.

Lemma saveJobsToSQLite_succeeds_when_nothing_fails_witness :
  exists db',
    SQLite.saveJobsToSQLite (SQLite.reliable true) Scenario.seeded
                            Scenario.overlapping "2025-02-01T00:00:00Z"
    = (db', None).
Proof.
  apply (proj1 saveJobsToSQLite_succeeds_when_nothing_fails).
  - apply reliable_healthy.
  - constructor; cbn; repeat constructor; cbn; intuition discriminate.
Defined.

Section AnyEngine.

Variable eng : SQLite.Engine.
Variable ts : string.

Lemma exec_quiet {A} err (statement : SQLite.Store -> option (A * SQLite.Store))
      st x :
  SQLite.exec eng err statement st = inr x ->
  SQLite.exec (quiet eng) err statement st = inr x.
Proof.
  unfold SQLite.exec. cbn [quiet SQLite.stmt_fails].
  destruct (SQLite.stmt_fails eng (SQLite.executed st)); [discriminate|auto].
Qed.

Lemma saveJobs_quiet cid sid :
  forall jobList st x,
    SQLite.saveJobs eng ts cid sid jobList st = inr x ->
    SQLite.saveJobs (quiet eng) ts cid sid jobList st = inr x.
Proof.
  induction jobList as [|job rest IH]; intros st [b st'] Hrun; [exact Hrun|].
  cbn [SQLite.saveJobs] in *.
  apply bind_inr in Hrun as (a1 & st1 & H1 & Hrun).
  apply bind_inr in Hrun as (a2 & st2 & H2 & Hrun).
  apply bind_inr in Hrun as (a3 & st3 & H3 & Hrun).
  unfold SQLite.bind.
  rewrite (exec_quiet _ _ _ _ H1), (exec_quiet _ _ _ _ H2),
    (exec_quiet _ _ _ _ H3).
  now apply IH.
Qed.

Lemma saveSearches_quiet cid :
  forall groups st x,
    SQLite.saveSearches eng ts cid groups st = inr x ->
    SQLite.saveSearches (quiet eng) ts cid groups st = inr x.
Proof.
  induction groups as [|sg rest IH]; intros st [b st'] Hrun; [exact Hrun|].
  cbn [SQLite.saveSearches] in *.
  apply bind_inr in Hrun as (sid & st1 & H1 & Hrun).
  apply bind_inr in Hrun as (a2 & st2 & H2 & Hrun).
  unfold SQLite.bind.
  change (SQLite.burns_rowid (quiet eng)) with (SQLite.burns_rowid eng).
  rewrite (exec_quiet _ _ _ _ H1).
  rewrite (saveJobs_quiet _ _ _ _ _ H2).
  now apply IH.
Qed.

Lemma saveGroups_quiet :
  forall jobGroups st x,
    SQLite.saveGroups eng ts jobGroups st = inr x ->
    SQLite.saveGroups (quiet eng) ts jobGroups st = inr x.
Proof.
  induction jobGroups as [|g rest IH]; intros st [b st'] Hrun; [exact Hrun|].
  cbn [SQLite.saveGroups] in *.
  apply bind_inr in Hrun as (cid & st1 & H1 & Hrun).
  apply bind_inr in Hrun as (a2 & st2 & H2 & Hrun).
  unfold SQLite.bind.
  change (SQLite.burns_rowid (quiet eng)) with (SQLite.burns_rowid eng).
  rewrite (exec_quiet _ _ _ _ H1).
  rewrite (saveSearches_quiet _ _ _ _ H2).
  now apply IH.
Qed.

(** Whatever the engine does, the store after [saveJobsToSQLite] has
    evolved from the store before. *)
Lemma save_evolves db jobGroups :
  SQLite.WellFormed db ->
  Evolves ts db (fst (SQLite.saveJobsToSQLite eng db jobGroups ts)).
Proof.
  intros Hwf. unfold SQLite.saveJobsToSQLite.
  destruct (SQLite.open_fails eng); [now apply Evolves_refl|].
  destruct (SQLite.pragma_fails eng); [now apply Evolves_refl|].
  destruct (existsb _ _); [now apply Evolves_refl|].
  destruct (SQLite.begin_fails eng); [now apply Evolves_refl|].
  destruct (SQLite.saveGroups eng ts jobGroups (SQLite.mkTxState db 0))
    as [e | [[] st']] eqn:Hrun; [now apply Evolves_refl|].
  destruct (SQLite.commit_fails eng); [now apply Evolves_refl|].
  apply saveGroups_quiet in Hrun.
  destruct (saveGroups_spec (quiet eng) ts (fun _ => eq_refl) jobGroups db 0
              Hwf) as (db' & Hrun' & He & _).
  rewrite Hrun in Hrun'. injection Hrun' as ->. exact He.
Qed.

End AnyEngine.

(** X15.  [saveJobsToSQLite] only ever adds, whatever fails and whenever:
    the store it leaves still satisfies the key constraints, holds every
    row that [jobs], [categories], [jobs_categories] and [searches] held
    before, unchanged, and holds every association that was there with
    the same [first_seen], its [last_seen] either unchanged or set to the
    timestamp of this run.  Nothing is deleted or rewritten. *)
Theorem saveJobsToSQLite_only_adds :
  forall eng db jobGroups ts,
    SQLite.WellFormed db ->
    let db' := fst (SQLite.saveJobsToSQLite eng db jobGroups ts) in
    SQLite.WellFormed db' /\
    incl (SQLite.jobs db) (SQLite.jobs db') /\
    incl (SQLite.categories db) (SQLite.categories db') /\
    incl (SQLite.jobs_categories db) (SQLite.jobs_categories db') /\
    incl (SQLite.searches db) (SQLite.searches db') /\
    (forall r, In r (SQLite.searches_jobs db) ->
       exists ls,
         In (SQLite.mkSearchJobRow (SQLite.sj_search_id r) (SQLite.sj_job_id r)
                                   (SQLite.first_seen r) ls)
            (SQLite.searches_jobs db') /\
         (ls = SQLite.last_seen r \/ ls = ts)).
Proof.
  intros eng db jobGroups ts Hwf db'.
  pose proof (save_evolves eng ts db jobGroups Hwf) as He. fold db' in He.
  destruct He. auto 10.
Qed.

Lemma saveJobsToSQLite_only_adds_witness :
  incl (SQLite.jobs Scenario.seeded)
       (SQLite.jobs (fst (SQLite.saveJobsToSQLite (Scenario.failingAt 30)
                            Scenario.seeded Scenario.overlapping
                            "2025-02-01T00:00:00Z"))).
Proof.
  assert (Hwf : SQLite.WellFormed Scenario.seeded).
  { constructor; cbn; repeat constructor; cbn; intuition discriminate. }
  pose proof (saveJobsToSQLite_only_adds (Scenario.failingAt 30)
                Scenario.seeded Scenario.overlapping
                "2025-02-01T00:00:00Z" Hwf) as H.
  cbv zeta in H. exact (proj1 (proj2 H)).
Defined.

(** X16.  A job row is written once: after any [saveJobsToSQLite], the row
    stored under an identifier that was already in [jobs] is the row that
    was there, whatever company, description or title the tree now gives
    for that identifier. *)
Theorem saveJobsToSQLite_keeps_the_first_job_row :
  forall eng db jobGroups ts r r',
    SQLite.WellFormed db ->
    In r (SQLite.jobs db) ->
    In r' (SQLite.jobs (fst (SQLite.saveJobsToSQLite eng db jobGroups ts))) ->
    SQLite.job_id r' = SQLite.job_id r ->
    r' = r.
Proof.
  intros eng db jobGroups ts r r' Hwf Hr Hr' Hid.
  pose proof (save_evolves eng ts db jobGroups Hwf) as He.
  apply (NoDup_map_injective SQLite.job_id _ _ _
           (SQLite.wf_jobs_key _ (ev_wf He)) Hr'); [|exact Hid].
  now apply (ev_jobs He).
Qed.

Lemma saveJobsToSQLite_keeps_the_first_job_row_witness :
  SQLite.mkJobRow "Z" "Zeta" "about Z" "Zoologist"
  = SQLite.mkJobRow "Z" "Zeta" "about Z" "Zoologist" /\
  SQLite.jobs (fst (SQLite.saveJobsToSQLite (SQLite.reliable false)
                      Scenario.seeded Samples.rewritten
                      "2025-02-01T00:00:00Z"))
  = [SQLite.mkJobRow "Z" "Zeta" "about Z" "Zoologist"].
Proof.
  split; [|vm_compute; reflexivity].
  apply (saveJobsToSQLite_keeps_the_first_job_row
           (SQLite.reliable false) Scenario.seeded Samples.rewritten
           "2025-02-01T00:00:00Z"
           (SQLite.mkJobRow "Z" "Zeta" "about Z" "Zoologist")
           (SQLite.mkJobRow "Z" "Zeta" "about Z" "Zoologist")).
  - constructor; cbn; repeat constructor; cbn; intuition discriminate.
  - now left.
  - vm_compute. left. reflexivity.
  - reflexivity.
Defined.

(* ===================================================================== *)
(** ** Saving a tree that the store already holds                         *)
(* ===================================================================== *)

Lemma Forall2_same {A} (R : A -> A -> Prop) l :
  (forall x, R x x) -> Forall2 R l l.
Proof. intros HR. induction l; constructor; auto. Qed.

Lemma Forall2_compose {A} (R : A -> A -> Prop) :
  (forall x y z, R x y -> R y z -> R x z) ->
  forall l1 l2 l3, Forall2 R l1 l2 -> Forall2 R l2 l3 -> Forall2 R l1 l3.
Proof.
  intros HR l1 l2 l3 H12. revert l3.
  induction H12 as [|x y l1 l2 Hxy _ IH]; intros l3 H23;
    inversion H23; subst; constructor; eauto.
Qed.

Lemma Forall2_map_self {A} (R : A -> A -> Prop) (f : A -> A) l :
  (forall x, R x (f x)) -> Forall2 R l (map f l).
Proof. intros HR. induction l; cbn; constructor; auto. Qed.

Lemma Forall2_members {A} (R R' : A -> A -> Prop) l l' :
  (forall x y, In x l -> In y l' -> R x y -> R' x y) ->
  Forall2 R l l' -> Forall2 R' l l'.
Proof.
  intros HR H. induction H as [|x y l l' Hxy _ IH]; constructor.
  - apply HR; [now left | now left | exact Hxy].
  - apply IH. intros a b Ha Hb. apply HR; now right.
Qed.

(** The first row that matches is the only row under its key. *)
Lemma find_unique {A B} (key : A -> B) (p : A -> bool) (l : list A) x :
  NoDup (map key l) -> In x l -> p x = true ->
  (forall y, In y l -> p y = true -> key y = key x) ->
  find p l = Some x.
Proof.
  intros Hnd Hin Hp Hkey.
  destruct (find p l) as [y|] eqn:Hfind.
  - apply find_some in Hfind as [Hy Hpy]. f_equal.
    apply (NoDup_map_injective key _ _ _ Hnd Hy Hin). now apply Hkey.
  - apply (find_none _ _ Hfind) in Hin. congruence.
Qed.

Lemma Restamps_refl ts scope r : Restamps ts scope r r.
Proof. unfold Restamps. auto. Qed.

Lemma Restamps_trans ts scope r1 r2 r3 :
  Restamps ts scope r1 r2 -> Restamps ts scope r2 r3 ->
  Restamps ts scope r1 r3.
Proof.
  intros (Hs & Hj & Hf & Hl) (Hs' & Hj' & Hf' & Hl').
  split; [congruence|]. split; [congruence|]. split; [congruence|].
  destruct Hl' as [Hl' | [Hl' Hsc]].
  - rewrite Hl'. exact Hl.
  - right. split; [exact Hl'|]. rewrite <- Hs, <- Hj. exact Hsc.
Qed.

Lemma Restamps_weaken ts (scope scope' : Z -> string -> Prop) r r' :
  (forall a b, scope a b -> scope' a b) ->
  Restamps ts scope r r' -> Restamps ts scope' r r'.
Proof.
  intros Hsub (Hs & Hj & Hf & Hl). repeat split; auto.
  destruct Hl as [Hl | [Hl Hsc]]; auto.
Qed.

Lemma Retouched_refl ts scope s : Retouched ts scope s s.
Proof.
  constructor; try reflexivity.
  apply Forall2_same. intros r. apply Restamps_refl.
Qed.

Lemma Retouched_trans ts scope s1 s2 s3 :
  Retouched ts scope s1 s2 -> Retouched ts scope s2 s3 ->
  Retouched ts scope s1 s3.
Proof.
  intros [J1 C1 JC1 S1 F1] [J2 C2 JC2 S2 F2].
  constructor; try congruence.
  eapply Forall2_compose; [|exact F1|exact F2].
  intros x y z. apply Restamps_trans.
Qed.

Lemma Retouched_weaken ts (scope scope' : Z -> string -> Prop) s s' :
  (forall a b, scope a b -> scope' a b) ->
  Retouched ts scope s s' -> Retouched ts scope' s s'.
Proof.
  intros Hsub [J C JC S F]. constructor; auto.
  eapply Forall2_impl; [|exact F].
  intros r r'. now apply Restamps_weaken.
Qed.

Lemma Restamps_same_keys ts scope l l' sid jid :
  Forall2 (Restamps ts scope) l l' ->
  existsb (SQLite.sjKey sid jid) l' = existsb (SQLite.sjKey sid jid) l.
Proof.
  induction 1 as [|r r' l l' (Hs & Hj & _) _ IH]; [reflexivity|].
  cbn [existsb]. rewrite IH. unfold SQLite.sjKey. now rewrite Hs, Hj.
Qed.

Lemma Retouched_SettledJobs ts scope s s' cid sid jobList :
  Retouched ts scope s s' ->
  SettledJobs cid sid jobList s -> SettledJobs cid sid jobList s'.
Proof.
  intros Hr Hset j Hj. destruct (Hset j Hj) as (H1 & H2 & H3).
  unfold SQLite.hasJob in *.
  rewrite (rt_jobs Hr), (rt_jobs_categories Hr),
    (Restamps_same_keys _ _ _ _ _ _ (rt_searches_jobs Hr)).
  auto.
Qed.

Lemma Retouched_SettledSearches ts scope s s' cid groups :
  Retouched ts scope s s' ->
  SettledSearches cid groups s -> SettledSearches cid groups s'.
Proof.
  intros Hr Hset sg Hsg. destruct (Hset sg Hsg) as (sid & Hrow & Hjobs).
  exists sid. rewrite (rt_searches Hr). split; [exact Hrow|].
  eapply Retouched_SettledJobs; eassumption.
Qed.

Lemma Retouched_Settled ts scope s s' jobGroups :
  Retouched ts scope s s' -> Settled jobGroups s -> Settled jobGroups s'.
Proof.
  intros Hr Hset g Hg. destruct (Hset g Hg) as (cid & Hrow & Hsearches).
  exists cid. rewrite (rt_categories Hr). split; [exact Hrow|].
  eapply Retouched_SettledSearches; eassumption.
Qed.

(** *** The statements, on rows that are there *)

Lemma upsertCategory_again ts scope burn name cid s :
  NoDup (map SQLite.category_name (SQLite.categories s)) ->
  In (SQLite.mkCategoryRow cid name) (SQLite.categories s) ->
  exists s',
    SQLite.upsertCategory burn name s = Some (cid, s') /\
    Retouched ts scope s s'.
Proof.
  intros Hnd Hin. unfold SQLite.upsertCategory.
  rewrite (find_unique SQLite.category_name _ _
             (SQLite.mkCategoryRow cid name) Hnd Hin).
  - eexists. split; [reflexivity|].
    constructor; cbn; try reflexivity.
    apply Forall2_same. intros r. apply Restamps_refl.
  - cbn. apply String.eqb_refl.
  - intros y _ Hy. cbn. now apply String.eqb_eq.
Qed.

Lemma upsertSearch_again ts scope burn term sid s :
  NoDup (map SQLite.search_term (SQLite.searches s)) ->
  In (SQLite.mkSearchRow sid term) (SQLite.searches s) ->
  exists s',
    SQLite.upsertSearch burn term s = Some (sid, s') /\
    Retouched ts scope s s'.
Proof.
  intros Hnd Hin. unfold SQLite.upsertSearch.
  rewrite (find_unique SQLite.search_term _ _
             (SQLite.mkSearchRow sid term) Hnd Hin).
  - eexists. split; [reflexivity|].
    constructor; cbn; try reflexivity.
    apply Forall2_same. intros r. apply Restamps_refl.
  - cbn. apply String.eqb_refl.
  - intros y _ Hy. cbn. now apply String.eqb_eq.
Qed.

Lemma upsertSearchJob_again ts sid jid s :
  existsb (SQLite.sjKey sid jid) (SQLite.searches_jobs s) = true ->
  exists s',
    SQLite.upsertSearchJob sid jid ts s = Some (tt, s') /\
    Retouched ts (fun a b => a = sid /\ b = jid) s s'.
Proof.
  intros Hex. unfold SQLite.upsertSearchJob. rewrite Hex.
  eexists. split; [reflexivity|].
  constructor; cbn; try reflexivity.
  apply Forall2_map_self. intros r. unfold Restamps.
  destruct (SQLite.sjKey sid jid r) eqn:Hk; cbn; [|auto].
  apply sjKey_spec in Hk. injection Hk as Hs Hj.
  split; [reflexivity|]. split; [reflexivity|]. split; [reflexivity|].
  right. auto.
Qed.

Section Resave.

Variable eng : SQLite.Engine.
Variable ts : string.
Hypothesis no_fault : forall k, SQLite.stmt_fails eng k = false.

(** *** A run over a settled tree *)

Lemma saveJobs_again cid sid :
  forall jobList s k,
    SettledJobs cid sid jobList s ->
    exists s',
      SQLite.saveJobs eng ts cid sid jobList (SQLite.mkTxState s k)
      = inr (tt, SQLite.mkTxState s' (k + 3 * List.length jobList)) /\
      Retouched ts (fun a b => a = sid /\ In b (map JobID_ jobList)) s s'.
Proof.
  induction jobList as [|job rest IH]; intros s k Hset.
  - exists s. cbn [SQLite.saveJobs List.length]. rewrite Nat.add_0_r.
    split; [reflexivity | apply Retouched_refl].
  - destruct (Hset job (or_introl eq_refl)) as (Hjob & Hjc & Hsj).
    assert (H1 : SQLite.insertJob job s = Some (tt, s)).
    { unfold SQLite.insertJob. now rewrite Hjob. }
    assert (H2 : SQLite.insertJobCategory (JobID_ job) cid s = Some (tt, s)).
    { unfold SQLite.insertJobCategory. now rewrite Hjc. }
    destruct (upsertSearchJob_again ts sid (JobID_ job) s Hsj)
      as (s3 & H3 & R3).
    destruct (IH s3 (S (S (S k)))) as (s' & Hrun & R').
    { eapply Retouched_SettledJobs; [exact R3|].
      intros j Hj. apply Hset. now right. }
    exists s'. split.
    + cbn [SQLite.saveJobs]. unfold SQLite.bind.
      rewrite (exec_ok eng no_fault _ _ _ _ _ _ H1),
        (exec_ok eng no_fault _ _ _ _ _ _ H2),
        (exec_ok eng no_fault _ _ _ _ _ _ H3), Hrun.
      do 3 f_equal. cbn [List.length]. lia.
    + eapply Retouched_trans.
      * eapply Retouched_weaken; [|exact R3].
        intros a b [-> ->]. split; [reflexivity | now left].
      * eapply Retouched_weaken; [|exact R'].
        intros a b [-> Hb]. split; [reflexivity | now right].
Qed.

Lemma saveSearches_again cid :
  forall groups s k,
    NoDup (map SQLite.search_term (SQLite.searches s)) ->
    SettledSearches cid groups s ->
    exists s',
      SQLite.saveSearches eng ts cid groups (SQLite.mkTxState s k)
      = inr (tt, SQLite.mkTxState s'
                   (k + list_sum (map SQLite.statementsOfSearch groups))) /\
      Retouched ts
        (fun a b => exists sg j,
             In sg groups /\ In j (Jobs sg) /\
             In (SQLite.mkSearchRow a (SearchTerm sg)) (SQLite.searches s) /\
             JobID_ j = b)
        s s'.
Proof.
  induction groups as [|sg rest IH]; intros s k Hnd Hset.
  - exists s. cbn [SQLite.saveSearches map]. cbn. rewrite Nat.add_0_r.
    split; [reflexivity | apply Retouched_refl].
  - destruct (Hset sg (or_introl eq_refl)) as (sid & Hrow & Hjobs).
    destruct (upsertSearch_again ts (fun _ _ => False)
                (SQLite.burns_rowid eng) (SearchTerm sg) sid s Hnd Hrow)
      as (s1 & H1 & R1).
    destruct (saveJobs_again cid sid (Jobs sg) s1 (S k)
                (Retouched_SettledJobs _ _ _ _ _ _ _ R1 Hjobs))
      as (s2 & H2 & R2).
    assert (R12 : Retouched ts
              (fun a b => exists sg' j,
                   In sg' (sg :: rest) /\ In j (Jobs sg') /\
                   In (SQLite.mkSearchRow a (SearchTerm sg'))
                      (SQLite.searches s) /\
                   JobID_ j = b) s s2).
    { eapply Retouched_trans.
      - eapply Retouched_weaken; [|exact R1]. intros a b [].
      - eapply Retouched_weaken; [|exact R2].
        intros a b [-> Hb]. apply in_map_iff in Hb as (j & Hid & Hj).
        exists sg, j. split; [now left | auto]. }
    destruct (IH s2 (S k + 3 * List.length (Jobs sg))%nat) as (s' & Hrun & R').
    { rewrite (rt_searches R12). exact Hnd. }
    { eapply Retouched_SettledSearches; [exact R12|].
      intros sg' Hsg'. apply Hset. now right. }
    exists s'. split.
    + cbn [SQLite.saveSearches]. unfold SQLite.bind.
      rewrite (exec_ok eng no_fault _ _ _ _ _ _ H1), H2, Hrun.
      do 3 f_equal. cbn [map]. unfold SQLite.statementsOfSearch at 2.
      unfold list_sum. cbn [fold_right]. lia.
    + eapply Retouched_trans; [exact R12|].
      eapply Retouched_weaken; [|exact R'].
      intros a b (sg' & j & Hsg' & Hj & Hin & Hid).
      rewrite (rt_searches R12) in Hin.
      exists sg', j. split; [now right | auto].
Qed.

Lemma saveGroups_again :
  forall jobGroups s k,
    NoDup (map SQLite.category_name (SQLite.categories s)) ->
    NoDup (map SQLite.search_term (SQLite.searches s)) ->
    Settled jobGroups s ->
    exists s',
      SQLite.saveGroups eng ts jobGroups (SQLite.mkTxState s k)
      = inr (tt, SQLite.mkTxState s' (k + SQLite.statementCount jobGroups)) /\
      Retouched ts (Sought jobGroups (SQLite.searches s)) s s'.
Proof.
  induction jobGroups as [|g rest IH]; intros s k Hcat Hsearch Hset.
  - exists s. cbn. rewrite Nat.add_0_r.
    split; [reflexivity | apply Retouched_refl].
  - destruct (Hset g (or_introl eq_refl)) as (cid & Hrow & Hsearches).
    destruct (upsertCategory_again ts (fun _ _ => False)
                (SQLite.burns_rowid eng) (Category g) cid s Hcat Hrow)
      as (s1 & H1 & R1).
    destruct (saveSearches_again cid (Searches g) s1 (S k)) as (s2 & H2 & R2).
    { rewrite (rt_searches R1). exact Hsearch. }
    { eapply Retouched_SettledSearches; eassumption. }
    assert (R12 : Retouched ts (Sought (g :: rest) (SQLite.searches s)) s s2).
    { eapply Retouched_trans.
      - eapply Retouched_weaken; [|exact R1]. intros a b [].
      - eapply Retouched_weaken; [|exact R2].
        intros a b (sg & j & Hsg & Hj & Hin & Hid).
        rewrite (rt_searches R1) in Hin.
        exists g, sg, j. split; [now left | auto]. }
    destruct (IH s2 (S k + list_sum (map SQLite.statementsOfSearch
                                         (Searches g)))%nat)
      as (s' & Hrun & R').
    { rewrite (rt_categories R12). exact Hcat. }
    { rewrite (rt_searches R12). exact Hsearch. }
    { eapply Retouched_Settled; [exact R12|].
      intros g' Hg'. apply Hset. now right. }
    exists s'. split.
    + cbn [SQLite.saveGroups]. unfold SQLite.bind.
      rewrite (exec_ok eng no_fault _ _ _ _ _ _ H1), H2, Hrun.
      do 3 f_equal. unfold SQLite.statementCount. cbn [map].
      unfold SQLite.statementsOfGroup at 2.
      unfold list_sum. cbn [fold_right]. lia.
    + eapply Retouched_trans; [exact R12|].
      eapply Retouched_weaken; [|exact R'].
      intros a b (g' & sg & j & Hg' & Hsg & Hj & Hin & Hid).
      rewrite (rt_searches R12) in Hin.
      exists g', sg, j. split; [now right | auto].
Qed.

End Resave.

(** A save that returned no error went through its whole transaction: the
    store it leaves is settled for the tree, and covers it. *)
Lemma save_settles eng db jobGroups ts db1 :
  SQLite.WellFormed db ->
  SQLite.saveJobsToSQLite eng db jobGroups ts = (db1, None) ->
  SQLite.WellFormed db1 /\ Settled jobGroups db1 /\ Covered ts jobGroups db1.
Proof.
  intros Hwf. unfold SQLite.saveJobsToSQLite.
  destruct (SQLite.open_fails eng); [discriminate|].
  destruct (SQLite.pragma_fails eng); [discriminate|].
  destruct (existsb _ _); [discriminate|].
  destruct (SQLite.begin_fails eng); [discriminate|].
  destruct (SQLite.saveGroups eng ts jobGroups (SQLite.mkTxState db 0))
    as [e | [[] st']] eqn:Hrun; [discriminate|].
  destruct (SQLite.commit_fails eng); [discriminate|].
  intros [= <-].
  apply saveGroups_quiet in Hrun.
  destruct (saveGroups_settles (quiet eng) ts (fun _ => eq_refl) jobGroups
              db 0 Hwf) as (s1 & Hrun1 & E1 & Hset).
  destruct (saveGroups_spec (quiet eng) ts (fun _ => eq_refl) jobGroups
              db 0 Hwf) as (s2 & Hrun2 & _ & Hcov & _).
  rewrite Hrun in Hrun1, Hrun2.
  injection Hrun1 as ->. injection Hrun2 as <-. cbn [SQLite.working].
  split; [exact (ev_wf E1) | auto].
Qed.

(** The association of a posting the tree lists under a search term has
    the stamp of the run that covered the tree. *)
Lemma Covered_stamp ts jobGroups s r :
  SQLite.WellFormed s -> Covered ts jobGroups s ->
  In r (SQLite.searches_jobs s) ->
  Sought jobGroups (SQLite.searches s)
         (SQLite.sj_search_id r) (SQLite.sj_job_id r) ->
  SQLite.last_seen r = ts.
Proof.
  intros Hwf Hcov Hin (g & sg & j & Hg & Hsg & Hj & Hrow & Hid).
  destruct (Hcov g sg j Hg Hsg Hj) as (_ & sid & fs & Hrow' & Hseen).
  assert (sid = SQLite.sj_search_id r) as ->
      by (eapply search_id_unique; eassumption).
  rewrite Hid in Hseen. destruct r as [a b c d]; cbn in *.
  now destruct (search_job_unique _ _ _ _ _ _ _ Hwf Hin Hseen).
Qed.

Lemma resave eng1 eng2 db jobGroups t1 t2 db1 :
  SQLite.WellFormed db -> SQLite.healthy eng2 ->
  SQLite.saveJobsToSQLite eng1 db jobGroups t1 = (db1, None) ->
  exists db2,
    SQLite.saveJobsToSQLite eng2 db1 jobGroups t2 = (db2, None) /\
    Retouched t2 (Sought jobGroups (SQLite.searches db1)) db1 db2 /\
    SQLite.WellFormed db1 /\ Covered t1 jobGroups db1 /\
    SQLite.WellFormed db2 /\ Covered t2 jobGroups db2.
Proof.
  intros Hwf Hok Hrun1.
  destruct (save_settles _ _ _ _ _ Hwf Hrun1) as (Hwf1 & Hset & Hcov1).
  destruct (save_healthy eng2 db1 jobGroups t2 Hok Hwf1)
    as (db2 & Hrun2 & E2 & Hcov2 & _).
  exists db2. split; [exact Hrun2|].
  split; [|split; [exact Hwf1|split; [exact Hcov1|split;
                                       [exact (ev_wf E2)|exact Hcov2]]]].
  destruct Hok as (Hopen & Hpragma & Hcreate & Hbegin & Hstmt & Hcommit).
  destruct (saveGroups_again eng2 t2 Hstmt jobGroups db1 0
              (SQLite.wf_cat_name _ Hwf1) (SQLite.wf_search_name _ Hwf1) Hset)
    as (s' & Hrun & R).
  unfold SQLite.saveJobsToSQLite in Hrun2.
  rewrite Hopen, Hpragma, Hbegin, Hrun, Hcommit in Hrun2.
  cbn [seq existsb] in Hrun2. rewrite !Hcreate in Hrun2. cbn in Hrun2.
  injection Hrun2 as <-. exact R.
Qed.

(** X17.  Saving a tree again, after a save of it that returned no error
    and with nothing failing, adds no row to any table: [jobs],
    [categories], [jobs_categories] and [searches] are left as they were,
    and [searches_jobs] keeps its rows, in order, each with its key and its
    [first_seen].  The only change is [last_seen]: it becomes the timestamp
    of the new run on the associations of postings the tree lists under a
    search term, and stays as it was on every other row. *)
Theorem saveJobsToSQLite_again_only_restamps :
  forall eng1 eng2 db jobGroups t1 t2 db1,
    SQLite.WellFormed db -> SQLite.healthy eng2 ->
    SQLite.saveJobsToSQLite eng1 db jobGroups t1 = (db1, None) ->
    exists db2,
      SQLite.saveJobsToSQLite eng2 db1 jobGroups t2 = (db2, None) /\
      SQLite.jobs db2 = SQLite.jobs db1 /\
      SQLite.categories db2 = SQLite.categories db1 /\
      SQLite.jobs_categories db2 = SQLite.jobs_categories db1 /\
      SQLite.searches db2 = SQLite.searches db1 /\
      Forall2
        (fun r r' =>
           SQLite.sj_search_id r' = SQLite.sj_search_id r /\
           SQLite.sj_job_id r' = SQLite.sj_job_id r /\
           SQLite.first_seen r' = SQLite.first_seen r /\
           (Sought jobGroups (SQLite.searches db1)
                   (SQLite.sj_search_id r) (SQLite.sj_job_id r) ->
            SQLite.last_seen r' = t2) /\
           (~ Sought jobGroups (SQLite.searches db1)
                     (SQLite.sj_search_id r) (SQLite.sj_job_id r) ->
            SQLite.last_seen r' = SQLite.last_seen r))
        (SQLite.searches_jobs db1) (SQLite.searches_jobs db2).
Proof.
  intros eng1 eng2 db jobGroups t1 t2 db1 Hwf Hok Hrun1.
  destruct (resave eng1 eng2 db jobGroups t1 t2 db1 Hwf Hok Hrun1)
    as (db2 & Hrun2 & R & _ & _ & Hwf2 & Hcov2).
  exists db2. split; [exact Hrun2|].
  split; [exact (rt_jobs R)|]. split; [exact (rt_categories R)|].
  split; [exact (rt_jobs_categories R)|]. split; [exact (rt_searches R)|].
  eapply Forall2_members; [|exact (rt_searches_jobs R)].
  intros r r' _ Hin' (Hs & Hj & Hf & Hl).
  split; [exact Hs|]. split; [exact Hj|]. split; [exact Hf|]. split.
  - intros Hsought.
    apply (Covered_stamp t2 jobGroups db2 r' Hwf2 Hcov2 Hin').
    now rewrite (rt_searches R), Hs, Hj.
  - intros Hnot. destruct Hl as [Hl | [_ Hsought]]; [exact Hl | easy].
Qed.

Lemma saveJobsToSQLite_again_only_restamps_witness :
  exists db2,
    SQLite.saveJobsToSQLite (SQLite.reliable true)
      (fst (SQLite.saveJobsToSQLite (SQLite.reliable false) Scenario.seeded
              Scenario.overlapping "2025-02-01T00:00:00Z"))
      Scenario.overlapping "2025-03-01T00:00:00Z"
    = (db2, None) /\
    SQLite.jobs db2
    = SQLite.jobs (fst (SQLite.saveJobsToSQLite (SQLite.reliable false)
                          Scenario.seeded Scenario.overlapping
                          "2025-02-01T00:00:00Z")).
Proof.
  assert (Hwf : SQLite.WellFormed Scenario.seeded).
  { constructor; cbn; repeat constructor; cbn; intuition discriminate. }
  assert (Hrun : SQLite.saveJobsToSQLite (SQLite.reliable false)
                   Scenario.seeded Scenario.overlapping "2025-02-01T00:00:00Z"
                 = (fst (SQLite.saveJobsToSQLite (SQLite.reliable false)
                           Scenario.seeded Scenario.overlapping
                           "2025-02-01T00:00:00Z"), None))
    by (vm_compute; reflexivity).
  destruct (saveJobsToSQLite_again_only_restamps
              (SQLite.reliable false) (SQLite.reliable true) Scenario.seeded
              Scenario.overlapping "2025-02-01T00:00:00Z"
              "2025-03-01T00:00:00Z" _ Hwf (reliable_healthy true) Hrun)
    as (db2 & Hrun2 & Hjobs & _).
  exists db2. split; assumption.
Defined.

(** Two runs over a tree that lists A but not Z: the association of Z
    keeps its stamps. *)
Example resave_on_seeded_store :
  let db1 := fst (SQLite.saveJobsToSQLite (SQLite.reliable false)
                    Scenario.seeded Scenario.busyTree "t1") in
  let db2 := fst (SQLite.saveJobsToSQLite (SQLite.reliable true) db1
                    Scenario.busyTree "t2") in
  SQLite.searches_jobs db1
  = [ SQLite.mkSearchJobRow 1 "Z" "2025-01-01T00:00:00Z"
                            "2025-01-01T00:00:00Z";
      SQLite.mkSearchJobRow 1 "A" "t1" "t1" ] /\
  SQLite.searches_jobs db2
  = [ SQLite.mkSearchJobRow 1 "Z" "2025-01-01T00:00:00Z"
                            "2025-01-01T00:00:00Z";
      SQLite.mkSearchJobRow 1 "A" "t1" "t2" ] /\
  SQLite.categories db2
  = [ SQLite.mkCategoryRow 1 "Data Science";
      SQLite.mkCategoryRow 2 "Security" ].
Proof. vm_compute. repeat split. Qed.

Lemma Forall2_equal {A} (R : A -> A -> Prop) l l' :
  (forall x y, In x l -> R x y -> y = x) -> Forall2 R l l' -> l' = l.
Proof.
  intros HR H. induction H as [|x y l l' Hxy _ IH]; [reflexivity|].
  f_equal.
  - apply HR; [now left | exact Hxy].
  - apply IH. intros a b Ha. apply HR. now right.
Qed.

(** X18.  Saving is idempotent under one timestamp: a save of the same
    tree with the same timestamp, after one that returned no error and with
    nothing failing, returns no error and leaves the rows of all five
    tables exactly as they were. *)
Theorem saveJobsToSQLite_same_stamp_changes_nothing :
  forall eng1 eng2 db jobGroups ts db1,
    SQLite.WellFormed db -> SQLite.healthy eng2 ->
    SQLite.saveJobsToSQLite eng1 db jobGroups ts = (db1, None) ->
    exists db2,
      SQLite.saveJobsToSQLite eng2 db1 jobGroups ts = (db2, None) /\
      SQLite.jobs db2 = SQLite.jobs db1 /\
      SQLite.categories db2 = SQLite.categories db1 /\
      SQLite.jobs_categories db2 = SQLite.jobs_categories db1 /\
      SQLite.searches db2 = SQLite.searches db1 /\
      SQLite.searches_jobs db2 = SQLite.searches_jobs db1.
Proof.
  intros eng1 eng2 db jobGroups ts db1 Hwf Hok Hrun1.
  destruct (resave eng1 eng2 db jobGroups ts ts db1 Hwf Hok Hrun1)
    as (db2 & Hrun2 & R & Hwf1 & Hcov1 & _).
  exists db2. split; [exact Hrun2|].
  split; [exact (rt_jobs R)|]. split; [exact (rt_categories R)|].
  split; [exact (rt_jobs_categories R)|]. split; [exact (rt_searches R)|].
  eapply Forall2_equal; [|exact (rt_searches_jobs R)].
  intros r r' Hin (Hs & Hj & Hf & Hl).
  assert (Hls : SQLite.last_seen r' = SQLite.last_seen r).
  { destruct Hl as [Hl | [Hl Hsought]]; [exact Hl|].
    rewrite Hl. symmetry.
    exact (Covered_stamp ts jobGroups db1 r Hwf1 Hcov1 Hin Hsought). }
  destruct r, r'; cbn in *. congruence.
Qed.

Lemma saveJobsToSQLite_same_stamp_changes_nothing_witness :
  exists db2,
    SQLite.saveJobsToSQLite (SQLite.reliable true)
      (fst (SQLite.saveJobsToSQLite (SQLite.reliable false) Scenario.seeded
              Scenario.overlapping "2025-02-01T00:00:00Z"))
      Scenario.overlapping "2025-02-01T00:00:00Z"
    = (db2, None) /\
    SQLite.searches_jobs db2
    = SQLite.searches_jobs
        (fst (SQLite.saveJobsToSQLite (SQLite.reliable false) Scenario.seeded
                Scenario.overlapping "2025-02-01T00:00:00Z")).
Proof.
  assert (Hwf : SQLite.WellFormed Scenario.seeded).
  { constructor; cbn; repeat constructor; cbn; intuition discriminate. }
  assert (Hrun : SQLite.saveJobsToSQLite (SQLite.reliable false)
                   Scenario.seeded Scenario.overlapping "2025-02-01T00:00:00Z"
                 = (fst (SQLite.saveJobsToSQLite (SQLite.reliable false)
                           Scenario.seeded Scenario.overlapping
                           "2025-02-01T00:00:00Z"), None))
    by (vm_compute; reflexivity).
  destruct (saveJobsToSQLite_same_stamp_changes_nothing
              (SQLite.reliable false) (SQLite.reliable true) Scenario.seeded
              Scenario.overlapping "2025-02-01T00:00:00Z" _ Hwf
              (reliable_healthy true) Hrun)
    as (db2 & Hrun2 & _ & _ & _ & _ & Hsj).
  exists db2. split; assumption.
Defined.

(* ===================================================================== *)
(** ** Further properties: calls and sleeps of a whole analysis           *)
(* ===================================================================== *)

Lemma sum_app (l1 l2 : list Z) :
  fold_right Z.add 0%Z (l1 ++ l2)
  = (fold_right Z.add 0 l1 + fold_right Z.add 0 l2)%Z.
Proof. induction l1 as [|a l1 IH]; cbn; [reflexivity | rewrite IH; lia]. Qed.

(** What one [processBatch] adds to the calls made and the time slept. *)
Lemma processBatch_effects api batchJobs e :
  exists k more,
    (1 <= k <= 3)%nat /\
    Analyzer.calls (snd (Analyzer.processBatch api batchJobs e))
    = (Analyzer.calls e + k)%nat /\
    Analyzer.sleeps (snd (Analyzer.processBatch api batchJobs e))
    = Analyzer.sleeps e ++ more /\
    (0 <= fold_right Z.add 0 more <= 7)%Z.
Proof.
  destruct e as [n slept].
  unfold Analyzer.processBatch, Analyzer.maxRetries.
  cbn [Analyzer.attempts Analyzer.calls Analyzer.sleeps].
  destruct (api n (Analyzer.prompt batchJobs)) as [|r0].
  2:{ exists 1%nat, [].
      destruct (Analyzer.hasContent r0), (Analyzer.parsed r0); cbn;
        rewrite app_nil_r; repeat split; lia. }
  destruct (api (S n) (Analyzer.prompt batchJobs)) as [|r1].
  2:{ exists 2%nat, [1%Z].
      destruct (Analyzer.hasContent r1), (Analyzer.parsed r1); cbn;
        repeat split; lia. }
  destruct (api (S (S n)) (Analyzer.prompt batchJobs)) as [|r2].
  2:{ exists 3%nat, [1%Z; 2%Z].
      destruct (Analyzer.hasContent r2), (Analyzer.parsed r2); cbn;
        rewrite <- app_assoc; repeat split; lia. }
  exists 3%nat, [1%Z; 2%Z; 4%Z]. cbn. rewrite <- !app_assoc.
  repeat split; lia.
Qed.

Lemma processBatches_effects api :
  forall batches finalResults e,
    (Analyzer.calls e + List.length batches
     <= Analyzer.calls (snd (Analyzer.processBatches api batches
                                                     finalResults e))
     <= Analyzer.calls e + 3 * List.length batches)%nat /\
    (secondsSlept e
     <= secondsSlept (snd (Analyzer.processBatches api batches
                                                   finalResults e))
     <= secondsSlept e + 7 * Z.of_nat (List.length batches))%Z.
Proof.
  induction batches as [|b rest IH]; intros finalResults e.
  - cbn. lia.
  - cbn [Analyzer.processBatches].
    destruct (processBatch_effects api b e) as (k & more & Hk & Hc & Hs & Hm).
    destruct (Analyzer.processBatch api b e) as [result e1].
    cbn [snd] in Hc, Hs.
    assert (Hslept : secondsSlept e1
                     = (secondsSlept e + fold_right Z.add 0 more)%Z).
    { unfold secondsSlept. now rewrite Hs, sum_app. }
    destruct result as [batchResults | err].
    + destruct (IH (finalResults ++ batchResults) e1) as [IHc IHs].
      cbn [List.length]. split; lia.
    + destruct (IH finalResults e1) as [IHc IHs].
      cbn [List.length]. split; lia.
Qed.

(** X19.  Whatever the service does, [main] calls it at least once and at
    most three times for each batch, so at most three times per job, and
    sleeps at most seven seconds per batch between attempts. *)
Theorem analyze_keeps_to_its_call_budget :
  forall api jobs,
    let batches := Analyzer.createBatches jobs in
    let e := snd (Analyzer.analyze api jobs) in
    (List.length batches <= Analyzer.calls e <= 3 * List.length batches)%nat /\
    (Analyzer.calls e <= 3 * List.length jobs)%nat /\
    (0 <= secondsSlept e <= 7 * Z.of_nat (List.length batches))%Z.
Proof.
  intros api jobs batches e.
  destruct (processBatches_effects api batches [] (Analyzer.mkEffects 0 []))
    as [Hc Hs].
  change (snd (Analyzer.processBatches api batches []
                 (Analyzer.mkEffects 0 []))) with e in Hc, Hs.
  cbn [Analyzer.calls Nat.add] in Hc.
  change (secondsSlept (Analyzer.mkEffects 0 [])) with 0%Z in Hs.
  assert (Hn : (List.length batches <= List.length jobs)%nat).
  { assert (Hne : Forall (fun b => b <> []) batches)
      by (apply batchLoop_no_empty; constructor).
    assert (Hcat : List.concat batches = jobs)
      by (unfold batches, Analyzer.createBatches, Analyzer.createBatchesWith;
          now rewrite batchLoop_concat).
    rewrite <- Hcat. clear Hcat Hc Hs e.
    induction Hne as [|b l Hb _ IH]; cbn; [lia|].
    rewrite length_app. destruct b; [contradiction|]. cbn. lia. }
  split; [lia|]. split; lia.
Qed.

(* ===================================================================== *)
(** ** Further properties: what [saveJobsToFile] leaves on every path     *)
(* ===================================================================== *)

Lemma length_append (s1 s2 : string) :
  String.length (s1 ++ s2) = (String.length s1 + String.length s2)%nat.
Proof. induction s1 as [|c s1 IH]; cbn; [reflexivity | now rewrite IH]. Qed.

Lemma length_drop n s :
  String.length (Flat.drop n s) = (String.length s - n)%nat.
Proof.
  revert s. induction n as [|n IH]; intros s; cbn; [lia|].
  destruct s as [|c s]; cbn; [reflexivity | apply IH].
Qed.

Lemma length_take n s :
  (n <= String.length s)%nat -> String.length (Flat.take n s) = n.
Proof.
  revert s. induction n as [|n IH]; intros s Hn; cbn; [reflexivity|].
  destruct s as [|c s]; cbn in *; [lia|]. rewrite IH; lia.
Qed.

Lemma length_writeAt0 old data :
  String.length (Flat.writeAt0 old data)
  = Nat.max (String.length old) (String.length data).
Proof. unfold Flat.writeAt0. rewrite length_append, length_drop. lia. Qed.

(** X20.  [saveJobsToFile] never shortens the file, on any path.  When the
    directory cannot be made or the file cannot be opened, the output path
    is as it was (no file is created).  When the write fails part-way, the
    file holds the part of the new document that was written followed by
    what the previous content had beyond it: a failed write is not undone.
    When no error is returned, the file holds the new document followed by
    what the previous content had beyond its length. *)
Theorem saveJobsToFile_never_shortens :
  forall quote fs jobGroups,
    let before := contentOf (Flat.file fs) in
    let document := Flat.encode quote jobGroups in
    let after := fst (Flat.saveJobsToFile quote fs jobGroups) in
    let err := snd (Flat.saveJobsToFile quote fs jobGroups) in
    (String.length before <= String.length (contentOf after))%nat /\
    (err = Some Flat.CouldNotCreateDirectory \/
     err = Some Flat.CouldNotOpenFile -> after = Flat.file fs) /\
    (err = Some Flat.CouldNotEncode ->
     exists n,
       (n < String.length document)%nat /\
       after = Some (Flat.take n document ++ Flat.drop n before)%string) /\
    (err = None ->
     after
     = Some (document ++ Flat.drop (String.length document) before)%string).
Proof.
  intros quote fs jobGroups before document after err.
  unfold after, err, Flat.saveJobsToFile.
  destruct (Flat.statFails fs && Flat.mkdirAllFails fs).
  { cbn. split; [apply Nat.le_refl|]. split; [reflexivity|].
    split; discriminate. }
  destruct (Flat.openFails fs).
  { cbn. split; [apply Nat.le_refl|]. split; [reflexivity|].
    split; discriminate. }
  fold (contentOf (Flat.file fs)). fold before. fold document.
  destruct (Flat.writeLimit fs) as [n|].
  - destruct (String.length document <=? n)%nat eqn:Hn; cbn [fst snd contentOf].
    + rewrite length_writeAt0. split; [lia|].
      split; [intros [H | H]; discriminate|].
      split; [discriminate | reflexivity].
    + apply Nat.leb_gt in Hn. rewrite length_writeAt0. split; [lia|].
      split; [intros [H | H]; discriminate|].
      split; [|discriminate]. intros _. exists n. split; [exact Hn|].
      unfold Flat.writeAt0. rewrite length_take; [reflexivity | lia].
  - cbn [fst snd contentOf]. rewrite length_writeAt0. split; [lia|].
    split; [intros [H | H]; discriminate|].
    split; [discriminate | reflexivity].
Qed.

(** A write that is cut after ten bytes of a shorter previous file. *)
Example torn_write_on_short_file :
  Flat.saveJobsToFile Flat.quotePlain
    (Flat.mkFS false false false (Some 10%nat) (Some "0123456789abcdef"))
    Scenario.busyTree
  = (Some (Flat.take 10 (Flat.encode Flat.quotePlain Scenario.busyTree)
           ++ "abcdef")%string,
     Some Flat.CouldNotEncode).
Proof. vm_compute. reflexivity. Qed.
